(** * avrokit: a shallow embedding of the OCF tools and their properties

    Each module embeds one component of the Python sources:
    - [Naming], [Writer]: io/writer.py (PartitionedAvroWriter)
    - [SchemaEvolution]: io/schema.py
    - [AsyncStage]: asyncio/writer.py (DeferredAvroWriter)
    - [Framing], [Concat], [Count], [Repair]: tools/concat.py, tools/count.py,
      tools/repair.py
    - [Sorter]: tools/filesort.py

    Python exceptions are values of [exn]; a call that may raise returns a
    [result]. *)

From Stdlib Require Import List ZArith NArith Arith Lia Bool String Ascii.
From Stdlib Require Import Permutation Sorted.
Import ListNotations.

Set Implicit Arguments.

(** ** Python exceptions *)

Inductive exn : Type :=
| ValueError (msg : string)
| EOFError
| AvroException (msg : string)
| OSError
| OverflowError.

Inductive result (A : Type) : Type :=
| Ok (a : A)
| Raise (e : exn).

Arguments Ok {A} a.
Arguments Raise {A} e.

Definition bind {A B : Type} (r : result A) (k : A -> result B) : result B :=
  match r with
  | Ok a => k a
  | Raise e => Raise e
  end.

Notation "x <- r ;; k" := (bind r (fun x => k))
  (at level 61, r at next level, right associativity).

(** ** Decimal text of Python ints (str(i), int(s), format width) *)

Module Decimal10.

Open Scope N_scope.

Definition digit_char (d : N) : ascii := ascii_of_N (48 + d).

Definition is_digit (c : ascii) : bool :=
  let n := N_of_ascii c in (48 <=? n) && (n <=? 57).

Definition digit_value (c : ascii) : N := N_of_ascii c - 48.

(** str(i) for i >= 0: the decimal digits, most significant first.  The
    fuel bounds the number of digits by the number of bits of [i]. *)
Fixpoint digits_loop (fuel : nat) (i : N) (acc : string) : string :=
  let acc' := String (digit_char (i mod 10)) acc in
  match fuel with
  | O => acc'
  | S fuel' => if i <? 10 then acc' else digits_loop fuel' (i / 10) acc'
  end.

Definition str (i : N) : string :=
  digits_loop (N.to_nat (N.size i)) i EmptyString.

(** int(s) on a string of decimal digits. *)
Fixpoint int_loop (s : string) (acc : N) : N :=
  match s with
  | EmptyString => acc
  | String c s' => int_loop s' (10 * acc + digit_value c)
  end.

Definition int (s : string) : N := int_loop s 0.

Fixpoint zeros (n : nat) : string :=
  match n with
  | O => EmptyString
  | S n' => String "0" (zeros n')
  end.

(** f"{i:0Wd}" for i >= 0: str(i) left-padded with zeros to at least W
    characters. *)
Definition zfill (width : nat) (i : N) : string :=
  let s := str i in
  (zeros (width - String.length s) ++ s)%string.

Fixpoint all_digits (s : string) : bool :=
  match s with
  | EmptyString => true
  | String c s' => is_digit c && all_digits s'
  end.

(** *** Facts about the decimal text *)

Lemma is_digit_digit_char (d : N) : d < 10 -> is_digit (digit_char d) = true.
Proof.
  intros H.
  assert (C : d = 0 \/ d = 1 \/ d = 2 \/ d = 3 \/ d = 4 \/ d = 5 \/ d = 6
              \/ d = 7 \/ d = 8 \/ d = 9) by lia.
  repeat (destruct C as [C | C]; [subst d; reflexivity |]).
  subst d; reflexivity.
Qed.

Lemma digit_value_digit_char (d : N) : d < 10 -> digit_value (digit_char d) = d.
Proof.
  intros H.
  assert (C : d = 0 \/ d = 1 \/ d = 2 \/ d = 3 \/ d = 4 \/ d = 5 \/ d = 6
              \/ d = 7 \/ d = 8 \/ d = 9) by lia.
  repeat (destruct C as [C | C]; [subst d; reflexivity |]).
  subst d; reflexivity.
Qed.

Lemma append_assoc (s t u : string) :
  ((s ++ t) ++ u = s ++ (t ++ u))%string.
Proof. induction s as [| c s IH]; simpl; [reflexivity | now rewrite IH]. Qed.

Lemma digits_loop_acc (fuel : nat) : forall i acc,
  digits_loop fuel i acc = (digits_loop fuel i EmptyString ++ acc)%string.
Proof.
  induction fuel as [| fuel IH]; intros i acc; simpl.
  - reflexivity.
  - destruct (i <? 10); [reflexivity |].
    rewrite IH.
    rewrite (IH (i / 10) (String (digit_char (i mod 10)) EmptyString)).
    rewrite append_assoc. reflexivity.
Qed.

Lemma all_digits_app (s t : string) :
  all_digits (s ++ t) = all_digits s && all_digits t.
Proof.
  induction s as [| c s IH]; simpl; [reflexivity |].
  rewrite IH, andb_assoc. reflexivity.
Qed.

Lemma all_digits_digits_loop (fuel : nat) : forall i acc,
  all_digits acc = true -> all_digits (digits_loop fuel i acc) = true.
Proof.
  assert (D : forall i, is_digit (digit_char (i mod 10)) = true).
  { intros i. apply is_digit_digit_char. apply N.mod_lt. discriminate. }
  induction fuel as [| fuel IH]; intros i acc Hacc; simpl.
  - rewrite D, Hacc. reflexivity.
  - destruct (i <? 10).
    + simpl. rewrite D, Hacc. reflexivity.
    + apply IH. simpl. rewrite D, Hacc. reflexivity.
Qed.

Lemma all_digits_str (i : N) : all_digits (str i) = true.
Proof. apply all_digits_digits_loop. reflexivity. Qed.

Lemma all_digits_zeros (n : nat) : all_digits (zeros n) = true.
Proof. induction n as [| n IH]; simpl; [reflexivity | exact IH]. Qed.

Lemma all_digits_zfill (w : nat) (i : N) : all_digits (zfill w i) = true.
Proof.
  unfold zfill. rewrite all_digits_app, all_digits_zeros, all_digits_str.
  reflexivity.
Qed.

Lemma length_app (s t : string) :
  String.length (s ++ t) = (String.length s + String.length t)%nat.
Proof. induction s as [| c s IH]; simpl; [reflexivity | now rewrite IH]. Qed.

Lemma length_zeros (n : nat) : String.length (zeros n) = n.
Proof. induction n as [| n IH]; simpl; [reflexivity | now rewrite IH]. Qed.

Lemma length_digits_loop_pos (fuel : nat) (i : N) (acc : string) :
  (1 <= String.length (digits_loop fuel i acc))%nat.
Proof.
  rewrite digits_loop_acc, length_app.
  destruct fuel as [| fuel]; simpl.
  - lia.
  - destruct (i <? 10); simpl; [lia |].
    rewrite digits_loop_acc, length_app. simpl. lia.
Qed.

(** A number below 10^(k+1) prints with at most k+1 digits. *)
Lemma length_digits_loop_bound (k : nat) : forall fuel i,
  i < 10 ^ N.of_nat (S k) ->
  (String.length (digits_loop fuel i EmptyString) <= S k)%nat.
Proof.
  induction k as [| k IH]; intros fuel i Hi.
  - change (10 ^ N.of_nat 1) with 10 in Hi.
    destruct fuel as [| fuel]; simpl; [lia |].
    apply N.ltb_lt in Hi. rewrite Hi. simpl. lia.
  - destruct fuel as [| fuel]; simpl; [lia |].
    destruct (i <? 10) eqn:E; simpl; [lia |].
    rewrite digits_loop_acc, length_app. simpl.
    assert (Hq : i / 10 < 10 ^ N.of_nat (S k)).
    { apply N.Div0.div_lt_upper_bound.
      replace (N.of_nat (S (S k))) with (N.succ (N.of_nat (S k))) in Hi by lia.
      rewrite N.pow_succ_r' in Hi. exact Hi. }
    specialize (IH fuel (i / 10) Hq). lia.
Qed.

Lemma length_str_bound (k : nat) (i : N) :
  i < 10 ^ N.of_nat (S k) -> (String.length (str i) <= S k)%nat.
Proof. apply length_digits_loop_bound. Qed.

Lemma int_loop_app (s t : string) : forall acc,
  int_loop (s ++ t) acc = int_loop t (int_loop s acc).
Proof.
  induction s as [| c s IH]; intros acc; simpl; [reflexivity | apply IH].
Qed.

(** With fuel for every digit, reading the printed digits back gives the
    number, whatever was read before. *)
Lemma int_loop_digits_loop (fuel : nat) : forall i acc,
  i < 10 ^ N.of_nat (S fuel) ->
  int_loop (digits_loop fuel i EmptyString) acc
  = acc * 10 ^ N.of_nat (String.length (digits_loop fuel i EmptyString)) + i.
Proof.
  induction fuel as [| fuel IH]; intros i acc Hi.
  - change (10 ^ N.of_nat 1) with 10 in Hi.
    cbn [digits_loop int_loop String.length].
    rewrite digit_value_digit_char by (apply N.mod_lt; discriminate).
    rewrite N.mod_small by exact Hi. change (10 ^ N.of_nat 1) with 10. lia.
  - cbn [digits_loop]. destruct (i <? 10) eqn:E.
    + apply N.ltb_lt in E. cbn [int_loop String.length].
      rewrite digit_value_digit_char by (apply N.mod_lt; discriminate).
      rewrite N.mod_small by exact E. change (10 ^ N.of_nat 1) with 10. lia.
    + rewrite digits_loop_acc, int_loop_app, length_app.
      cbn [int_loop String.length].
      assert (Hq : i / 10 < 10 ^ N.of_nat (S fuel)).
      { apply N.Div0.div_lt_upper_bound.
        replace (N.of_nat (S (S fuel))) with (N.succ (N.of_nat (S fuel)))
          in Hi by lia.
        rewrite N.pow_succ_r' in Hi. exact Hi. }
      rewrite (IH (i / 10) acc Hq).
      rewrite digit_value_digit_char by (apply N.mod_lt; discriminate).
      set (n := String.length (digits_loop fuel (i / 10) EmptyString)).
      replace (N.of_nat (n + 1)) with (N.succ (N.of_nat n)) by lia.
      rewrite N.pow_succ_r'.
      pose proof (N.div_mod i 10 ltac:(discriminate)) as Hdm.
      lia.
Qed.

Lemma str_fuel (i : N) : i < 10 ^ N.of_nat (S (N.to_nat (N.size i))).
Proof.
  pose proof (N.size_gt i) as H.
  apply N.lt_le_trans with (1 := H).
  replace (N.of_nat (S (N.to_nat (N.size i)))) with (N.succ (N.size i)) by lia.
  rewrite N.pow_succ_r'.
  assert (P : 2 ^ N.size i <= 10 ^ N.size i).
  { apply N.pow_le_mono_l. lia. }
  assert (Q : 0 < 10 ^ N.size i).
  { apply N.neq_0_lt_0. apply N.pow_nonzero. discriminate. }
  lia.
Qed.

(** int(str(i)) == i. *)
Lemma int_str (i : N) : int (str i) = i.
Proof.
  unfold int, str. rewrite int_loop_digits_loop by apply str_fuel. lia.
Qed.

Lemma int_loop_zeros (n : nat) : int_loop (zeros n) 0 = 0.
Proof. induction n as [| n IH]; simpl; [reflexivity | exact IH]. Qed.

(** Leading zeros do not change the value: int(f"{i:05d}") == i. *)
Lemma int_zfill (w : nat) (i : N) : int (zfill w i) = i.
Proof.
  unfold int, zfill. rewrite int_loop_app, int_loop_zeros. apply int_str.
Qed.

Lemma zfill_nonempty (w : nat) (i : N) : zfill w i <> EmptyString.
Proof.
  intros H. apply (f_equal String.length) in H.
  unfold zfill in H. rewrite length_app in H. simpl in H.
  pose proof (length_digits_loop_pos (N.to_nat (N.size i)) i EmptyString).
  unfold str in H. lia.
Qed.

Lemma length_zfill_ge (w : nat) (i : N) : (w <= String.length (zfill w i))%nat.
Proof. unfold zfill. rewrite length_app, length_zeros. lia. Qed.

Lemma length_zfill_exact (k : nat) (i : N) :
  i < 10 ^ N.of_nat (S k) -> String.length (zfill (S k) i) = S k.
Proof.
  intros H. unfold zfill. rewrite length_app, length_zeros.
  pose proof (@length_str_bound k i H). lia.
Qed.

End Decimal10.

(** ** io/writer.py: PartitionedAvroWriter.next_filename *)

Module Naming.

Import Decimal10.
Open Scope string_scope.

(** The longest run of digits at the start of [s] (the greedy [\d+]). *)
Fixpoint take_digits (s : string) : string :=
  match s with
  | EmptyString => EmptyString
  | String c s' => if is_digit c then String c (take_digits s') else EmptyString
  end.

Fixpoint drop (n : nat) (s : string) : string :=
  match n, s with
  | O, _ => s
  | S n', String _ s' => drop n' s'
  | S _, EmptyString => EmptyString
  end.

(** A match of [part-(\d+)] starting at the first character of [s]: the
    captured group. *)
Definition match_here (s : string) : option string :=
  if String.prefix "part-" s then
    match take_digits (drop 5 s) with
    | EmptyString => None
    | ds => Some ds
    end
  else None.

(** re.search(r"part-(\d+)", s): the leftmost match, group 1. *)
Fixpoint re_search (s : string) : option string :=
  match match_here s with
  | Some ds => Some ds
  | None =>
      match s with
      | EmptyString => None
      | String _ s' => re_search s'
      end
  end.

Definition format_name (i : N) : string := "part-" ++ zfill 5 i ++ ".avro".

(** next_filename(previous); [None] and the empty string are both falsy
    in [if previous:]. *)
Definition next_filename (previous : option string) : result string :=
  match previous with
  | None | Some EmptyString => Ok (format_name 0)
  | Some p =>
      match re_search p with
      | None => Raise (ValueError ("Invalid filename format: " ++ p))
      | Some ds => Ok (format_name (int ds + 1))
      end
  end.

(** The grammar part-[0-9]{5}\.avro, as a full match. *)
Definition sequential_grammar (s : string) : bool :=
  String.prefix "part-" s
  && all_digits (String.substring 5 5 s)
  && String.eqb (drop 10 s) ".avro".

(** The same with at least five digits: part-[0-9]{5,}\.avro. *)
Definition sequential_grammar_wide (s : string) : bool :=
  String.prefix "part-" s
  && (5 <=? String.length (take_digits (drop 5 s)))%nat
  && String.eqb (drop (5 + String.length (take_digits (drop 5 s))) s) ".avro".

(** *** Properties of next_filename *)

Lemma take_digits_stop (ds : string) :
  all_digits ds = true -> take_digits (ds ++ ".avro") = ds.
Proof.
  induction ds as [| c ds IH]; simpl; intros H.
  - reflexivity.
  - apply andb_true_iff in H. destruct H as [Hc Hds].
    rewrite Hc, (IH Hds). reflexivity.
Qed.

Lemma drop_length_app (s t : string) : drop (String.length s) (s ++ t) = t.
Proof. induction s as [| c s IH]; simpl; [now destruct t | exact IH]. Qed.

Lemma prefix_empty (s : string) : String.prefix "" s = true.
Proof. destruct s; reflexivity. Qed.

Lemma re_search_part (ds : string) :
  ds <> "" -> all_digits ds = true ->
  re_search ("part-" ++ ds ++ ".avro") = Some ds.
Proof.
  intros Hne Hds.
  change ("part-" ++ ds ++ ".avro")
    with (String "p" (String "a" (String "r" (String "t" (String "-"
           (ds ++ ".avro")))))).
  unfold re_search, match_here. cbn [String.prefix drop].
  repeat (destruct (Ascii.ascii_dec _ _) as [_ | N]; [| exfalso; apply N; reflexivity]).
  rewrite (take_digits_stop _ Hds).
  destruct ds; [contradiction | reflexivity].
Qed.

Lemma next_filename_found (p ds : string) :
  p <> "" -> re_search p = Some ds ->
  next_filename (Some p) = Ok (format_name (int ds + 1)).
Proof.
  intros Hne H. destruct p; [contradiction |].
  unfold next_filename. rewrite H. reflexivity.
Qed.

Lemma next_filename_malformed (p : string) :
  p <> "" -> re_search p = None ->
  next_filename (Some p) = Raise (ValueError ("Invalid filename format: " ++ p)).
Proof.
  intros Hne H. destruct p; [contradiction |].
  unfold next_filename. rewrite H. reflexivity.
Qed.

Lemma next_filename_successor (n : N) :
  next_filename (Some (format_name n)) = Ok (format_name (n + 1)).
Proof.
  unfold format_name.
  rewrite (@next_filename_found _ (zfill 5 n)).
  - rewrite int_zfill. reflexivity.
  - discriminate.
  - apply re_search_part; [apply zfill_nonempty | apply all_digits_zfill].
Qed.

Lemma format_name_wide (i : N) : sequential_grammar_wide (format_name i) = true.
Proof.
  unfold sequential_grammar_wide, format_name.
  change ("part-" ++ zfill 5 i ++ ".avro")
    with (String "p" (String "a" (String "r" (String "t" (String "-"
           (zfill 5 i ++ ".avro")))))).
  cbn [String.prefix drop Nat.add].
  repeat (destruct (Ascii.ascii_dec _ _) as [_ | N]; [| exfalso; apply N; reflexivity]).
  rewrite (take_digits_stop _ (all_digits_zfill 5 i)).
  rewrite drop_length_app.
  pose proof (length_zfill_ge 5 i) as L.
  apply Nat.leb_le in L. rewrite L, prefix_empty. reflexivity.
Qed.

Lemma format_name_five (i : N) :
  (i < 100000)%N -> sequential_grammar (format_name i) = true.
Proof.
  intros Hi.
  pose proof (@length_zfill_exact 4 i Hi) as L.
  pose proof (all_digits_zfill 5 i) as D.
  unfold sequential_grammar, format_name.
  destruct (zfill 5 i) as [| c1 [| c2 [| c3 [| c4 [| c5 [| c6 z]]]]]];
    try discriminate L.
  simpl in D. simpl.
  repeat (destruct (Ascii.ascii_dec _ _) as [_ | N]; [| exfalso; apply N; reflexivity]).
  rewrite D. reflexivity.
Qed.

(** C7, as the code has it: the first name is part-00000.avro, also for an
    empty previous name; the successor of the name numbered n is the name
    numbered n+1, the number being the first match of part-(\d+) anywhere
    in the previous name; a non-empty previous name without such a match
    raises ValueError; every name produced matches part-[0-9]{5,}\.avro, and
    part-[0-9]{5}\.avro when its number is below 100000. *)
Theorem next_filename_sequential :
  next_filename None = Ok "part-00000.avro"
  /\ next_filename (Some "") = Ok "part-00000.avro"
  /\ (forall n, next_filename (Some (format_name n)) = Ok (format_name (n + 1)))
  /\ (forall p ds, p <> "" -> re_search p = Some ds ->
        next_filename (Some p) = Ok (format_name (int ds + 1)))
  /\ (forall ds, ds <> "" -> all_digits ds = true ->
        re_search ("part-" ++ ds ++ ".avro") = Some ds)
  /\ (forall p, p <> "" -> re_search p = None ->
        next_filename (Some p)
        = Raise (ValueError ("Invalid filename format: " ++ p)))
  /\ (forall prev name, next_filename prev = Ok name ->
        sequential_grammar_wide name = true)
  /\ (forall prev name i, next_filename prev = Ok name ->
        name = format_name i -> (i < 100000)%N ->
        sequential_grammar name = true).
Proof.
  split; [reflexivity |].
  split; [reflexivity |].
  split; [exact next_filename_successor |].
  split; [exact next_filename_found |].
  split; [exact re_search_part |].
  split; [exact next_filename_malformed |].
  split.
  - intros prev name H.
    destruct prev as [[| c p] |]; unfold next_filename in H.
    + injection H as <-. apply format_name_wide.
    + destruct (re_search (String c p)); [injection H as <- | discriminate H].
      apply format_name_wide.
    + injection H as <-. apply format_name_wide.
  - intros prev name i _ -> Hi. apply format_name_five. exact Hi.
Qed.

(** C7 as stated fails twice: the empty name matches no part-\d+ and yet
    does not raise, and the successor of part-99999.avro has six digits. *)
Lemma next_filename_claim_fails :
  re_search "" = None
  /\ next_filename (Some "") = Ok "part-00000.avro"
  /\ next_filename (Some "part-99999.avro") = Ok "part-100000.avro"
  /\ sequential_grammar "part-100000.avro" = false.
Proof. repeat split; reflexivity. Qed.

End Naming.

(** ** url: the classes of URL *)

Module Url.

(** The URL object parse_url makes of a string, by its class; a FileURL is
    given by its [path] attribute.  open() of a FileURL in mode "wb" opens
    the file at the path itself.  open() of the three others hands out a
    scratch file or an in-memory buffer, and the object at the URL is
    written by URL.close() alone, from what the scratch holds then. *)
Inductive URL : Type :=
| FileURL (path : string)
| S3URL (url : string)
| GoogleCloudStorageURL (url : string)
| HttpURL (url : string).

(** What is at the place a URL names: nothing, a directory, or a file or
    object with its content. *)
Inductive holds (A : Type) : Type :=
| Nothing
| Directory
| File (content : A).

Arguments Nothing {A}.
Arguments Directory {A}.
Arguments File {A} content.

Fixpoint mentions (c : ascii) (s : string) : bool :=
  match s with
  | EmptyString => false
  | String c' s' => Ascii.eqb c' c || mentions c s'
  end.

(** "*" in path or "?" in path or "[" in path: the test by which FileURL
    takes its path for a glob pattern. *)
Definition has_wildcard (path : string) : bool :=
  mentions "*"%char path || mentions "?"%char path || mentions "["%char path.

Fixpoint ends_with_slash (path : string) : bool :=
  match path with
  | EmptyString => false
  | String c EmptyString => Ascii.eqb c "/"%char
  | String _ rest => ends_with_slash rest
  end.

(** url.open() in mode "wb", as far as it raises.  FileURL.open refuses a
    directory with ValueError, then calls
    os.makedirs(os.path.dirname(self.path), exist_ok=True), which raises
    FileNotFoundError on the empty name that dirname gives for a path
    without "/", then opens the path, which raises IsADirectoryError or
    NotADirectoryError when the path ends with "/"; the three are OSError
    here.  The other classes make a scratch file or a buffer. *)
Definition open_wb {A : Type} (u : URL) (previous : holds A) : result unit :=
  match u with
  | FileURL path =>
      match previous with
      | Directory =>
          Raise (ValueError ("Cannot open directory " ++ path
                             ++ " for reading/writing.")%string)
      | Nothing | File _ =>
          if negb (mentions "/"%char path) then Raise OSError
          else if ends_with_slash path then Raise OSError
          else Ok tt
      end
  | S3URL _ | GoogleCloudStorageURL _ | HttpURL _ => Ok tt
  end.

(** What the place of [u] holds once a stream opened on it in mode "wb"
    was written with [stream] and closed, the URL object itself never being
    closed: the stream for a FileURL, and for the others what it held
    before. *)
Definition left_unclosed {A : Type} (u : URL) (previous : holds A)
  (stream : A) : holds A :=
  match u with
  | FileURL _ => File stream
  | S3URL _ | GoogleCloudStorageURL _ | HttpURL _ => previous
  end.

End Url.

(** ** io/writer.py: PartitionedAvroWriter as a state machine *)

Module Writer.

Import Naming.
Import Url.
Open Scope string_scope.

Section PartitionedWriter.

(** The records handed to the writer; their encoding is the Avro library's
    business. *)
Variable datum : Type.

(** avro.datafile.DataFileWriter, as far as this class drives it: the file
    it writes, the records buffered since the last flush, whether it was
    closed. *)
Record DataFileWriter : Type := {
  dfw_path : string;
  dfw_buffer : list datum;
  dfw_closed : bool
}.

(** The writer object together with the storage under its URL: [storage]
    maps the basenames that [url.expand()] lists to the records flushed to
    them.  For a FileURL these are the files of the directory it names,
    taken to lie in the directory itself: expand() also walks its
    sub-directories, and lists a path that is no directory as itself.  A
    path with a wildcard lists only the files that match it, which this
    record does not tell apart, so the theorems about the storage ask for a
    path without one.  [current_url] is self.url.with_path(name), kept as
    the URL and the name of that call: each class joins the two in its own
    way, and the writer reads nothing of the result but the stream it
    opens. *)
Record PartitionedAvroWriter : Type := {
  url : URL;
  storage : list (string * list datum);
  current_url : option (URL * string);
  current_url_stream : option string;
  current_writer : option DataFileWriter
}.

(** What __init__ leaves: the Closed state. *)
Definition init (u : URL) (st : list (string * list datum))
  : PartitionedAvroWriter :=
  {| url := u; storage := st; current_url := None;
     current_url_stream := None; current_writer := None |}.

Fixpoint storage_append (name : string) (ds : list datum)
  (st : list (string * list datum)) : list (string * list datum) :=
  match st with
  | [] => [(name, ds)]
  | (n, old) :: st' =>
      if String.eqb n name then (n, (old ++ ds)%list) :: st'
      else (n, old) :: storage_append name ds st'
  end.

(** Opening a file in mode "wb" truncates it. *)
Fixpoint storage_create (name : string) (st : list (string * list datum))
  : list (string * list datum) :=
  match st with
  | [] => [(name, [])]
  | (n, old) :: st' =>
      if String.eqb n name then (n, []) :: st'
      else (n, old) :: storage_create name st'
  end.

(** sorted(filenames)[-1]: the greatest name. *)
Fixpoint greatest (names : list string) : option string :=
  match names with
  | [] => None
  | n :: rest =>
      match greatest rest with
      | None => Some n
      | Some m => if String.leb n m then Some m else Some n
      end
  end.

Definition find_last_filename (w : PartitionedAvroWriter) : option string :=
  greatest (map fst (storage w)).

(** self.current_url.open(), and a write to the stream it returned, as the
    storage sees them.  The stream of a FileURL is the listed file: its
    path is the writer's path, "/" and the name, so the directory part that
    open() makes with os.makedirs is the writer's directory, and the path
    is taken to name no directory.  The stream of the other classes is a
    scratch file or a buffer; the class never calls close() on the URLs it
    opens, so nothing of it reaches the storage.  GoogleCloudStorageURL's
    open() first asks the client for the bucket the URL names, and the URL
    that with_path builds keeps the path alone; whether the library takes
    that is not decided here, and the theorems leave the class out. *)
Definition stream_open (u : URL) (name : string)
  (st : list (string * list datum)) : list (string * list datum) :=
  match u with
  | FileURL _ => storage_create name st
  | S3URL _ | GoogleCloudStorageURL _ | HttpURL _ => st
  end.

Definition stream_write (u : URL) (name : string) (ds : list datum)
  (st : list (string * list datum)) : list (string * list datum) :=
  match u with
  | FileURL _ => storage_append name ds st
  | S3URL _ | GoogleCloudStorageURL _ | HttpURL _ => st
  end.

(** DataFileWriter.flush and close on the storage, for a writer whose
    stream is still open.  On a stream that is already closed, the state a
    roll that raised leaves behind, the library's flush and close raise
    ValueError; these two definitions leave that out, and the theorems about
    the storage ask for an open stream. *)
Definition dfw_flush (u : URL) (st : list (string * list datum))
  (d : DataFileWriter) : list (string * list datum) * DataFileWriter :=
  (stream_write u (dfw_path d) (dfw_buffer d) st,
   {| dfw_path := dfw_path d; dfw_buffer := []; dfw_closed := dfw_closed d |}).

Definition dfw_close (u : URL) (st : list (string * list datum))
  (d : DataFileWriter) : list (string * list datum) * DataFileWriter :=
  (stream_write u (dfw_path d) (dfw_buffer d) st,
   {| dfw_path := dfw_path d; dfw_buffer := []; dfw_closed := true |}).

(** An operation returns the exception it raised, if any, and the state it
    left behind. *)
Definition outcome : Type := option exn * PartitionedAvroWriter.

Definition _open_writer (w : PartitionedAvroWriter) : outcome :=
  let w1 :=
    match current_writer w with
    | Some d =>
        let (st, d') := dfw_close (url w) (storage w) d in
        {| url := url w; storage := st; current_url := current_url w;
           current_url_stream := current_url_stream w;
           current_writer := Some d' |}
    | None => w
    end in
  match next_filename (find_last_filename w1) with
  | Raise e => (Some e, w1)
  | Ok name =>
      (None,
       {| url := url w1; storage := stream_open (url w1) name (storage w1);
          current_url := Some (url w1, name);
          current_url_stream := Some name;
          current_writer :=
            Some {| dfw_path := name; dfw_buffer := []; dfw_closed := false |} |})
  end.

Definition open (w : PartitionedAvroWriter) : outcome :=
  match current_writer w with
  | None => _open_writer w
  | Some _ => (None, w)
  end.

Definition close (w : PartitionedAvroWriter) : outcome :=
  match current_writer w with
  | Some d =>
      let (st, _) := dfw_close (url w) (storage w) d in
      (None, {| url := url w; storage := st; current_url := None;
                current_url_stream := None; current_writer := None |})
  | None =>
      (None, {| url := url w; storage := storage w; current_url := None;
                current_url_stream := None; current_writer := None |})
  end.

Definition append (w : PartitionedAvroWriter) (x : datum) (flush : bool)
  : outcome :=
  match current_writer w with
  | None => (Some (ValueError "Writer is not initialized."), w)
  | Some d =>
      let d1 := {| dfw_path := dfw_path d; dfw_buffer := (dfw_buffer d ++ [x])%list;
                   dfw_closed := dfw_closed d |} in
      if flush then
        let (st, d2) := dfw_flush (url w) (storage w) d1 in
        (None, {| url := url w; storage := st; current_url := current_url w;
                  current_url_stream := current_url_stream w;
                  current_writer := Some d2 |})
      else
        (None, {| url := url w; storage := storage w;
                  current_url := current_url w;
                  current_url_stream := current_url_stream w;
                  current_writer := Some d1 |})
  end.

Definition flush (w : PartitionedAvroWriter) : outcome :=
  match current_writer w with
  | None => (Some (ValueError "Writer is not initialized."), w)
  | Some d =>
      let (st, d') := dfw_flush (url w) (storage w) d in
      (None, {| url := url w; storage := st; current_url := current_url w;
                current_url_stream := current_url_stream w;
                current_writer := Some d' |})
  end.

Definition roll (w : PartitionedAvroWriter) : outcome :=
  match current_writer w with
  | None => (Some (ValueError "Writer is not initialized."), w)
  | Some _ => _open_writer w
  end.

(** The Closed state of the writer's state machine. *)
Definition is_closed (w : PartitionedAvroWriter) : Prop :=
  current_writer w = None.

(** *** The Closed state rejects writes *)




End PartitionedWriter.


(** *** What reaches the storage *)

Section WriterRuns.

Variable datum : Type.

(** The records of a file of the storage, if the file exists. *)
Fixpoint storage_get (name : string) (st : list (string * list datum))
  : option (list datum) :=
  match st with
  | [] => None
  | (n, ds) :: st' => if String.eqb n name then Some ds else storage_get name st'
  end.

(** for x, flush in xs: writer.append(x, flush), up to the first call that
    raises. *)
Fixpoint append_each (w : PartitionedAvroWriter datum)
  (xs : list (datum * bool)) : outcome datum :=
  match xs with
  | [] => (None, w)
  | (x, fl) :: rest =>
      match append w x fl with
      | (None, w') => append_each w' rest
      | failed => failed
      end
  end.

Lemma storage_get_create (name n : string) (st : list (string * list datum)) :
  storage_get n (storage_create name st)
  = if String.eqb name n then Some [] else storage_get n st.
Proof.
  induction st as [| [m old] st IH]; cbn [storage_create storage_get].
  - destruct (String.eqb name n); reflexivity.
  - destruct (String.eqb_spec m name) as [-> | Nm]; cbn [storage_get].
    + destruct (String.eqb name n); reflexivity.
    + rewrite IH. destruct (String.eqb_spec m n) as [-> | Nn]; [| reflexivity].
      destruct (String.eqb_spec name n) as [E | _]; [| reflexivity].
      congruence.
Qed.

Lemma storage_get_append (name n : string) (ds : list datum)
  (st : list (string * list datum)) :
  storage_get n (storage_append name ds st)
  = if String.eqb name n then
      match storage_get name st with
      | Some old => Some (old ++ ds)%list
      | None => Some ds
      end
    else storage_get n st.
Proof.
  induction st as [| [m old] st IH]; cbn [storage_append storage_get].
  - destruct (String.eqb name n); reflexivity.
  - destruct (String.eqb_spec m name) as [-> | Nm]; cbn [storage_get].
    + destruct (String.eqb name n); reflexivity.
    + rewrite IH. destruct (String.eqb_spec m n) as [-> | Nn]; [| reflexivity].
      destruct (String.eqb_spec name n) as [E | _]; [| reflexivity].
      congruence.
Qed.

(** The records of the current file once its writer is closed: those in
    the storage and those still buffered. *)
Definition pending (w : PartitionedAvroWriter datum) : option (list datum) :=
  match current_writer w with
  | None => None
  | Some d =>
      match storage_get (dfw_path d) (storage w) with
      | Some old => Some (old ++ dfw_buffer d)%list
      | None => Some (dfw_buffer d)
      end
  end.

(** The writer's URL is a FileURL. *)
Definition on_files (w : PartitionedAvroWriter datum) : Prop :=
  exists path, url w = FileURL path.

Lemma append_pending (w : PartitionedAvroWriter datum) (d : DataFileWriter datum)
  (x : datum) (fl : bool) :
  on_files w ->
  current_writer w = Some d ->
  exists w' d',
    append w x fl = (None, w')
    /\ url w' = url w
    /\ current_writer w' = Some d'
    /\ dfw_path d' = dfw_path d
    /\ dfw_closed d' = dfw_closed d
    /\ current_url_stream w' = current_url_stream w
    /\ pending w' = option_map (fun ds => ds ++ [x])%list (pending w)
    /\ forall n, n <> dfw_path d ->
         storage_get n (storage w') = storage_get n (storage w).
Proof.
  intros [path Hu] Hd. unfold append, pending. rewrite Hd.
  destruct fl; cbn [dfw_flush dfw_path dfw_buffer dfw_closed].
  - rewrite Hu. cbn [stream_write].
    eexists _, _. split; [reflexivity |].
    cbn [url current_writer storage dfw_path dfw_buffer dfw_closed
         current_url_stream].
    split; [reflexivity |]. repeat split.
    + rewrite storage_get_append, String.eqb_refl.
      destruct (storage_get (dfw_path d) (storage w));
        cbn [option_map]; rewrite app_nil_r, ?app_assoc; reflexivity.
    + intros n Hn. rewrite storage_get_append.
      destruct (String.eqb_spec (dfw_path d) n); [congruence | reflexivity].
  - eexists _, _. split; [reflexivity |].
    cbn [url current_writer storage dfw_path dfw_buffer dfw_closed
         current_url_stream].
    repeat split.
    destruct (storage_get (dfw_path d) (storage w)); cbn [option_map];
      rewrite ?app_assoc; reflexivity.
Qed.

Lemma append_each_pending (xs : list (datum * bool)) :
  forall (w : PartitionedAvroWriter datum) (d : DataFileWriter datum),
  on_files w ->
  current_writer w = Some d ->
  exists w' d',
    append_each w xs = (None, w')
    /\ url w' = url w
    /\ current_writer w' = Some d'
    /\ dfw_path d' = dfw_path d
    /\ pending w' = option_map (fun ds => ds ++ map fst xs)%list (pending w)
    /\ forall n, n <> dfw_path d ->
         storage_get n (storage w') = storage_get n (storage w).
Proof.
  induction xs as [| [x fl] xs IH]; intros w d Hf Hd; cbn [append_each map fst].
  - exists w, d. repeat split; auto.
    unfold pending. rewrite Hd.
    destruct (storage_get (dfw_path d) (storage w)); cbn [option_map];
      rewrite app_nil_r; reflexivity.
  - destruct (@append_pending w d x fl Hf Hd)
      as (w1 & d1 & E & U1 & H1 & P1 & _ & _ & Q1 & O1).
    rewrite E.
    assert (Hf1 : on_files w1).
    { destruct Hf as [path Hu]. exists path. congruence. }
    destruct (IH w1 d1 Hf1 H1) as (w2 & d2 & E2 & U2 & H2 & P2 & Q2 & O2).
    exists w2, d2. rewrite E2, H2, P2, P1, U2, U1, Q2, Q1.
    repeat split.
    + destruct (pending w); cbn [option_map]; [| reflexivity].
      rewrite <- app_assoc. reflexivity.
    + intros n Hn. rewrite O2 by congruence. apply O1. exact Hn.
Qed.

Lemma close_pending (w : PartitionedAvroWriter datum) (d : DataFileWriter datum) :
  on_files w ->
  current_writer w = Some d ->
  exists w',
    close w = (None, w')
    /\ is_closed w'
    /\ storage_get (dfw_path d) (storage w') = pending w
    /\ forall n, n <> dfw_path d ->
         storage_get n (storage w') = storage_get n (storage w).
Proof.
  intros [path Hu] Hd. unfold close, pending. rewrite Hd. cbn [dfw_close].
  rewrite Hu. cbn [stream_write].
  eexists. split; [reflexivity |]. cbn [storage]. repeat split.
  - rewrite storage_get_append, String.eqb_refl. reflexivity.
  - intros n Hn. rewrite storage_get_append.
    destruct (String.eqb_spec (dfw_path d) n); [congruence | reflexivity].
Qed.

(** The writer's URL is of a class whose streams are scratch files. *)
Definition on_scratch (w : PartitionedAvroWriter datum) : Prop :=
  forall path, url w <> FileURL path.

Lemma append_scratch (w : PartitionedAvroWriter datum) (x : datum) (fl : bool) :
  on_scratch w ->
  current_writer w <> None ->
  exists w',
    append w x fl = (None, w')
    /\ url w' = url w
    /\ current_writer w' <> None
    /\ storage w' = storage w.
Proof.
  intros Hs Hd. unfold append.
  destruct (current_writer w) as [d |]; [| contradiction].
  destruct fl; cbn [dfw_flush]; eexists; (split; [reflexivity |]);
    cbn [url current_writer storage]; repeat split; try discriminate.
  destruct (url w) as [path | s | s | s] eqn:Hu; [| reflexivity ..].
  exfalso. exact (Hs path Hu).
Qed.

Lemma append_each_scratch (xs : list (datum * bool)) :
  forall w : PartitionedAvroWriter datum,
  on_scratch w ->
  current_writer w <> None ->
  exists w',
    append_each w xs = (None, w')
    /\ url w' = url w
    /\ current_writer w' <> None
    /\ storage w' = storage w.
Proof.
  induction xs as [| [x fl] xs IH]; intros w Hs Hd; cbn [append_each].
  - exists w. auto.
  - destruct (@append_scratch w x fl Hs Hd) as (w1 & E & U1 & H1 & S1).
    rewrite E.
    assert (Hs1 : on_scratch w1) by (intros path; rewrite U1; apply Hs).
    destruct (IH w1 Hs1 H1) as (w2 & E2 & U2 & H2 & S2).
    exists w2. rewrite E2, U2, U1, S2, S1. auto.
Qed.

Lemma scratch_run (w w1 : PartitionedAvroWriter datum) (name : string)
  (xs : list (datum * bool)) :
  (forall path, url w <> FileURL path) ->
  url w1 = url w ->
  storage w1 = stream_open (url w) name (storage w) ->
  current_writer w1 <> None ->
  current_url_stream w1 = Some name ->
  exists w1' w2 w3,
    (None (A:=exn), w1) = (None, w1')
    /\ current_url_stream w1' = Some name
    /\ append_each w1' xs = (None, w2)
    /\ close w2 = (None, w3)
    /\ is_closed w3
    /\ (forall path, url w = FileURL path -> has_wildcard path = false ->
          storage_get name (storage w3) = Some (map fst xs)
          /\ forall n, n <> name ->
               storage_get n (storage w3) = storage_get n (storage w))
    /\ ((exists u, url w = S3URL u \/ url w = HttpURL u) ->
        storage w3 = storage w).
Proof.
  intros Hs U1 S1 H1 N1.
  assert (Hs1 : on_scratch w1) by (intros p; rewrite U1; apply Hs).
  destruct (@append_each_scratch xs w1 Hs1 H1) as (w2 & E2 & U2 & H2 & S2).
  assert (Hw : stream_open (url w) name (storage w) = storage w).
  { destruct (url w) as [p | s | s | s] eqn:Hu; [| reflexivity ..].
    exfalso. exact (Hs p eq_refl). }
  exists w1, w2. unfold close.
  destruct (current_writer w2) as [d2 |]; [| contradiction].
  cbn [dfw_close].
  assert (Hc : stream_write (url w2) (dfw_path d2) (dfw_buffer d2) (storage w2)
               = storage w).
  { rewrite S2, S1, Hw, U2, U1.
    destruct (url w) as [p | s | s | s] eqn:Hu; [| reflexivity ..].
    exfalso. exact (Hs p eq_refl). }
  rewrite Hc.
  eexists. split; [reflexivity |]. split; [exact N1 |].
  split; [exact E2 |]. split; [reflexivity |]. split; [reflexivity |].
  split; [| intros _; reflexivity].
  intros p Hp. exfalso. exact (Hs p Hp).
Qed.

(** X1: Opened from the Closed state, written to and closed again, the
    writer is Closed again.  Under a FileURL that names a directory, with
    no wildcard in its path, it leaves in the storage one new or truncated
    file, named as next_filename says from the greatest name listed, that
    holds exactly the appended records in the order of the calls, flushed
    or not, and no other file of the storage changes.  Under an S3URL or an
    HttpURL it leaves the storage as it was: the records went to a scratch
    file or buffer, and the class never closes the URL it opened.  A
    GoogleCloudStorageURL is left out: its open() asks the client for the
    bucket of the URL, and the URL that with_path builds keeps the path
    alone. *)
Theorem appended_records_reach_storage (w : PartitionedAvroWriter datum)
  (name : string) (xs : list (datum * bool)) :
  is_closed w ->
  next_filename (find_last_filename w) = Ok name ->
  (forall u, url w <> GoogleCloudStorageURL u) ->
  exists w1 w2 w3,
    open w = (None, w1)
    /\ current_url_stream w1 = Some name
    /\ append_each w1 xs = (None, w2)
    /\ close w2 = (None, w3)
    /\ is_closed w3
    /\ (forall path, url w = FileURL path -> has_wildcard path = false ->
          storage_get name (storage w3) = Some (map fst xs)
          /\ forall n, n <> name ->
               storage_get n (storage w3) = storage_get n (storage w))
    /\ ((exists u, url w = S3URL u \/ url w = HttpURL u) ->
        storage w3 = storage w).
Proof.
  intros C N _. unfold is_closed in C.
  unfold open, _open_writer. rewrite C, N.
  set (w1 := {| url := url w;
                storage := stream_open (url w) name (storage w);
                current_url := Some (url w, name);
                current_url_stream := Some name;
                current_writer :=
                  Some {| dfw_path := name; dfw_buffer := [];
                          dfw_closed := false |} |}).
  assert (U1 : url w1 = url w) by reflexivity.
  assert (S1 : storage w1 = stream_open (url w) name (storage w))
    by reflexivity.
  assert (H1 : current_writer w1
               = Some {| dfw_path := name; dfw_buffer := [];
                         dfw_closed := false |}) by reflexivity.
  assert (N1 : current_url_stream w1 = Some name) by reflexivity.
  clearbody w1.
  assert (D : on_files w \/ on_scratch w).
  { unfold on_files, on_scratch.
    destruct (url w) as [path | s | s | s];
      [left; exists path; reflexivity | right; discriminate ..]. }
  destruct D as [[path Hu] | Hs].
  - assert (Hf : on_files w1) by (exists path; congruence).
    destruct (@append_each_pending xs w1 _ Hf H1)
      as (w2 & d2 & E2 & U2 & H2 & P2 & Q2 & O2).
    assert (Hf2 : on_files w2) by (exists path; congruence).
    destruct (@close_pending w2 d2 Hf2 H2) as (w3 & E3 & C3 & Q3 & O3).
    exists w1, w2, w3. cbn [dfw_path] in *.
    split; [reflexivity |]. split; [exact N1 |].
    split; [exact E2 |]. split; [exact E3 |]. split; [exact C3 |].
    rewrite P2 in Q3, O3. split.
    + intros path' _ _. split.
      * rewrite Q3, Q2. unfold pending. rewrite H1, S1, Hu.
        cbn [dfw_path dfw_buffer stream_open].
        rewrite storage_get_create, String.eqb_refl. reflexivity.
      * intros n Hn. rewrite (O3 n Hn), (O2 n Hn), S1, Hu.
        cbn [stream_open]. rewrite storage_get_create.
        destruct (String.eqb_spec name n); [congruence | reflexivity].
    + intros (u & [E | E]); congruence.
  - apply (@scratch_run w w1 name xs); auto. rewrite H1. discriminate.
Qed.

Lemma greatest_names_append (name : string) (ds : list datum)
  (st : list (string * list datum)) :
  storage_get name st <> None ->
  map fst (storage_append name ds st) = map fst st.
Proof.
  induction st as [| [m old] st IH]; cbn [storage_get storage_append map fst];
    [congruence |].
  destruct (String.eqb m name); [reflexivity |].
  intros H. cbn [map fst]. rewrite (IH H). reflexivity.
Qed.

(** X2: Under a FileURL that names a directory, with no wildcard in its
    path, and with a current writer whose stream is open, roll closes the
    current file, which keeps what was flushed and gains what was buffered,
    and opens the file next_filename names from the greatest name listed;
    when that is the current file itself, because its name is not the
    greatest, roll truncates it and the records written to it are gone. *)
Theorem roll_closes_then_opens (w : PartitionedAvroWriter datum)
  (path : string) (d : DataFileWriter datum) (old : list datum)
  (name : string) :
  url w = FileURL path ->
  has_wildcard path = false ->
  current_writer w = Some d ->
  dfw_closed d = false ->
  storage_get (dfw_path d) (storage w) = Some old ->
  next_filename (find_last_filename w) = Ok name ->
  exists w',
    roll w = (None, w')
    /\ current_url_stream w' = Some name
    /\ pending w' = Some []
    /\ storage_get (dfw_path d) (storage w')
       = (if String.eqb name (dfw_path d) then Some []
          else Some (old ++ dfw_buffer d)%list)
    /\ forall n, n <> name -> n <> dfw_path d ->
         storage_get n (storage w') = storage_get n (storage w).
Proof.
  intros Hu _ Hd _ Ho N. unfold roll, _open_writer. rewrite Hd.
  cbn [dfw_close]. rewrite Hu. cbn [stream_write].
  unfold find_last_filename in *. cbn [storage url].
  rewrite greatest_names_append by congruence. rewrite N.
  cbn [stream_open].
  eexists. split; [reflexivity |].
  cbn [current_url_stream storage url]. unfold pending.
  cbn [current_writer storage dfw_path dfw_buffer].
  rewrite !storage_get_create, String.eqb_refl.
  split; [reflexivity |]. split; [reflexivity |]. split.
  - destruct (String.eqb name (dfw_path d)); [reflexivity |].
    rewrite storage_get_append, String.eqb_refl, Ho. reflexivity.
  - intros n H1 H2. rewrite storage_get_create.
    destruct (String.eqb_spec name n); [congruence |].
    rewrite storage_get_append.
    destruct (String.eqb_spec (dfw_path d) n); [congruence | reflexivity].
Qed.

End WriterRuns.

(** A writer on a fresh directory. *)
Definition fresh_out : PartitionedAvroWriter nat := init (FileURL "out") [].

(** A fresh directory: the first file is part-00000.avro and holds the three
    records appended, the second flushed at once. *)
Lemma appended_records_reach_storage_witness :
  exists w1 w2 w3,
    open fresh_out = (None, w1)
    /\ current_url_stream w1 = Some "part-00000.avro"
    /\ append_each w1 [(1, false); (2, true); (3, false)] = (None, w2)
    /\ close w2 = (None, w3)
    /\ is_closed w3
    /\ (forall path, url fresh_out = FileURL path ->
          has_wildcard path = false ->
          storage_get "part-00000.avro" (storage w3)
          = Some (map fst [(1, false); (2, true); (3, false)])
          /\ forall n, n <> "part-00000.avro" ->
               storage_get n (storage w3) = storage_get n (storage fresh_out))
    /\ ((exists u, url fresh_out = S3URL u \/ url fresh_out = HttpURL u) ->
        storage w3 = storage fresh_out).
Proof.
  apply (@appended_records_reach_storage nat fresh_out
           "part-00000.avro" [(1, false); (2, true); (3, false)]).
  - reflexivity.
  - reflexivity.
  - intros u. discriminate.
Defined.

(** The same calls under a FileURL and under an S3URL that lists one
    object, evaluated: the new file with its three records, and no new
    object. *)
Example appended_records_by_class :
  storage
    (snd (close
            (snd (append_each (snd (open fresh_out))
                    [(1, false); (2, true); (3, false)]))))
  = [("part-00000.avro", [1; 2; 3])]
  /\ current_url_stream
       (snd (open (init (S3URL "s3://bucket/out") [("part-00000.avro", [7])])))
     = Some "part-00001.avro"
  /\ storage
       (snd (close
               (snd (append_each
                       (snd (open (init (S3URL "s3://bucket/out")
                                     [("part-00000.avro", [7])])))
                       [(1, false); (2, true); (3, false)]))))
     = [("part-00000.avro", [7])].
Proof. repeat split; reflexivity. Qed.

(** A writer on part-100000.avro in a directory that also holds
    part-99999.avro, the greater name of the two as strings. *)
Definition past_five_digits : PartitionedAvroWriter nat :=
  {| url := FileURL "out";
     storage := [("part-99999.avro", [1]); ("part-100000.avro", [2])];
     current_url := Some (FileURL "out", "part-100000.avro");
     current_url_stream := Some "part-100000.avro";
     current_writer :=
       Some {| dfw_path := "part-100000.avro"; dfw_buffer := [3];
               dfw_closed := false |} |}.

Lemma roll_closes_then_opens_witness :
  exists w',
    roll past_five_digits = (None, w')
    /\ current_url_stream w' = Some "part-100000.avro"
    /\ pending w' = Some []
    /\ storage_get "part-100000.avro" (storage w')
       = (if String.eqb "part-100000.avro" "part-100000.avro" then Some []
          else Some ([2] ++ [3])%list)
    /\ forall n, n <> "part-100000.avro" -> n <> "part-100000.avro" ->
         storage_get n (storage w') = storage_get n (storage past_five_digits).
Proof.
  apply (@roll_closes_then_opens nat past_five_digits "out"
           {| dfw_path := "part-100000.avro"; dfw_buffer := [3];
              dfw_closed := false |} [2] "part-100000.avro").
  - reflexivity.
  - reflexivity.
  - reflexivity.
  - reflexivity.
  - reflexivity.
  - reflexivity.
Defined.

End Writer.

(** ** io/schema.py: flattening and forward-compatibility validation *)

Module SchemaEvolution.

Open Scope string_scope.

(** avro.schema.Field: the name, the type and the "default" property when
    the field has one (its JSON text). *)
Record FieldOf (S : Type) : Type := mkField {
  fname : string;
  ftype : S;
  fdefault : option string
}.

#[local] Set Warnings "-register-all".

(** avro.schema.Schema and the subclasses the validator tells apart.  A
    value of this type is a finite tree.  A schema in which a record is
    referred to by name from inside its own fields (Node with a field next
    of type ["null", "Node"]) is held by the library as an object that
    contains itself, and is no value of this type: on such a schema
    flatten_avro_schema_fields, which keeps no set of the records it has
    entered, calls itself until the interpreter's recursion limit stops it
    with RecursionError, and the validator with it.  What is proved below
    is about the schemas without such a reference. *)
Inductive Schema : Type :=
| PrimitiveSchema (type : string)
| FixedSchema (name : string) (size : N)
| EnumSchema (name : string) (symbols : list string)
| ArraySchema (items : Schema)
| MapSchema (values : Schema)
| UnionSchema (schemas : list Schema)
| RecordSchema (name : string) (fields : list (FieldOf Schema)).

Definition Field : Type := FieldOf Schema.

Definition option_eqb {A : Type} (eqb : A -> A -> bool) (x y : option A)
  : bool :=
  match x, y with
  | None, None => true
  | Some a, Some b => eqb a b
  | _, _ => false
  end.

Fixpoint list_eqb {A : Type} (eqb : A -> A -> bool) (xs ys : list A) : bool :=
  match xs, ys with
  | [], [] => true
  | x :: xs', y :: ys' => eqb x y && list_eqb eqb xs' ys'
  | _, _ => false
  end.

(** Schema.__eq__: equality of the schemas' JSON forms. *)
Fixpoint schema_eqb (a b : Schema) {struct a} : bool :=
  match a, b with
  | PrimitiveSchema t, PrimitiveSchema t' => String.eqb t t'
  | FixedSchema n s, FixedSchema n' s' => String.eqb n n' && N.eqb s s'
  | EnumSchema n ss, EnumSchema n' ss' =>
      String.eqb n n' && list_eqb String.eqb ss ss'
  | ArraySchema i, ArraySchema i' => schema_eqb i i'
  | MapSchema v, MapSchema v' => schema_eqb v v'
  | UnionSchema xs, UnionSchema ys =>
      (fix go (xs ys : list Schema) : bool :=
         match xs, ys with
         | [], [] => true
         | x :: xs', y :: ys' => schema_eqb x y && go xs' ys'
         | _, _ => false
         end) xs ys
  | RecordSchema n fs, RecordSchema n' fs' =>
      String.eqb n n'
      && (fix go (fs fs' : list Field) : bool :=
            match fs, fs' with
            | [], [] => true
            | f :: r, f' :: r' =>
                match f, f' with
                | mkField fn ft fd, mkField fn' ft' fd' =>
                    String.eqb fn fn' && schema_eqb ft ft'
                    && option_eqb String.eqb fd fd' && go r r'
                end
            | _, _ => false
            end) fs fs'
  | _, _ => false
  end.

(** A Python dict with string keys, in insertion order. *)
Definition dict (V : Type) : Type := list (string * V).

Fixpoint dict_get {V : Type} (k : string) (d : dict V) : option V :=
  match d with
  | [] => None
  | (k', v) :: d' => if String.eqb k' k then Some v else dict_get k d'
  end.

Definition dict_mem {V : Type} (k : string) (d : dict V) : bool :=
  match dict_get k d with
  | Some _ => true
  | None => false
  end.

(** d[k] = v: an existing key keeps its place. *)
Fixpoint dict_set {V : Type} (k : string) (v : V) (d : dict V) : dict V :=
  match d with
  | [] => [(k, v)]
  | (k', v') :: d' =>
      if String.eqb k' k then (k', v) :: d' else (k', v') :: dict_set k v d'
  end.

(** d.update(other). *)
Definition dict_update {V : Type} (d other : dict V) : dict V :=
  fold_left (fun acc kv => dict_set (fst kv) (snd kv) acc) other d.

(** ".".join(name). *)
Fixpoint join_dot (name : list string) : string :=
  match name with
  | [] => ""
  | [x] => x
  | x :: rest => x ++ "." ++ join_dot rest
  end.

(** flatten_avro_schema_fields(schema, path); an absent path is the empty
    list. *)
Fixpoint flatten_avro_schema_fields (schema : Schema) (path : list string)
  {struct schema} : dict Field :=
  match schema with
  | RecordSchema _ fields =>
      (fix each_field (fs : list Field) (acc : dict Field) : dict Field :=
         match fs with
         | [] => acc
         | field :: fs' =>
             match field with
             | mkField field_name field_type _ =>
                 let name := (path ++ [field_name])%list in
                 let acc' :=
                   match field_type with
                   | RecordSchema _ _ =>
                       dict_update acc
                         (flatten_avro_schema_fields field_type name)
                   | UnionSchema schemas =>
                       (fix each_branch (i : nat) (ss : list Schema)
                          (acc : dict Field) : dict Field :=
                          match ss with
                          | [] => acc
                          | union_schema :: ss' =>
                              let acc1 :=
                                match union_schema with
                                | RecordSchema _ _ =>
                                    let union_name :=
                                      (name ++ ["__union__";
                                                Decimal10.str (N.of_nat i)])%list in
                                    dict_update acc
                                      (flatten_avro_schema_fields union_schema
                                         union_name)
                                | _ => acc
                                end in
                              each_branch (S i) ss' acc1
                          end) O schemas (dict_set (join_dot name) field acc)
                   | _ => dict_set (join_dot name) field acc
                   end in
                 each_field fs' acc'
             end
         end) fields []
  | _ => []
  end.

Definition has_default (f : Field) : bool :=
  match fdefault f with
  | Some _ => true
  | None => false
  end.

(** isinstance(s, RecordSchema) and s.name == "null". *)
Definition is_record_named_null (s : Schema) : bool :=
  match s with
  | RecordSchema n _ => String.eqb n "null"
  | _ => false
  end.

(** set(old).issubset(set(new)). *)
Definition issubset {A : Type} (eqb : A -> A -> bool) (old new : list A)
  : bool :=
  forallb (fun x => existsb (eqb x) new) old.

(** The body of the first loop, for one [(name, field)] of schema_b.  The
    messages keep the field's path; the rendered old and new values are
    left out. *)
Definition check_new_field (schema_a_fields : dict Field) (name : string)
  (field : Field) : result unit :=
  match dict_get name schema_a_fields with
  | None =>
      if has_default field then Ok tt
      else Raise (ValueError ("Field " ++ name ++ " is missing a default value."))
  | Some old_field =>
      if negb (has_default field) && has_default old_field then
        Raise (ValueError ("Field " ++ name ++ " default value cannot be removed."))
      else if negb (schema_eqb (ftype field) (ftype old_field)) then
        match ftype field, ftype old_field with
        | EnumSchema _ new_enum, EnumSchema _ old_enum =>
            if issubset String.eqb old_enum new_enum then Ok tt
            else Raise (ValueError ("Field " ++ name ++ " enum has changed."))
        | UnionSchema new_union, UnionSchema old_union =>
            if issubset schema_eqb old_union new_union then Ok tt
            else Raise (ValueError ("Field " ++ name ++ " union has changed."))
        | UnionSchema schemas, _ =>
            if negb (Nat.eqb (List.length schemas) 2)
               || negb (existsb is_record_named_null schemas)
            then Raise (ValueError ("Field " ++ name ++ " type has changed."))
            else Ok tt
        | _, _ => Raise (ValueError ("Field " ++ name ++ " type has changed."))
        end
      else Ok tt
  end.

Fixpoint check_new_fields (schema_a_fields : dict Field)
  (items : dict Field) : result unit :=
  match items with
  | [] => Ok tt
  | (name, field) :: rest =>
      _ <- check_new_field schema_a_fields name field ;;
      check_new_fields schema_a_fields rest
  end.

Fixpoint check_removed_fields (schema_b_fields : dict Field)
  (items : dict Field) : result unit :=
  match items with
  | [] => Ok tt
  | (name, field) :: rest =>
      if negb (dict_mem name schema_b_fields) && negb (has_default field) then
        Raise (ValueError ("Field " ++ name ++ " is missing a default value."))
      else check_removed_fields schema_b_fields rest
  end.

Definition validate_avro_schema_evolution (schema_a schema_b : Schema)
  : result unit :=
  let schema_a_fields := flatten_avro_schema_fields schema_a [] in
  let schema_b_fields := flatten_avro_schema_fields schema_b [] in
  _ <- check_new_fields schema_a_fields schema_b_fields ;;
  check_removed_fields schema_b_fields schema_a_fields.

Definition is_union (s : Schema) : bool :=
  match s with
  | UnionSchema _ => true
  | _ => false
  end.

(** A record schema with the one field [name] of type [t]. *)
Definition one_field (name : string) (t : Schema) (d : option string)
  : Schema :=
  RecordSchema "Record" [mkField name t d].

(** *** A type change to a union *)

Definition is_record (s : Schema) : bool :=
  match s with
  | RecordSchema _ _ => true
  | _ => false
  end.

Lemma schema_eqb_union_other (schemas : list Schema) (t : Schema) :
  is_union t = false -> schema_eqb (UnionSchema schemas) t = false.
Proof. destruct t; simpl; intros H; [reflexivity .. | discriminate H | reflexivity]. Qed.

(** What the last branch of the first loop decides when a field's type
    changes from a non-union type to a union. *)
Lemma check_new_field_to_union (fields : dict Field) (name : string)
  (field old_field : Field) (schemas : list Schema) :
  dict_get name fields = Some old_field ->
  is_union (ftype old_field) = false ->
  ftype field = UnionSchema schemas ->
  negb (has_default field) && has_default old_field = false ->
  check_new_field fields name field
  = if Nat.eqb (List.length schemas) 2 && existsb is_record_named_null schemas
    then Ok tt
    else Raise (ValueError ("Field " ++ name ++ " type has changed.")).
Proof.
  intros Hget Hold Hnew Hdef. unfold check_new_field.
  rewrite Hget, Hdef, Hnew, (schema_eqb_union_other _ _ Hold).
  cbn [negb].
  destruct (ftype old_field); try discriminate Hold;
    destruct (Nat.eqb (List.length schemas) 2);
    destruct (existsb is_record_named_null schemas); reflexivity.
Qed.

Lemma flatten_one_field_plain (name : string) (t : Schema) (d : option string) :
  is_union t = false -> is_record t = false ->
  flatten_avro_schema_fields (one_field name t d) []
  = [(name, mkField name t d)].
Proof.
  destruct t; simpl; intros U R; try reflexivity; discriminate.
Qed.

Lemma flatten_one_field_optional (name : string) (t : Schema)
  (d : option string) :
  is_record t = false ->
  flatten_avro_schema_fields
    (one_field name (UnionSchema [PrimitiveSchema "null"; t]) d) []
  = [(name, mkField name (UnionSchema [PrimitiveSchema "null"; t]) d)].
Proof.
  destruct t; simpl; intros R; try reflexivity; discriminate.
Qed.

(** Making a field of a plain type T optional, T -> ["null", T], never
    passes: the null branch is a PrimitiveSchema, so no branch is a
    RecordSchema named "null". *)
Lemma optional_never_accepted (name : string) (t : Schema)
  (d d' : option string) :
  is_union t = false -> is_record t = false ->
  exists msg,
    validate_avro_schema_evolution
      (one_field name t d)
      (one_field name (UnionSchema [PrimitiveSchema "null"; t]) d')
    = Raise (ValueError msg).
Proof.
  intros U R. unfold validate_avro_schema_evolution.
  rewrite (flatten_one_field_plain name t d U R).
  rewrite (flatten_one_field_optional name t d' R).
  cbn [check_new_fields]. unfold check_new_field.
  cbn [dict_get]. rewrite String.eqb_refl.
  destruct (negb (has_default (mkField name (UnionSchema [PrimitiveSchema "null"; t]) d'))
            && has_default (mkField name t d)).
  - eexists. reflexivity.
  - cbn [ftype]. rewrite (schema_eqb_union_other _ _ U). cbn [negb].
    assert (N : existsb is_record_named_null [PrimitiveSchema "null"; t] = false).
    { destruct t; simpl; try reflexivity; discriminate R. }
    destruct t; try discriminate U; cbn [List.length Nat.eqb negb orb];
      rewrite N; cbn [negb bind]; eexists; reflexivity.
Qed.

(** C2 on the code: {id: int} -> {id: ["null", "int"]} raises, with or
    without a null default; so does every plain type made optional; the
    one two-branch union that passes holds a record named "null". *)
Theorem optional_field_rejected :
  validate_avro_schema_evolution
    (one_field "id" (PrimitiveSchema "int") None)
    (one_field "id"
       (UnionSchema [PrimitiveSchema "null"; PrimitiveSchema "int"]) None)
  = Raise (ValueError "Field id type has changed.")
  /\ validate_avro_schema_evolution
       (one_field "id" (PrimitiveSchema "int") None)
       (one_field "id"
          (UnionSchema [PrimitiveSchema "null"; PrimitiveSchema "int"])
          (Some "null"))
     = Raise (ValueError "Field id type has changed.")
  /\ validate_avro_schema_evolution
       (one_field "id" (PrimitiveSchema "int") None)
       (one_field "id"
          (UnionSchema [RecordSchema "null" []; PrimitiveSchema "int"]) None)
     = Ok tt
  /\ (forall name t d d',
        is_union t = false -> is_record t = false ->
        exists msg,
          validate_avro_schema_evolution
            (one_field name t d)
            (one_field name (UnionSchema [PrimitiveSchema "null"; t]) d')
          = Raise (ValueError msg)).
Proof.
  split; [reflexivity |].
  split; [reflexivity |].
  split; [reflexivity |].
  exact optional_never_accepted.
Qed.

(** *** The loops of flatten_avro_schema_fields, by name *)

(** The loop over the branches of a union field. *)
Definition flatten_union_branches (name : list string)
  : nat -> list Schema -> dict Field -> dict Field :=
  fix each_branch (i : nat) (ss : list Schema) (acc : dict Field)
    : dict Field :=
    match ss with
    | [] => acc
    | union_schema :: ss' =>
        let acc1 :=
          match union_schema with
          | RecordSchema _ _ =>
              let union_name :=
                (name ++ ["__union__"; Decimal10.str (N.of_nat i)])%list in
              dict_update acc
                (flatten_avro_schema_fields union_schema union_name)
          | _ => acc
          end in
        each_branch (S i) ss' acc1
    end.

(** The body of the loop over the fields of a record. *)
Definition flatten_field (path : list string) (acc : dict Field)
  (field : Field) : dict Field :=
  let name := (path ++ [fname field])%list in
  match ftype field with
  | RecordSchema _ _ =>
      dict_update acc (flatten_avro_schema_fields (ftype field) name)
  | UnionSchema schemas =>
      flatten_union_branches name O schemas (dict_set (join_dot name) field acc)
  | _ => dict_set (join_dot name) field acc
  end.

Lemma flatten_record (n : string) (fields : list Field) (path : list string) :
  flatten_avro_schema_fields (RecordSchema n fields) path
  = fold_left (flatten_field path) fields [].
Proof.
  cbn [flatten_avro_schema_fields].
  generalize (@nil (string * Field)).
  induction fields as [| [field_name field_type d] fields IH]; intros acc;
    [reflexivity |].
  cbn [fold_left]. rewrite <- IH.
  destruct field_type; reflexivity.
Qed.

(** *** Dicts built by assignment hold every key once *)

Definition keys {V : Type} (d : dict V) : list string := map fst d.

Lemma dict_get_set {V : Type} (k k' : string) (v : V) (d : dict V) :
  dict_get k' (dict_set k v d)
  = if String.eqb k k' then Some v else dict_get k' d.
Proof.
  induction d as [| [m w] d IH]; cbn [dict_set dict_get].
  - destruct (String.eqb k k'); reflexivity.
  - destruct (String.eqb_spec m k) as [-> | Nm]; cbn [dict_get].
    + destruct (String.eqb k k'); reflexivity.
    + rewrite IH. destruct (String.eqb_spec m k') as [-> | Nk]; [| reflexivity].
      destruct (String.eqb_spec k k'); [congruence | reflexivity].
Qed.

Lemma dict_set_fresh {V : Type} (k : string) (v : V) (d : dict V) :
  dict_get k d = None -> dict_set k v d = (d ++ [(k, v)])%list.
Proof.
  induction d as [| [m w] d IH]; cbn [dict_set dict_get app]; [reflexivity |].
  destruct (String.eqb m k); [discriminate |].
  intros H. rewrite (IH H). reflexivity.
Qed.

Lemma dict_set_keys {V : Type} (k : string) (v : V) (d : dict V) :
  keys (dict_set k v d)
  = if dict_mem k d then keys d else (keys d ++ [k])%list.
Proof.
  unfold dict_mem, keys.
  induction d as [| [m w] d IH]; cbn [dict_set dict_get map fst app];
    [reflexivity |].
  destruct (String.eqb m k); [reflexivity |].
  cbn [map fst]. rewrite IH.
  destruct (dict_get k d); reflexivity.
Qed.

Lemma dict_get_keys {V : Type} (k : string) (d : dict V) :
  dict_get k d = None -> ~ In k (keys d).
Proof.
  unfold keys. induction d as [| [m w] d IH]; cbn [dict_get map fst In];
    [tauto |].
  destruct (String.eqb_spec m k) as [-> | N]; [discriminate |].
  intros H [E | I]; [congruence | exact (IH H I)].
Qed.

(** Every key is held once. *)
Definition assigned {V : Type} (d : dict V) : Prop := NoDup (keys d).

Lemma assigned_set {V : Type} (k : string) (v : V) (d : dict V) :
  assigned d -> assigned (dict_set k v d).
Proof.
  unfold assigned. intros H. rewrite dict_set_keys. unfold dict_mem.
  destruct (dict_get k d) eqn:E; [exact H |].
  apply NoDup_app; [exact H | repeat constructor; intros [] |].
  intros x Hx [<- | []]. exact (dict_get_keys _ _ E Hx).
Qed.

Lemma assigned_update {V : Type} (other d : dict V) :
  assigned d -> assigned (dict_update d other).
Proof.
  unfold dict_update. revert d.
  induction other as [| [k v] other IH]; intros d H; cbn [fold_left];
    [exact H |].
  apply IH. apply assigned_set. exact H.
Qed.

Lemma assigned_get {V : Type} (d : dict V) (k : string) (v : V) :
  assigned d -> In (k, v) d -> dict_get k d = Some v.
Proof.
  unfold assigned, keys.
  induction d as [| [m w] d IH]; cbn [map fst In dict_get]; [tauto |].
  intros N [E | I].
  - injection E as -> ->. rewrite String.eqb_refl. reflexivity.
  - inversion N as [| ? ? Nm N']; subst.
    destruct (String.eqb_spec m k) as [-> | _]; [| exact (IH N' I)].
    exfalso. apply Nm. apply (in_map fst) in I. exact I.
Qed.

Lemma assigned_branches (name : list string) (ss : list Schema) :
  forall i acc, assigned acc -> assigned (flatten_union_branches name i ss acc).
Proof.
  induction ss as [| s ss IH]; intros i acc H; cbn [flatten_union_branches];
    [exact H |].
  apply IH. destruct s; try exact H. apply assigned_update. exact H.
Qed.

Lemma assigned_field (path : list string) (acc : dict Field) (field : Field) :
  assigned acc -> assigned (flatten_field path acc field).
Proof.
  intros H. unfold flatten_field.
  destruct (ftype field); try (apply assigned_set; exact H).
  - apply assigned_branches. apply assigned_set. exact H.
  - apply assigned_update. exact H.
Qed.

Lemma flatten_assigned (schema : Schema) (path : list string) :
  assigned (flatten_avro_schema_fields schema path).
Proof.
  destruct schema as [t | n sz | n ss | i | v | xs | n fields];
    try (cbn [flatten_avro_schema_fields]; constructor).
  rewrite flatten_record.
  assert (G : forall acc, assigned acc ->
                assigned (fold_left (flatten_field path) fields acc)).
  { induction fields as [| f fields IH]; intros acc H; cbn [fold_left];
      [exact H |].
    apply IH. apply assigned_field. exact H. }
  apply G. constructor.
Qed.

(** *** A schema against itself *)

Lemma list_eqb_refl (ss : list string) : list_eqb String.eqb ss ss = true.
Proof.
  induction ss as [| s ss IH]; cbn [list_eqb]; [reflexivity |].
  rewrite String.eqb_refl. exact IH.
Qed.

Lemma schema_eqb_refl : forall s : Schema, schema_eqb s s = true.
Proof.
  fix IH 1. intros [t | n sz | n ss | i | v | xs | n fields];
    cbn [schema_eqb].
  - apply String.eqb_refl.
  - rewrite String.eqb_refl, N.eqb_refl. reflexivity.
  - rewrite String.eqb_refl, list_eqb_refl. reflexivity.
  - apply IH.
  - apply IH.
  - induction xs as [| x xs IHxs]; [reflexivity |].
    rewrite (IH x). exact IHxs.
  - rewrite String.eqb_refl. cbn [andb].
    induction fields as [| [fn ft fd] fields IHf]; [reflexivity |].
    rewrite String.eqb_refl, (IH ft). cbn [andb].
    destruct fd as [d |]; cbn [option_eqb]; [rewrite String.eqb_refl |];
      exact IHf.
Qed.

Lemma check_same_field (fields : dict Field) (name : string) (field : Field) :
  dict_get name fields = Some field ->
  check_new_field fields name field = Ok tt.
Proof.
  intros H. unfold check_new_field. rewrite H, schema_eqb_refl.
  destruct (has_default field); reflexivity.
Qed.

Lemma check_new_fields_same (fields items : dict Field) :
  (forall name field, In (name, field) items ->
     dict_get name fields = Some field) ->
  check_new_fields fields items = Ok tt.
Proof.
  induction items as [| [name field] items IH]; intros H;
    cbn [check_new_fields]; [reflexivity |].
  rewrite (@check_same_field _ _ _ (H name field (or_introl eq_refl))).
  cbn [bind]. apply IH. intros n f I. apply H. right. exact I.
Qed.

Lemma check_removed_fields_present (fields items : dict Field) :
  (forall name field, In (name, field) items ->
     dict_mem name fields = true \/ has_default field = true) ->
  check_removed_fields fields items = Ok tt.
Proof.
  induction items as [| [name field] items IH]; intros H;
    cbn [check_removed_fields]; [reflexivity |].
  destruct (H name field (or_introl eq_refl)) as [-> | ->];
    cbn [negb andb]; rewrite ?andb_false_r;
    apply IH; intros n f I; apply H; right; exact I.
Qed.

Lemma assigned_mem {V : Type} (d : dict V) (k : string) (v : V) :
  assigned d -> In (k, v) d -> dict_mem k d = true.
Proof.
  intros A I. unfold dict_mem. rewrite (@assigned_get _ _ _ _ A I). reflexivity.
Qed.

(** X3: Every schema in which no record is referred to from inside its own
    fields is a valid evolution of itself: the validator raises nothing
    when the two schemas are the same such schema, whatever records, unions
    and enums it nests to a finite depth.  A schema with a record that
    refers to itself is outside the Schema type, and on it the validator
    ends in RecursionError. *)
Theorem evolution_accepts_same_schema (schema : Schema) :
  validate_avro_schema_evolution schema schema = Ok tt.
Proof.
  unfold validate_avro_schema_evolution.
  pose proof (flatten_assigned schema []) as A.
  rewrite check_new_fields_same by (intros n f I; exact (@assigned_get _ _ _ _ A I)).
  cbn [bind]. apply check_removed_fields_present.
  intros n f I. left. exact (@assigned_mem _ _ _ _ A I).
Qed.

(** *** One field more, one field less *)

(** A type that is flattened to one entry with no nested one. *)
Definition is_plain (t : Schema) : bool := negb (is_union t) && negb (is_record t).

Lemma flatten_field_plain (acc : dict Field) (field : Field) :
  is_plain (ftype field) = true ->
  flatten_field [] acc field = dict_set (fname field) field acc.
Proof.
  unfold flatten_field, is_plain. cbn [app join_dot].
  destruct (ftype field); cbn; intros H; try reflexivity; discriminate H.
Qed.

Lemma flatten_one_more (n : string) (fields : list Field) (field : Field) :
  is_plain (ftype field) = true ->
  dict_mem (fname field)
    (flatten_avro_schema_fields (RecordSchema n fields) []) = false ->
  flatten_avro_schema_fields (RecordSchema n (fields ++ [field])%list) []
  = (flatten_avro_schema_fields (RecordSchema n fields) []
     ++ [(fname field, field)])%list.
Proof.
  intros P M. rewrite !flatten_record, fold_left_app. cbn [fold_left].
  rewrite (@flatten_field_plain _ _ P). apply dict_set_fresh.
  rewrite flatten_record in M. unfold dict_mem in M.
  destruct (dict_get (fname field) (fold_left (flatten_field []) fields []));
    [discriminate M | reflexivity].
Qed.

Lemma dict_get_app {V : Type} (k : string) (d e : dict V) :
  dict_get k (d ++ e)%list
  = match dict_get k d with
    | Some v => Some v
    | None => dict_get k e
    end.
Proof.
  induction d as [| [m w] d IH]; cbn [app dict_get]; [reflexivity |].
  destruct (String.eqb m k); [reflexivity | exact IH].
Qed.

Lemma check_new_fields_app (fields a b : dict Field) :
  check_new_fields fields (a ++ b)%list
  = (_ <- check_new_fields fields a ;; check_new_fields fields b).
Proof.
  induction a as [| [name field] a IH]; cbn [app check_new_fields bind];
    [reflexivity |].
  destruct (check_new_field fields name field); cbn [bind];
    [exact IH | reflexivity].
Qed.

Lemma check_removed_fields_app (fields a b : dict Field) :
  check_removed_fields fields (a ++ b)%list
  = (_ <- check_removed_fields fields a ;; check_removed_fields fields b).
Proof.
  induction a as [| [name field] a IH]; cbn [app check_removed_fields bind];
    [reflexivity |].
  destruct (negb (dict_mem name fields) && negb (has_default field));
    [reflexivity | exact IH].
Qed.

(** X4: Adding to a record a field of a plain type under a name that no
    flattened field has, and removing it again: the validator accepts the
    addition exactly when the new field has a default, and accepts the
    removal exactly when the removed field has one; otherwise it raises
    ValueError naming the field. *)
Theorem evolution_by_one_field (n : string) (fields : list Field)
  (field : Field) :
  is_plain (ftype field) = true ->
  dict_mem (fname field)
    (flatten_avro_schema_fields (RecordSchema n fields) []) = false ->
  validate_avro_schema_evolution
    (RecordSchema n fields) (RecordSchema n (fields ++ [field])%list)
  = (if has_default field then Ok tt
     else Raise (ValueError
                   ("Field " ++ fname field ++ " is missing a default value.")))
  /\ validate_avro_schema_evolution
       (RecordSchema n (fields ++ [field])%list) (RecordSchema n fields)
     = (if has_default field then Ok tt
        else Raise (ValueError
                      ("Field " ++ fname field
                       ++ " is missing a default value."))).
Proof.
  intros P M. unfold validate_avro_schema_evolution.
  rewrite (@flatten_one_more n fields field P M).
  pose proof (flatten_assigned (RecordSchema n fields) []) as A.
  set (old := flatten_avro_schema_fields (RecordSchema n fields) []) in *.
  assert (G : dict_get (fname field) old = None).
  { unfold dict_mem in M. destruct (dict_get (fname field) old);
      [discriminate M | reflexivity]. }
  split.
  - rewrite check_new_fields_app.
    rewrite check_new_fields_same
      by (intros k f I; exact (@assigned_get _ _ _ _ A I)).
    cbn [bind check_new_fields]. unfold check_new_field. rewrite G.
    destruct (has_default field); cbn [bind]; [| reflexivity].
    apply check_removed_fields_present. intros k f I. left.
    unfold dict_mem. rewrite dict_get_app, (@assigned_get _ _ _ _ A I).
    reflexivity.
  - rewrite check_new_fields_same.
    + cbn [bind]. rewrite check_removed_fields_app.
      rewrite check_removed_fields_present
        by (intros k f I; left; exact (@assigned_mem _ _ _ _ A I)).
      cbn [bind check_removed_fields]. unfold dict_mem. rewrite G.
      cbn [negb andb]. destruct (has_default field); reflexivity.
    + intros k f I. rewrite dict_get_app, (@assigned_get _ _ _ _ A I).
      reflexivity.
Qed.

Lemma evolution_by_one_field_witness :
  validate_avro_schema_evolution
    (RecordSchema "User" [mkField "id" (PrimitiveSchema "int") None])
    (RecordSchema "User"
       ([mkField "id" (PrimitiveSchema "int") None]
        ++ [mkField "email" (PrimitiveSchema "string") None])%list)
  = (if has_default (mkField "email" (PrimitiveSchema "string") None)
     then Ok tt
     else Raise (ValueError
                   ("Field "
                    ++ fname (mkField "email" (PrimitiveSchema "string") None)
                    ++ " is missing a default value.")))
  /\ validate_avro_schema_evolution
       (RecordSchema "User"
          ([mkField "id" (PrimitiveSchema "int") None]
           ++ [mkField "email" (PrimitiveSchema "string") None])%list)
       (RecordSchema "User" [mkField "id" (PrimitiveSchema "int") None])
     = (if has_default (mkField "email" (PrimitiveSchema "string") None)
        then Ok tt
        else Raise (ValueError
                      ("Field "
                       ++ fname (mkField "email" (PrimitiveSchema "string")
                                   None)
                       ++ " is missing a default value."))).
Proof.
  apply (@evolution_by_one_field "User"
           [mkField "id" (PrimitiveSchema "int") None]
           (mkField "email" (PrimitiveSchema "string") None)).
  - reflexivity.
  - reflexivity.
Defined.

(** *** A change to one field *)

Lemma flatten_last_field (n : string) (fields : list Field) (field : Field) :
  is_plain (ftype field) = true ->
  dict_mem (fname field)
    (flatten_avro_schema_fields (RecordSchema n fields) []) = false ->
  let old := flatten_avro_schema_fields (RecordSchema n fields) [] in
  flatten_avro_schema_fields (RecordSchema n (fields ++ [field])%list) []
  = (old ++ [(fname field, field)])%list
  /\ assigned old
  /\ dict_get (fname field) old = None.
Proof.
  intros P M old. split; [exact (@flatten_one_more n fields field P M) |].
  split; [apply flatten_assigned |].
  unfold dict_mem in M. fold old in M.
  destruct (dict_get (fname field) old); [discriminate M | reflexivity].
Qed.

(** X5: A record whose last field changes, the field being of a non-record,
    non-union type before and after and the only one flattened under its
    name: the validator raises when the default was removed; otherwise it
    accepts an unchanged type; otherwise it accepts an enum whose symbols
    include the old enum's, whatever the enum's name; every other change of
    type raises.  The fields before it play no part. *)
Theorem evolution_of_last_field (n : string) (fields : list Field)
  (old_field field : Field) :
  fname field = fname old_field ->
  is_plain (ftype old_field) = true ->
  is_plain (ftype field) = true ->
  dict_mem (fname old_field)
    (flatten_avro_schema_fields (RecordSchema n fields) []) = false ->
  validate_avro_schema_evolution
    (RecordSchema n (fields ++ [old_field])%list)
    (RecordSchema n (fields ++ [field])%list)
  = if negb (has_default field) && has_default old_field then
      Raise (ValueError ("Field " ++ fname field
                         ++ " default value cannot be removed."))
    else if schema_eqb (ftype field) (ftype old_field) then Ok tt
    else
      match ftype field, ftype old_field with
      | EnumSchema _ new_enum, EnumSchema _ old_enum =>
          if issubset String.eqb old_enum new_enum then Ok tt
          else Raise (ValueError ("Field " ++ fname field
                                  ++ " enum has changed."))
      | _, _ =>
          Raise (ValueError ("Field " ++ fname field ++ " type has changed."))
      end.
Proof.
  intros En Po Pn M.
  assert (M' : dict_mem (fname field)
                 (flatten_avro_schema_fields (RecordSchema n fields) [])
               = false) by (rewrite En; exact M).
  destruct (flatten_last_field n fields old_field Po M) as (Eo & A & G).
  destruct (flatten_last_field n fields field Pn M') as (Ef & _ & _).
  unfold validate_avro_schema_evolution. rewrite Eo, Ef.
  set (old := flatten_avro_schema_fields (RecordSchema n fields) []) in *.
  assert (Get : forall k f, In (k, f) old ->
                  dict_get k (old ++ [(fname old_field, old_field)])%list
                  = Some f).
  { intros k f I. rewrite dict_get_app, (@assigned_get _ _ _ _ A I).
    reflexivity. }
  rewrite check_new_fields_app, (check_new_fields_same _ _ Get).
  cbn [bind check_new_fields]. unfold check_new_field at 1.
  rewrite En, dict_get_app, G. cbn [dict_get]. rewrite String.eqb_refl.
  assert (Rm : check_removed_fields (old ++ [(fname old_field, field)])%list
                 (old ++ [(fname old_field, old_field)])%list = Ok tt).
  { apply check_removed_fields_present. intros k f I. left.
    unfold dict_mem. rewrite dict_get_app.
    apply in_app_iff in I. destruct I as [I | [I | []]].
    - rewrite (@assigned_get _ _ _ _ A I). reflexivity.
    - injection I as <- <-. rewrite G. cbn [dict_get].
      rewrite String.eqb_refl. reflexivity. }
  destruct (negb (has_default field) && has_default old_field);
    [reflexivity |].
  destruct (schema_eqb (ftype field) (ftype old_field));
    cbn [negb bind]; [exact Rm |].
  unfold is_plain in Po, Pn.
  destruct (ftype field); try discriminate Pn;
    destruct (ftype old_field); try discriminate Po;
    cbn [bind]; try reflexivity.
  destruct (issubset String.eqb symbols0 symbols); cbn [bind];
    [exact Rm | reflexivity].
Qed.

Lemma evolution_of_last_field_witness :
  validate_avro_schema_evolution
    (RecordSchema "User"
       ([mkField "id" (PrimitiveSchema "int") None]
        ++ [mkField "role" (EnumSchema "Role" ["admin"; "user"]) None])%list)
    (RecordSchema "User"
       ([mkField "id" (PrimitiveSchema "int") None]
        ++ [mkField "role" (EnumSchema "Role" ["user"; "guest"; "admin"])
              None])%list)
  = if negb (has_default
               (mkField "role" (EnumSchema "Role" ["user"; "guest"; "admin"])
                  None))
       && has_default
            (mkField "role" (EnumSchema "Role" ["admin"; "user"]) None)
    then
      Raise (ValueError
               ("Field "
                ++ fname (mkField "role"
                            (EnumSchema "Role" ["user"; "guest"; "admin"])
                            None)
                ++ " default value cannot be removed."))
    else if schema_eqb
              (ftype (mkField "role"
                        (EnumSchema "Role" ["user"; "guest"; "admin"]) None))
              (ftype (mkField "role" (EnumSchema "Role" ["admin"; "user"])
                        None))
    then Ok tt
    else
      match
        ftype (mkField "role" (EnumSchema "Role" ["user"; "guest"; "admin"])
                 None),
        ftype (mkField "role" (EnumSchema "Role" ["admin"; "user"]) None)
      with
      | EnumSchema _ new_enum, EnumSchema _ old_enum =>
          if issubset String.eqb old_enum new_enum then Ok tt
          else
            Raise (ValueError
                     ("Field "
                      ++ fname (mkField "role"
                                  (EnumSchema "Role"
                                     ["user"; "guest"; "admin"]) None)
                      ++ " enum has changed."))
      | _, _ =>
          Raise (ValueError
                   ("Field "
                    ++ fname (mkField "role"
                                (EnumSchema "Role" ["user"; "guest"; "admin"])
                                None)
                    ++ " type has changed."))
      end.
Proof.
  apply (@evolution_of_last_field "User"
           [mkField "id" (PrimitiveSchema "int") None]
           (mkField "role" (EnumSchema "Role" ["admin"; "user"]) None)
           (mkField "role" (EnumSchema "Role" ["user"; "guest"; "admin"])
              None)).
  - reflexivity.
  - reflexivity.
  - reflexivity.
  - reflexivity.
Defined.

(** The same change, evaluated: symbols added to an enum pass, a symbol
    taken away raises, and so does int made long. *)
Example evolution_of_last_field_sample :
  validate_avro_schema_evolution
    (one_field "role" (EnumSchema "Role" ["admin"; "user"]) None)
    (one_field "role" (EnumSchema "Role" ["user"; "guest"; "admin"]) None)
  = Ok tt
  /\ validate_avro_schema_evolution
       (one_field "role" (EnumSchema "Role" ["admin"; "user"]) None)
       (one_field "role" (EnumSchema "Role" ["admin"]) None)
     = Raise (ValueError "Field role enum has changed.")
  /\ validate_avro_schema_evolution
       (one_field "id" (PrimitiveSchema "int") None)
       (one_field "id" (PrimitiveSchema "long") None)
     = Raise (ValueError "Field id type has changed.").
Proof. repeat split; reflexivity. Qed.

End SchemaEvolution.

(** ** asyncio/writer.py: DeferredAvroWriter *)

Module AsyncStage.

#[local] Set Warnings "-register-all".

(** The Python objects handed to append. *)
Inductive datum : Type :=
| PyNone
| PyInt (z : Z)
| PyStr (s : string)
| PyList (items : list datum)
| PyDict (items : list (string * datum)).

(** bool(datum), the test of [if datum:]. *)
Definition truthy (d : datum) : bool :=
  match d with
  | PyNone => false
  | PyInt z => negb (Z.eqb z 0)
  | PyStr s => negb (String.eqb s "")
  | PyList items => match items with [] => false | _ => true end
  | PyDict items => match items with [] => false | _ => true end
  end.

Section DeferredAvroWriter.

(** Whether the wrapped writer's append raises on a datum. *)
Variable append_raises : datum -> bool.

(** Where the worker thread stands in _writer_worker: about to read the
    termination flag, about to read queue.empty(), inside queue.get, holding
    a dequeued datum, or returned. *)
Inductive worker_pc : Type :=
| AtDoneTest
| AtEmptyTest
| AtGet
| Holding (d : datum)
| Returned.

(** The object's fields, the calls made on the wrapped writer, the
    exceptions the worker logged, and the history of what was enqueued. *)
Record state : Type := {
  _writer_queue : list datum;
  _writer_thread_done : bool;
  started : bool;
  pc : worker_pc;
  calls : list datum;
  logged : list datum;
  enqueued : list datum
}.

Definition init : state :=
  {| _writer_queue := []; _writer_thread_done := false; started := false;
     pc := AtDoneTest; calls := []; logged := []; enqueued := [] |}.

Definition with_pc (s : state) (p : worker_pc) : state :=
  {| _writer_queue := _writer_queue s;
     _writer_thread_done := _writer_thread_done s; started := started s;
     pc := p; calls := calls s; logged := logged s; enqueued := enqueued s |}.

(** One atomic action of the worker thread. *)
Definition worker_next (s : state) : option state :=
  if negb (started s) then None
  else
    match pc s with
    | AtDoneTest =>
        Some (with_pc s (if _writer_thread_done s then AtEmptyTest else AtGet))
    | AtEmptyTest =>
        Some (with_pc s (match _writer_queue s with
                         | [] => Returned
                         | _ :: _ => AtGet
                         end))
    | AtGet =>
        match _writer_queue s with
        | [] => Some (with_pc s AtDoneTest)
        | d :: q =>
            Some {| _writer_queue := q;
                    _writer_thread_done := _writer_thread_done s;
                    started := started s; pc := Holding d; calls := calls s;
                    logged := logged s; enqueued := enqueued s |}
        end
    | Holding d =>
        if truthy d then
          Some {| _writer_queue := _writer_queue s;
                  _writer_thread_done := _writer_thread_done s;
                  started := started s; pc := AtDoneTest;
                  calls := calls s ++ [d];
                  logged := if append_raises d then logged s ++ [d]
                            else logged s;
                  enqueued := enqueued s |}
        else Some (with_pc s AtDoneTest)
    | Returned => None
    end.

(** start(), append(datum) and stop() of the calling thread. *)
Definition do_start (s : state) : state :=
  {| _writer_queue := _writer_queue s;
     _writer_thread_done := _writer_thread_done s; started := true;
     pc := pc s; calls := calls s; logged := logged s;
     enqueued := enqueued s |}.

Definition do_append (s : state) (d : datum) : state :=
  {| _writer_queue := _writer_queue s ++ [d];
     _writer_thread_done := _writer_thread_done s; started := started s;
     pc := pc s; calls := calls s; logged := logged s;
     enqueued := enqueued s ++ [d] |}.

Definition do_stop (s : state) : state :=
  {| _writer_queue := _writer_queue s; _writer_thread_done := true;
     started := started s; pc := pc s; calls := calls s; logged := logged s;
     enqueued := enqueued s |}.

(** The interleavings of the two threads.  Appends come before stop; stop
    is called on a started writer. *)
Inductive step : state -> state -> Prop :=
| step_start s : started s = false -> step s (do_start s)
| step_append s d : _writer_thread_done s = false -> step s (do_append s d)
| step_stop s :
    started s = true -> _writer_thread_done s = false -> step s (do_stop s)
| step_worker s s' : worker_next s = Some s' -> step s s'.

Inductive reachable : state -> Prop :=
| reach_init : reachable init
| reach_step s s' : reachable s -> step s s' -> reachable s'.

(** stop() has returned: the flag is set and the worker thread has ended,
    which is what join waits for. *)
Definition stopped (s : state) : Prop :=
  _writer_thread_done s = true /\ pc s = Returned.

(** The worker running alone, as it does while stop() waits in join. *)
Fixpoint worker_run (n : nat) (s : state) : state :=
  match n with
  | O => s
  | S n' =>
      match worker_next s with
      | Some s' => worker_run n' s'
      | None => s
      end
  end.

Definition held (p : worker_pc) : list datum :=
  match p with
  | Holding d => [d]
  | _ => []
  end.

(** What the worker has still to hand to the writer. *)
Definition backlog (s : state) : list datum :=
  held (pc s) ++ _writer_queue s.

Definition invariant (s : state) : Prop :=
  calls s ++ filter truthy (backlog s) = filter truthy (enqueued s)
  /\ (pc s = AtEmptyTest -> _writer_thread_done s = true)
  /\ (pc s = Returned -> _writer_thread_done s = true /\ _writer_queue s = [])
  /\ (_writer_thread_done s = true -> started s = true).

(** *** Safety: what the wrapped writer has received *)

Lemma invariant_init : invariant init.
Proof.
  unfold invariant, init; simpl.
  repeat split; intros; discriminate.
Qed.

Lemma invariant_worker (s s' : state) :
  invariant s -> worker_next s = Some s' -> invariant s'.
Proof.
  intros (I1 & I2 & I3 & I4) W.
  destruct s as [q dn st p c l e]. unfold worker_next in W.
  unfold invariant, backlog in *. simpl in *.
  destruct st; simpl in W; [| discriminate W].
  destruct p; simpl in *.
  - injection W as <-. simpl.
    destruct dn; simpl; repeat split; auto; intros; discriminate.
  - injection W as <-. simpl. specialize (I2 eq_refl).
    destruct q; simpl; repeat split; auto; intros; discriminate.
  - destruct q as [| d q]; injection W as <-; simpl;
      repeat split; auto; intros; discriminate.
  - destruct (truthy d) eqn:T; injection W as <-; simpl;
      repeat split; auto; try (intros; discriminate).
    rewrite <- app_assoc. exact I1.
  - discriminate W.
Qed.

Lemma invariant_step (s s' : state) : invariant s -> step s s' -> invariant s'.
Proof.
  intros I St. destruct St as [s H | s d H | s H1 H2 | s s' W].
  - destruct I as (I1 & I2 & I3 & I4). unfold invariant, backlog in *.
    simpl. repeat split; auto; apply I3; assumption.
  - destruct I as (I1 & I2 & I3 & I4). unfold invariant, backlog in *.
    simpl. repeat split; auto.
    + rewrite (app_assoc (held (pc s))).
      rewrite (filter_app truthy (held (pc s) ++ _writer_queue s)).
      rewrite (filter_app truthy (enqueued s)).
      rewrite app_assoc, I1. reflexivity.
    + match goal with
      | P : pc s = Returned |- _ => destruct (I3 P) as [D _]; congruence
      end.
    + match goal with
      | P : pc s = Returned |- _ => destruct (I3 P) as [D _]; congruence
      end.
  - destruct I as (I1 & I2 & I3 & I4). unfold invariant, backlog in *.
    simpl. repeat split; auto. apply I3; assumption.
  - exact (invariant_worker I W).
Qed.

Lemma reachable_invariant (s : state) : reachable s -> invariant s.
Proof.
  induction 1 as [| s s' _ IH St]; [exact invariant_init |].
  exact (invariant_step IH St).
Qed.

Lemma stopped_calls (s : state) :
  reachable s -> stopped s -> calls s = filter truthy (enqueued s).
Proof.
  intros R [_ P]. destruct (reachable_invariant R) as (I1 & _ & I3 & _).
  destruct (I3 P) as [_ Q]. unfold backlog in I1.
  rewrite P, Q in I1. simpl in I1. rewrite app_nil_r in I1. exact I1.
Qed.

(** *** Progress: once the flag is set the worker drains the queue and
    returns *)

Lemma worker_run_add (n m : nat) : forall s,
  worker_run (n + m) s = worker_run m (worker_run n s).
Proof.
  induction n as [| n IH]; intros s; simpl; [reflexivity |].
  destruct (worker_next s) as [s' |] eqn:W; [apply IH |].
  destruct m; simpl; [reflexivity | now rewrite W].
Qed.

Lemma worker_run_reachable (n : nat) : forall s,
  reachable s -> reachable (worker_run n s).
Proof.
  induction n as [| n IH]; intros s R; simpl; [exact R |].
  destruct (worker_next s) as [s' |] eqn:W; [| exact R].
  apply IH. exact (reach_step R (step_worker _ W)).
Qed.

Lemma drain (q : list datum) : forall p c l e,
  exists n,
    stopped (worker_run n
      {| _writer_queue := q; _writer_thread_done := true; started := true;
         pc := p; calls := c; logged := l; enqueued := e |})
    /\ enqueued (worker_run n
      {| _writer_queue := q; _writer_thread_done := true; started := true;
         pc := p; calls := c; logged := l; enqueued := e |}) = e.
Proof.
  induction q as [| d q IH]; intros p c l e.
  - destruct p as [| | | d0 |].
    + exists 2. split; [split |]; reflexivity.
    + exists 1. split; [split |]; reflexivity.
    + exists 3. split; [split |]; reflexivity.
    + exists 3. simpl. unfold worker_next; simpl.
      destruct (truthy d0); simpl; split; try split; reflexivity.
    + exists 0. split; [split |]; reflexivity.
  - assert (G : forall c l, exists n,
      stopped (worker_run n
        {| _writer_queue := d :: q; _writer_thread_done := true;
           started := true; pc := AtGet; calls := c; logged := l;
           enqueued := e |})
      /\ enqueued (worker_run n
        {| _writer_queue := d :: q; _writer_thread_done := true;
           started := true; pc := AtGet; calls := c; logged := l;
           enqueued := e |}) = e).
    { intros c0 l0. destruct (IH (Holding d) c0 l0 e) as [n Hn].
      exists (S n). exact Hn. }
    destruct p as [| | | d0 |].
    + destruct (G c l) as [n Hn]. exists (2 + n).
      rewrite worker_run_add. exact Hn.
    + destruct (G c l) as [n Hn]. exists (1 + n).
      rewrite worker_run_add. exact Hn.
    + exact (G c l).
    + destruct (truthy d0) eqn:T.
      * destruct (G (c ++ [d0]) (if append_raises d0 then l ++ [d0] else l))
          as [n Hn].
        exists (3 + n). rewrite worker_run_add.
        simpl. unfold worker_next; simpl. rewrite T. simpl. exact Hn.
      * destruct (G c l) as [n Hn].
        exists (3 + n). rewrite worker_run_add.
        simpl. unfold worker_next; simpl. rewrite T. simpl. exact Hn.
    + exists 0. split; [split |]; reflexivity.
Qed.

Lemma stop_returns (s : state) :
  reachable s -> _writer_thread_done s = true ->
  exists n,
    stopped (worker_run n s)
    /\ reachable (worker_run n s)
    /\ enqueued (worker_run n s) = enqueued s.
Proof.
  intros R D. destruct (reachable_invariant R) as (_ & _ & _ & I4).
  specialize (I4 D). destruct s as [q dn st p c l e]. simpl in *. subst.
  destruct (drain q p c l e) as [n [H1 H2]].
  exists n. split; [exact H1 |]. split; [| exact H2].
  apply worker_run_reachable. exact R.
Qed.

End DeferredAvroWriter.

(** A run with the three records {}, 7 and {id: 1}: start, three appends,
    stop, and the worker alone until it returns. *)
Definition sample_records : list datum :=
  [PyDict []; PyInt 7; PyDict [("id"%string, PyInt 1)]].

Definition sample_run (append_raises : datum -> bool) : state :=
  worker_run append_raises 20
    (do_stop (fold_left do_append sample_records (do_start init))).

Lemma sample_run_reachable (append_raises : datum -> bool) :
  reachable append_raises (sample_run append_raises).
Proof.
  unfold sample_run. apply worker_run_reachable.
  eapply reach_step; [| apply step_stop; reflexivity].
  simpl.
  eapply reach_step; [| apply step_append; reflexivity].
  eapply reach_step; [| apply step_append; reflexivity].
  eapply reach_step; [| apply step_append; reflexivity].
  eapply reach_step; [| apply step_start; reflexivity].
  apply reach_init.
Qed.

(** C3, as the code has it: in every interleaving of appends made before
    stop with the worker, once stop has returned the wrapped writer's append
    has been called once, in enqueue order, for every enqueued record that
    is truthy, also when such a call raised; stop does return: from the
    moment the flag is set the worker alone drains the queue and ends. *)
Theorem clean_shutdown_keeps_truthy (append_raises : datum -> bool) :
  (forall s, reachable append_raises s -> stopped s ->
     calls s = filter truthy (enqueued s))
  /\ (forall s, reachable append_raises s -> _writer_thread_done s = true ->
        exists n,
          stopped (worker_run append_raises n s)
          /\ reachable append_raises (worker_run append_raises n s)
          /\ enqueued (worker_run append_raises n s) = enqueued s).
Proof.
  split; [apply stopped_calls | apply stop_returns].
Qed.

(** C3 as stated fails on a falsy record: after a clean shutdown of the
    sample run the empty record {} was enqueued and never reached the
    wrapped writer. *)
Lemma clean_shutdown_drops_falsy :
  reachable (fun _ => false) (sample_run (fun _ => false))
  /\ stopped (sample_run (fun _ => false))
  /\ enqueued (sample_run (fun _ => false)) = sample_records
  /\ calls (sample_run (fun _ => false))
     = [PyInt 7; PyDict [("id"%string, PyInt 1)]].
Proof.
  split; [apply sample_run_reachable |].
  split; [split; reflexivity |].
  split; reflexivity.
Qed.

(** *** The exceptions of the wrapped writer *)

Section WriterErrors.

Variable append_raises : datum -> bool.




End WriterErrors.


End AsyncStage.

(** ** OCF framing: byte streams, zig-zag varints, blocks *)

Module Framing.

Open Scope Z_scope.

(** A byte is an integer in 0..255. *)
Definition bytes : Type := list Z.

Definition SYNC_SIZE : Z := 16.

Fixpoint bytes_eqb (a b : bytes) : bool :=
  match a, b with
  | [], [] => true
  | x :: a', y :: b' => Z.eqb x y && bytes_eqb a' b'
  | _, _ => false
  end.

(** *** A binary file handle *)

Record handle : Type := {
  content : bytes;
  position : nat
}.

(** The bytes from the handle's position to the end of the file. *)
Definition remaining (fh : handle) : bytes := skipn (position fh) (content fh).

Definition fh_tell (fh : handle) : Z := Z.of_nat (position fh).

Definition file_size (fh : handle) : Z := Z.of_nat (List.length (content fh)).

(** fh.read(n): up to n bytes, all that is left when n is negative. *)
Definition fh_read (n : Z) (fh : handle) : bytes * handle :=
  let data :=
    if n <? 0 then remaining fh else firstn (Z.to_nat n) (remaining fh) in
  (data,
   {| content := content fh;
      position := (position fh + List.length data)%nat |}).

(** fh.seek(pos): an absolute position; a negative one is an OSError, one
    that does not fit a C long long an OverflowError. *)
Definition fh_seek (pos : Z) (fh : handle) : result handle :=
  if pos <? 0 then Raise OSError
  else if 2 ^ 63 <=? pos then Raise OverflowError
  else Ok {| content := content fh; position := Z.to_nat pos |}.

(** fh.seek(offset, 1). *)
Definition fh_seek_cur (offset : Z) (fh : handle) : result handle :=
  fh_seek (fh_tell fh + offset) fh.

(** *** Zig-zag varints *)

(** The loop shared by repair.py's read_varint and the Avro library's
    BinaryDecoder.read_long, over the bytes still to be read: the value
    accumulated and the bytes left, or nothing at the end of the file. *)
Fixpoint read_varint_loop (bs : bytes) (shift result : Z)
  : option (Z * bytes) :=
  match bs with
  | [] => None
  | byte :: rest =>
      let result := Z.lor result (Z.shiftl (Z.land byte 127) shift) in
      if Z.land byte 128 =? 0 then Some (result, rest)
      else read_varint_loop rest (shift + 7) result
  end.

(** (result >> 1) ^ -(result & 1) *)
Definition zigzag_decode (n : Z) : Z :=
  Z.lxor (Z.shiftr n 1) (- Z.land n 1).

Definition after (fh : handle) (rest : bytes) : handle :=
  {| content := content fh;
     position := (List.length (content fh) - List.length rest)%nat |}.

(** RepairTool.read_varint(fh). *)
Definition read_varint (fh : handle) : result (Z * handle) :=
  match read_varint_loop (remaining fh) 0 0 with
  | None => Raise EOFError
  | Some (n, rest) => Ok (zigzag_decode n, after fh rest)
  end.

Definition py_str (z : Z) : string :=
  if z <? 0 then String "-" (Decimal10.str (Z.to_N (- z)))
  else Decimal10.str (Z.to_N z).

(** The Avro library's BinaryDecoder.read(n). *)
Definition decoder_read (n : Z) (fh : handle) : result (bytes * handle) :=
  if n <? 0 then
    Raise (AvroException
             ("Requested " ++ py_str n
              ++ " bytes to read, expected positive integer."))
  else
    let (data, fh') := fh_read n fh in
    if Z.of_nat (List.length data) =? n then Ok (data, fh')
    else
      Raise (AvroException
               ("Read " ++ py_str (Z.of_nat (List.length data))
                ++ " bytes, expected " ++ py_str n ++ " bytes")).

(** The Avro library's BinaryDecoder.read_long(): the same varint, read
    through decoder_read one byte at a time. *)
Definition read_long (fh : handle) : result (Z * handle) :=
  match read_varint_loop (remaining fh) 0 0 with
  | None => Raise (AvroException "Read 0 bytes, expected 1 bytes")
  | Some (n, rest) => Ok (zigzag_decode n, after fh rest)
  end.

(** The Avro library's BinaryEncoder.write_long(datum); ten rounds cover
    every 64-bit long. *)
Fixpoint write_varint (fuel : nat) (datum : Z) : bytes :=
  match fuel with
  | O => [datum]
  | S fuel' =>
      if Z.land datum (Z.lnot 127) =? 0 then [datum]
      else Z.lor (Z.land datum 127) 128
           :: write_varint fuel' (Z.shiftr datum 7)
  end.

Definition zigzag_encode (datum : Z) : Z :=
  Z.lxor (Z.shiftl datum 1) (Z.shiftr datum 63).

Definition write_long (datum : Z) : bytes :=
  write_varint 10 (zigzag_encode datum).

Definition is_long (z : Z) : Prop := - 2 ^ 63 <= z < 2 ^ 63.

(** *** Blocks *)

Record block : Type := {
  block_count : Z;
  block_data : bytes;
  block_sync : bytes
}.

Definition block_size (b : block) : Z := Z.of_nat (List.length (block_data b)).

(** The bytes of a block: count, size, payload, sync marker. *)
Definition encode_block (b : block) : bytes :=
  write_long (block_count b) ++ write_long (block_size b)
  ++ block_data b ++ block_sync b.

(** An intact block of a file whose header carries [sync]. *)
Definition intact (sync : bytes) (b : block) : Prop :=
  0 <= block_count b < 2 ^ 63
  /\ block_size b < 2 ^ 63
  /\ block_sync b = sync.

(** [fh] stands right after [before], with [rest] still to read. *)
Definition stands (fh : handle) (before rest : bytes) : Prop :=
  content fh = before ++ rest /\ position fh = List.length before.

(** *** The reader's view of a file body

    The Avro library's DataFileReader walks the blocks after the header:
    count, size, [size] payload bytes, sixteen sync bytes equal to the
    header's marker, until the end of the file.  [None] when the body is
    not such a sequence of blocks (or the fuel ran out). *)
Fixpoint read_blocks (fuel : nat) (sync : bytes) (fh : handle)
  : option (list block) :=
  match fuel with
  | O => None
  | S fuel' =>
      if file_size fh <=? fh_tell fh then Some []
      else
        match read_long fh with
        | Raise _ => None
        | Ok (count, fh1) =>
            match read_long fh1 with
            | Raise _ => None
            | Ok (size, fh2) =>
                match decoder_read size fh2 with
                | Raise _ => None
                | Ok (data, fh3) =>
                    match decoder_read SYNC_SIZE fh3 with
                    | Raise _ => None
                    | Ok (marker, fh4) =>
                        if bytes_eqb marker sync then
                          match read_blocks fuel' sync fh4 with
                          | Some blocks =>
                              Some ({| block_count := count;
                                       block_data := data;
                                       block_sync := marker |} :: blocks)
                          | None => None
                          end
                        else None
                    end
                end
            end
        end
  end.

(** An Avro data file as the library's DataFileReader presents it: the raw
    bytes of the header, the metadata map and the sync marker parsed from
    them, and the bytes after the header. *)
Record ocf : Type := {
  header_data : bytes;
  meta : list (string * bytes);
  sync_marker : bytes;
  body : bytes
}.

Definition file_bytes (f : ocf) : bytes := header_data f ++ body f.

(** The handle of a file opened for reading, and the same after
    DataFileReader has read the header. *)
Definition open_rb (f : ocf) : handle :=
  {| content := file_bytes f; position := O |}.

Definition past_header (f : ocf) : handle :=
  {| content := file_bytes f; position := List.length (header_data f) |}.

Definition file_blocks (f : ocf) : option (list block) :=
  read_blocks (S (List.length (body f))) (sync_marker f) (past_header f).

Fixpoint meta_get (key : string) (m : list (string * bytes)) : option bytes :=
  match m with
  | [] => None
  | (k, v) :: m' => if String.eqb k key then Some v else meta_get key m'
  end.

Definition sum_counts (blocks : list block) : Z :=
  fold_right (fun b acc => block_count b + acc) 0 blocks.

(** reader.meta.get("avro.schema") and reader.meta.get("avro.codec",
    b"null"). *)
Definition NULL_CODEC : bytes := [110; 117; 108; 108].

Definition schema_of (f : ocf) : option bytes :=
  meta_get "avro.schema" (meta f).

Definition codec_of (f : ocf) : bytes :=
  match meta_get "avro.codec" (meta f) with
  | Some codec => codec
  | None => NULL_CODEC
  end.

Section Decoding.

(** The Avro codec is a black box: from a file's schema and codec metadata,
    a block's count and its payload, the records of the block. *)
Variable record : Type.
Variable decode_block : option bytes -> bytes -> Z -> bytes -> list record.

Definition decode_blocks (schema : option bytes) (codec : bytes)
  (blocks : list block) : list record :=
  flat_map (fun b => decode_block schema codec (block_count b) (block_data b))
    blocks.

(** list(reader): the records of a file, when it is a valid OCF. *)
Definition decode (f : ocf) : option (list record) :=
  match file_blocks f with
  | Some blocks => Some (decode_blocks (schema_of f) (codec_of f) blocks)
  | None => None
  end.

End Decoding.

(** *** Round trips *)

Lemma zigzag_encode_range (z : Z) : is_long z -> 0 <= zigzag_encode z < 2 ^ 64.
Proof.
  unfold is_long, zigzag_encode. intros H.
  rewrite Z.shiftl_mul_pow2, Z.shiftr_div_pow2 by lia.
  change (2 ^ 1) with 2.
  destruct (Z_lt_le_dec z 0) as [N | P].
  - replace (z / 2 ^ 63) with (-1).
    + rewrite Z.lxor_m1_r. unfold Z.lnot. lia.
    + apply Z.div_unique with (r := z + 2 ^ 63); lia.
  - rewrite Z.div_small by lia. rewrite Z.lxor_0_r. lia.
Qed.

Lemma zigzag_roundtrip (z : Z) : is_long z -> zigzag_decode (zigzag_encode z) = z.
Proof.
  unfold is_long, zigzag_encode, zigzag_decode. intros H.
  rewrite Z.shiftl_mul_pow2, (Z.shiftr_div_pow2 z 63) by lia.
  change (2 ^ 1) with 2.
  change 1 with (Z.ones 1) at 2. 
  destruct (Z_lt_le_dec z 0) as [N | P].
  - replace (z / 2 ^ 63) with (-1).
    + rewrite Z.lxor_m1_r. unfold Z.lnot.
      rewrite Z.land_ones by lia. rewrite Z.shiftr_div_pow2 by lia.
      change (2 ^ 1) with 2.
      replace (Z.pred (- (z * 2))) with (1 + (- z - 1) * 2) by lia.
      rewrite Z.mod_add by lia. rewrite Z.div_add by lia.
      change (1 mod 2) with 1. change (1 / 2) with 0.
      change (- (1)) with (-1). rewrite Z.lxor_m1_r. unfold Z.lnot. lia.
    + apply Z.div_unique with (r := z + 2 ^ 63); lia.
  - rewrite Z.div_small by lia. rewrite Z.lxor_0_r.
    rewrite Z.land_ones by lia. rewrite Z.shiftr_div_pow2 by lia.
    change (2 ^ 1) with 2.
    rewrite Z.mod_mul by lia. rewrite Z.div_mul by lia.
    change (- 0) with 0. apply Z.lxor_0_r.
Qed.

Lemma land_high_zero (n : Z) :
  0 <= n -> (Z.land n (Z.lnot 127) = 0 <-> n < 128).
Proof.
  intros Hn. change 127 with (Z.ones 7).
  rewrite <- Z.ldiff_land, Z.ldiff_ones_r by lia.
  rewrite Z.shiftl_mul_pow2, Z.shiftr_div_pow2 by lia.
  change (2 ^ 7) with 128.
  pose proof (Z.div_mod n 128 ltac:(lia)) as D.
  pose proof (Z.mod_pos_bound n 128 ltac:(lia)) as M.
  split; intros H.
  - assert (n / 128 = 0) by lia. lia.
  - rewrite Z.div_small by lia. reflexivity.
Qed.

Lemma small_byte (n : Z) :
  0 <= n < 128 -> Z.land n 127 = n /\ Z.land n 128 = 0.
Proof.
  intros H. split.
  - change 127 with (Z.ones 7). rewrite Z.land_ones by lia.
    apply Z.mod_small. change (2 ^ 7) with 128. lia.
  - apply Z.bits_inj'. intros i Hi.
    rewrite Z.land_spec, Z.bits_0. change 128 with (2 ^ 7).
    rewrite Z.pow2_bits_eqb by lia.
    destruct (Z.eqb_spec 7 i) as [<- | Ne]; [| apply andb_false_r].
    rewrite andb_true_r.
    destruct (Z.eq_dec n 0) as [-> | Nz]; [apply Z.bits_0 |].
    apply Z.bits_above_log2; [lia |].
    apply Z.log2_lt_pow2; [lia |]. change (2 ^ 7) with 128. lia.
Qed.

Lemma continuation_byte (n : Z) :
  Z.land (Z.lor (Z.land n 127) 128) 127 = Z.land n 127
  /\ Z.land (Z.lor (Z.land n 127) 128) 128 = 128.
Proof.
  split.
  - rewrite Z.land_lor_distr_l, <- Z.land_assoc.
    change (Z.land 127 127) with 127. change (Z.land 128 127) with 0.
    apply Z.lor_0_r.
  - rewrite Z.land_lor_distr_l, <- Z.land_assoc.
    change (Z.land 127 128) with 0. change (Z.land 128 128) with 128.
    rewrite Z.land_0_r. reflexivity.
Qed.

Lemma split_low_seven (n shift : Z) :
  0 <= shift ->
  Z.lor (Z.shiftl (Z.land n 127) shift) (Z.shiftl (Z.shiftr n 7) (shift + 7))
  = Z.shiftl n shift.
Proof.
  intros Hs.
  replace (shift + 7) with (7 + shift) by lia.
  rewrite <- (Z.shiftl_shiftl (Z.shiftr n 7) 7 shift) by lia.
  rewrite <- Z.shiftl_lor. f_equal.
  change 127 with (Z.ones 7).
  rewrite <- Z.ldiff_ones_r by lia.
  rewrite Z.lor_comm. apply Z.lor_ldiff_and.
Qed.

Lemma read_write_varint (fuel : nat) : forall n rest shift acc,
  0 <= n < 2 ^ (7 * Z.of_nat (S fuel)) -> 0 <= shift ->
  read_varint_loop (write_varint fuel n ++ rest) shift acc
  = Some (Z.lor acc (Z.shiftl n shift), rest).
Proof.
  assert (Base : forall n rest shift acc, 0 <= n < 128 ->
    read_varint_loop ([n] ++ rest) shift acc
    = Some (Z.lor acc (Z.shiftl n shift), rest)).
  { intros n rest shift acc Hn. destruct (small_byte Hn) as [E1 E2].
    cbn [app read_varint_loop]. rewrite E1, E2. reflexivity. }
  induction fuel as [| fuel IH]; intros n rest shift acc Hn Hs.
  - cbn [write_varint]. apply Base. change (2 ^ (7 * Z.of_nat 1)) with 128 in Hn.
    exact Hn.
  - cbn [write_varint].
    destruct (Z.eqb_spec (Z.land n (Z.lnot 127)) 0) as [E | Ne].
    + apply Base. apply land_high_zero in E; lia.
    + destruct (continuation_byte n) as [C1 C2].
      cbn [app read_varint_loop]. rewrite C1, C2. cbn [Z.eqb].
      rewrite IH.
      * rewrite <- Z.lor_assoc, split_low_seven by lia. reflexivity.
      * rewrite Z.shiftr_div_pow2 by lia. split.
        -- apply Z.div_pos; lia.
        -- apply Z.div_lt_upper_bound; [lia |].
           rewrite <- Z.pow_add_r by lia.
           replace (7 + 7 * Z.of_nat (S fuel)) with (7 * Z.of_nat (S (S fuel)))
             by lia.
           lia.
      * lia.
Qed.

Lemma read_write_long (z : Z) (rest : bytes) :
  is_long z ->
  read_varint_loop (write_long z ++ rest) 0 0 = Some (zigzag_encode z, rest).
Proof.
  intros H. unfold write_long.
  pose proof (zigzag_encode_range H) as R.
  rewrite read_write_varint.
  - rewrite Z.shiftl_0_r. reflexivity.
  - change (2 ^ (7 * Z.of_nat 11)) with (2 ^ 64 * 2 ^ 13). lia.
  - lia.
Qed.

Lemma stands_remaining (fh : handle) (before rest : bytes) :
  stands fh before rest -> remaining fh = rest.
Proof.
  intros [C P]. unfold remaining. rewrite C, P.
  rewrite skipn_app, skipn_all, Nat.sub_diag. reflexivity.
Qed.

Lemma stands_after (fh : handle) (before x rest : bytes) :
  stands fh before (x ++ rest) -> stands (after fh rest) (before ++ x) rest.
Proof.
  intros [C P]. unfold stands, after; simpl. split.
  - rewrite C, app_assoc. reflexivity.
  - rewrite C, !length_app. lia.
Qed.

Lemma stands_eof (fh : handle) (before rest : bytes) :
  stands fh before rest ->
  (file_size fh <=? fh_tell fh) = match rest with [] => true | _ => false end.
Proof.
  intros [C P]. unfold file_size, fh_tell. rewrite C, P, length_app.
  destruct rest; simpl List.length.
  - apply Z.leb_le. lia.
  - apply Z.leb_gt. lia.
Qed.

Lemma read_long_stands (fh : handle) (before rest : bytes) (z : Z) :
  stands fh before (write_long z ++ rest) -> is_long z ->
  read_long fh = Ok (z, after fh rest).
Proof.
  intros St L. unfold read_long.
  rewrite (@stands_remaining _ _ _ St), (@read_write_long _ _ L), (@zigzag_roundtrip _ L).
  reflexivity.
Qed.

Lemma read_varint_stands (fh : handle) (before rest : bytes) (z : Z) :
  stands fh before (write_long z ++ rest) -> is_long z ->
  read_varint fh = Ok (z, after fh rest).
Proof.
  intros St L. unfold read_varint.
  rewrite (@stands_remaining _ _ _ St), (@read_write_long _ _ L), (@zigzag_roundtrip _ L).
  reflexivity.
Qed.

Lemma fh_read_stands (fh : handle) (before x rest : bytes) :
  stands fh before (x ++ rest) ->
  fh_read (Z.of_nat (List.length x)) fh = (x, after fh rest).
Proof.
  intros St. unfold fh_read. rewrite (stands_remaining St).
  destruct (Z.ltb_spec (Z.of_nat (List.length x)) 0) as [N | _]; [lia |].
  rewrite Nat2Z.id, firstn_app, firstn_all, Nat.sub_diag, firstn_O, app_nil_r.
  f_equal. destruct St as [C P]. unfold after. f_equal.
  rewrite C, P, !length_app. lia.
Qed.

Lemma decoder_read_stands (fh : handle) (before x rest : bytes) :
  stands fh before (x ++ rest) ->
  decoder_read (Z.of_nat (List.length x)) fh = Ok (x, after fh rest).
Proof.
  intros St. unfold decoder_read.
  destruct (Z.ltb_spec (Z.of_nat (List.length x)) 0) as [N | _]; [lia |].
  rewrite (@fh_read_stands _ _ _ _ St), Z.eqb_refl. reflexivity.
Qed.

Lemma bytes_eqb_refl (a : bytes) : bytes_eqb a a = true.
Proof.
  induction a as [| x a IH]; simpl; [reflexivity |].
  rewrite Z.eqb_refl. exact IH.
Qed.

Lemma bytes_eqb_eq (a b : bytes) : bytes_eqb a b = true <-> a = b.
Proof.
  split; [| intros ->; apply bytes_eqb_refl].
  revert b. induction a as [| x a IH]; intros [| y b] H; simpl in H;
    try discriminate; [reflexivity |].
  apply andb_true_iff in H. destruct H as [E H].
  apply Z.eqb_eq in E. subst y. f_equal. apply IH. exact H.
Qed.

Lemma write_varint_nonempty (fuel : nat) (n : Z) : write_varint fuel n <> [].
Proof.
  destruct fuel; simpl; [discriminate |].
  destruct (Z.land n (Z.lnot 127) =? 0); discriminate.
Qed.

Lemma encode_block_nonempty (b : block) : encode_block b <> [].
Proof.
  unfold encode_block, write_long. intros H.
  apply app_eq_nil in H. destruct H as [H _].
  exact (write_varint_nonempty _ _ H).
Qed.

(** Reading back the blocks that were written. *)
Lemma read_blocks_encoded (sync : bytes) (blocks : list block) :
  forall fuel fh before,
  List.length sync = 16%nat ->
  Forall (intact sync) blocks ->
  stands fh before (flat_map encode_block blocks) ->
  (List.length blocks < fuel)%nat ->
  read_blocks fuel sync fh = Some blocks.
Proof.
  induction blocks as [| b blocks IH]; intros fuel fh before Hs Hb St Hf;
    (destruct fuel as [| fuel]; [lia |]); cbn [read_blocks].
  - rewrite (stands_eof St). reflexivity.
  - rewrite (stands_eof St). cbn [flat_map] in *.
    destruct (encode_block b ++ flat_map encode_block blocks) eqn:E.
    { apply app_eq_nil in E. destruct E as [E _].
      destruct (encode_block_nonempty _ E). }
    rewrite <- E in St. clear E.
    inversion Hb as [| ? ? [Hc [Hz Hy]] Hb']; subst.
    unfold encode_block in St. rewrite <- !app_assoc in St.
    rewrite (@read_long_stands _ _ _ _ St) by (unfold is_long; lia).
    apply stands_after in St.
    rewrite (@read_long_stands _ _ _ _ St)
      by (unfold is_long, block_size in *; lia).
    apply stands_after in St.
    unfold block_size at 1.
    rewrite (@decoder_read_stands _ _ _ _ St).
    apply stands_after in St.
    unfold SYNC_SIZE. replace 16 with (Z.of_nat (List.length (block_sync b)))
      by (rewrite Hs; reflexivity).
    rewrite (@decoder_read_stands _ _ _ _ St).
    apply stands_after in St.
    rewrite bytes_eqb_refl.
    rewrite (IH fuel _ _ Hs Hb' St) by (simpl in Hf; lia).
    destruct b; reflexivity.
Qed.

(** *** The handle along a reader's walk *)

Lemma remaining_length (fh : handle) :
  (List.length (remaining fh) = List.length (content fh) - position fh)%nat.
Proof. unfold remaining. apply length_skipn. Qed.

Lemma remaining_eof (fh : handle) :
  file_size fh <= fh_tell fh -> remaining fh = [].
Proof.
  unfold file_size, fh_tell. intros H. apply length_zero_iff_nil.
  rewrite remaining_length. lia.
Qed.

Lemma read_varint_loop_shorter (bs : bytes) : forall shift acc n rest,
  read_varint_loop bs shift acc = Some (n, rest) ->
  (List.length rest < List.length bs)%nat.
Proof.
  induction bs as [| b bs IH]; intros shift acc n rest H; simpl in H.
  - discriminate H.
  - destruct (Z.land b 128 =? 0).
    + injection H as _ <-. simpl. lia.
    + apply IH in H. simpl. lia.
Qed.

Lemma read_long_ok (fh fh' : handle) (z : Z) :
  read_long fh = Ok (z, fh') ->
  content fh' = content fh
  /\ (position fh' <= List.length (content fh'))%nat
  /\ (position fh <= List.length (content fh) ->
      position fh < position fh')%nat.
Proof.
  unfold read_long. destruct (read_varint_loop (remaining fh) 0 0)
    as [[n rest] |] eqn:E; intros H; [| discriminate H].
  injection H as _ <-. unfold after; simpl.
  apply read_varint_loop_shorter in E. rewrite remaining_length in E.
  repeat split; lia.
Qed.

Lemma fh_read_ok (n : Z) (fh fh' : handle) (data : bytes) :
  fh_read n fh = (data, fh') ->
  content fh' = content fh
  /\ position fh' = (position fh + List.length data)%nat
  /\ (position fh <= List.length (content fh) ->
      position fh' <= List.length (content fh'))%nat.
Proof.
  unfold fh_read. intros H. injection H as Hd Hf. subst data fh'. simpl.
  split; [reflexivity |]. split; [reflexivity |].
  intros B.
  pose proof (remaining_length fh) as R.
  destruct (n <? 0).
  - lia.
  - rewrite length_firstn. lia.
Qed.

Lemma decoder_read_ok (n : Z) (fh fh' : handle) (data : bytes) :
  decoder_read n fh = Ok (data, fh') ->
  0 <= n /\ fh_read n fh = (data, fh') /\ Z.of_nat (List.length data) = n.
Proof.
  unfold decoder_read. destruct (Z.ltb_spec n 0) as [N | P]; [discriminate |].
  destruct (fh_read n fh) as [d f] eqn:E.
  destruct (Z.eqb_spec (Z.of_nat (List.length d)) n) as [L | _];
    [| discriminate].
  intros H. injection H as <- <-. auto.
Qed.

(** Seeking over a payload lands where reading it would. *)
Lemma seek_over_payload (n : Z) (fh fh' : handle) (data : bytes) :
  decoder_read n fh = Ok (data, fh') ->
  Z.of_nat (position fh') < 2 ^ 63 ->
  fh_seek_cur n fh = Ok fh'.
Proof.
  intros H B. apply decoder_read_ok in H. destruct H as (P & R & L).
  apply fh_read_ok in R. destruct R as (C & Q & _).
  unfold fh_seek_cur, fh_seek, fh_tell.
  destruct (Z.ltb_spec (Z.of_nat (position fh) + n) 0) as [N | _]; [lia |].
  destruct (Z.leb_spec (2 ^ 63) (Z.of_nat (position fh) + n)) as [N | _];
    [lia |].
  f_equal. destruct fh' as [c' p']. simpl in *. subst c'. f_equal. lia.
Qed.

Lemma after_position (fh : handle) (rest : bytes) :
  (position (after fh rest) <= List.length (content (after fh rest)))%nat.
Proof. unfold after; simpl. lia. Qed.

Lemma skipn_past (before rest : bytes) (k : nat) :
  skipn (List.length before + k) (before ++ rest) = skipn k rest.
Proof.
  rewrite skipn_app.
  replace (List.length before + k - List.length before)%nat with k by lia.
  rewrite skipn_all2 by lia. reflexivity.
Qed.

End Framing.

(** ** tools/count.py: the fast record count *)

Module Count.

Import Framing.
Open Scope Z_scope.

(** What the tool logs: the warning with the total it reports, an error
    with the message of the exception. *)
Inductive log_record : Type :=
| Warning (total : Z)
| Error (e : exn).

(** [needle in hay] on strings. *)
Fixpoint contains (needle hay : string) : bool :=
  String.prefix needle hay
  || match hay with
     | EmptyString => false
     | String _ hay' => contains needle hay'
     end.

(** The except clauses of the loop: what the call returns or raises, and
    what it logs, when the try block raised [e] with [total] counted. *)
Definition on_exception (e : exn) (total : Z) : result Z * list log_record :=
  match e with
  | EOFError => (Ok total, [])
  | AvroException msg =>
      if contains "Sync marker does not match" msg then
        (Ok total, [Warning total])
      else if contains "Read 0 bytes, expected 1 bytes" msg then
        (Ok total, [])
      else (Raise e, [Error e])
  | _ => (Raise e, [Error e])
  end.

Definition sync_mismatch (total : Z) : exn :=
  AvroException
    ("Sync marker does not match (after " ++ py_str total ++ " records)").

(** The while loop of fast_count_records; [None] when it has not ended
    after [fuel] rounds. *)
Fixpoint count_loop (fuel : nat) (sync : bytes) (fh : handle) (total : Z)
  : option (result Z * list log_record) :=
  match fuel with
  | O => None
  | S fuel' =>
      match read_long fh with
      | Raise e => Some (on_exception e total)
      | Ok (block_count, fh1) =>
          match read_long fh1 with
          | Raise e => Some (on_exception e total)
          | Ok (block_size, fh2) =>
              let total := total + block_count in
              match fh_seek_cur block_size fh2 with
              | Raise e => Some (on_exception e total)
              | Ok fh3 =>
                  let (marker, fh4) := fh_read 16 fh3 in
                  if negb (bytes_eqb marker sync) then
                    Some (on_exception (sync_mismatch total) total)
                  else count_loop fuel' sync fh4 total
              end
          end
      end
  end.

(** fast_count_records(reader) on the reader of file [f]: _read_header
    leaves the stream after the header. *)
Definition fast_count_records (fuel : nat) (f : ocf)
  : option (result Z * list log_record) :=
  count_loop fuel (sync_marker f) (past_header f) 0.

(** *** The messages the except clauses tell apart *)

Lemma prefix_app (n s : string) : String.prefix n (n ++ s) = true.
Proof.
  induction n as [| c n IH]; simpl.
  - destruct s; reflexivity.
  - destruct (Ascii.ascii_dec c c) as [_ | N]; [exact IH | contradiction].
Qed.

Lemma contains_prefix (n s : string) : contains n (n ++ s) = true.
Proof.
  destruct (n ++ s)%string eqn:E; unfold contains; fold contains;
    rewrite <- E, prefix_app; reflexivity.
Qed.

Lemma on_sync_mismatch (total : Z) :
  on_exception (sync_mismatch total) total = (Ok total, [Warning total]).
Proof.
  unfold on_exception, sync_mismatch.
  change ("Sync marker does not match (after " ++ py_str total ++ " records)")%string
    with ("Sync marker does not match"
          ++ (" (after " ++ py_str total ++ " records)"))%string.
  rewrite contains_prefix. reflexivity.
Qed.

Lemma on_end_of_file (total : Z) :
  on_exception (AvroException "Read 0 bytes, expected 1 bytes") total
  = (Ok total, []).
Proof. reflexivity. Qed.

(** *** The counter against the reader *)

Lemma sum_counts_cons (b : block) (blocks : list block) :
  sum_counts (b :: blocks) = block_count b + sum_counts blocks.
Proof. reflexivity. Qed.

(** On a body the reader walks to the end, the counter returns the sum of
    the block counts, with no warning. *)
Lemma count_follows_reader (n : nat) : forall sync fh blocks,
  read_blocks n sync fh = Some blocks ->
  (position fh <= List.length (content fh))%nat ->
  file_size fh < 2 ^ 63 ->
  forall m total, (List.length blocks < m)%nat ->
  count_loop m sync fh total = Some (Ok (total + sum_counts blocks), []).
Proof.
  induction n as [| n IH]; intros sync fh blocks H B S m total Hm;
    [discriminate H |].
  destruct m as [| m]; [lia |].
  cbn [read_blocks] in H. cbn [count_loop].
  destruct (file_size fh <=? fh_tell fh) eqn:E.
  - injection H as <-. apply Z.leb_le in E.
    unfold read_long. rewrite (remaining_eof _ E). cbn [read_varint_loop].
    rewrite on_end_of_file. unfold sum_counts; cbn [fold_right]; rewrite Z.add_0_r. reflexivity.
  - destruct (read_long fh) as [[count fh1] | e1] eqn:R1; [| discriminate H].
    destruct (read_long fh1) as [[size fh2] | e2] eqn:R2; [| discriminate H].
    destruct (decoder_read size fh2) as [[data fh3] | e3] eqn:D1;
      [| discriminate H].
    destruct (decoder_read SYNC_SIZE fh3) as [[marker fh4] | e4] eqn:D2;
      [| discriminate H].
    destruct (bytes_eqb marker sync) eqn:M; [| discriminate H].
    destruct (read_blocks n sync fh4) as [blocks' |] eqn:RB;
      [| discriminate H].
    injection H as <-.
    apply read_long_ok in R1. destruct R1 as (C1 & B1 & _).
    apply read_long_ok in R2. destruct R2 as (C2 & B2 & _).
    pose proof D1 as D1'. apply decoder_read_ok in D1'.
    destruct D1' as (_ & F1 & _). apply fh_read_ok in F1.
    destruct F1 as (C3 & _ & B3). specialize (B3 B2).
    pose proof D2 as D2'. apply decoder_read_ok in D2'.
    destruct D2' as (_ & F2 & _).
    pose proof F2 as F2'. apply fh_read_ok in F2'.
    destruct F2' as (C4 & _ & B4). specialize (B4 B3).
    unfold file_size in *.
    rewrite (seek_over_payload _ _ D1)
      by (rewrite C3, C2, C1 in B3; lia).
    unfold SYNC_SIZE in F2. rewrite F2, M. cbn [negb].
    rewrite (IH sync fh4 blocks' RB B4) with (m := m)
      by (rewrite ?C4, ?C3, ?C2, ?C1; simpl in Hm; lia).
    rewrite sum_counts_cons. cbn [block_count]. rewrite Z.add_assoc.
    reflexivity.
Qed.

(** Over intact blocks the counter adds up their counts and goes on with
    what follows them. *)
Lemma count_over_intact (sync : bytes) (good : list block) :
  forall fuel fh before tail total,
  List.length sync = 16%nat ->
  Forall (intact sync) good ->
  stands fh before (flat_map encode_block good ++ tail) ->
  file_size fh < 2 ^ 63 ->
  count_loop (List.length good + fuel) sync fh total
  = count_loop fuel sync (after fh tail) (total + sum_counts good)
  /\ stands (after fh tail) (before ++ flat_map encode_block good) tail.
Proof.
  induction good as [| b good IH]; intros fuel fh before tail total Hs Hg St S.
  - cbn [flat_map app List.length Nat.add] in *. unfold sum_counts.
    cbn [fold_right]. rewrite Z.add_0_r, app_nil_r.
    assert (E : after fh tail = fh).
    { destruct St as [C P]. destruct fh as [c p]. unfold after. simpl in *.
      f_equal. rewrite C, length_app. lia. }
    rewrite E. split; [reflexivity | exact St].
  - inversion Hg as [| ? ? [Hc [Hz Hy]] Hg']; subst.
    cbn [flat_map List.length Nat.add count_loop] in *.
    unfold encode_block in St at 1. rewrite <- !app_assoc in St.
    rewrite (@read_long_stands _ _ _ _ St) by (unfold is_long; lia).
    apply stands_after in St.
    rewrite (@read_long_stands _ _ _ _ St)
      by (unfold is_long, block_size in *; lia).
    apply stands_after in St.
    unfold block_size at 1.
    rewrite (seek_over_payload _ _ (@decoder_read_stands _ _ _ _ St))
      by (pose proof (after_position fh
            (block_sync b ++ flat_map encode_block good ++ tail)) as A;
          unfold file_size in S; simpl in A |- *; lia).
    apply stands_after in St.
    replace 16 with (Z.of_nat (List.length (block_sync b)))
      by (rewrite Hs; reflexivity).
    rewrite (@fh_read_stands _ _ _ _ St), bytes_eqb_refl. cbn [negb].
    apply stands_after in St.
    destruct (IH fuel _ _ tail (total + block_count b) Hs Hg' St S)
      as [IH1 IH2].
    rewrite IH1. split.
    + rewrite sum_counts_cons, Z.add_assoc. reflexivity.
    + unfold encode_block at 1.
      repeat rewrite <- app_assoc in IH2. repeat rewrite <- app_assoc.
      exact IH2.
Qed.

Lemma flat_map_length_counts (A : Type) (g : block -> list A)
  (blocks : list block) :
  Forall (fun b => Z.of_nat (List.length (g b)) = block_count b) blocks ->
  Z.of_nat (List.length (flat_map g blocks)) = sum_counts blocks.
Proof.
  induction 1 as [| b blocks Hb _ IH]; [reflexivity |].
  cbn [flat_map]. rewrite length_app, Nat2Z.inj_add, Hb, IH. reflexivity.
Qed.

(** The round in which the sync marker does not match. *)
Lemma count_mismatch (sync : bytes) (fuel : nat) (fh : handle)
  (before rest : bytes) (c s total : Z) :
  stands fh before (write_long c ++ write_long s ++ rest) ->
  is_long c -> 0 <= s < 2 ^ 63 ->
  file_size fh + s < 2 ^ 63 ->
  bytes_eqb (firstn 16 (skipn (Z.to_nat s) rest)) sync = false ->
  count_loop (S fuel) sync fh total
  = Some (Ok (total + c), [Warning (total + c)]).
Proof.
  intros St Lc Ls S M. cbn [count_loop].
  rewrite (@read_long_stands _ _ _ _ St) by exact Lc.
  apply stands_after in St.
  rewrite (@read_long_stands _ _ _ _ St) by (unfold is_long; lia).
  apply stands_after in St.
  match type of St with
  | stands ?h _ _ =>
      assert (Cf : content h = content fh) by reflexivity;
      set (fh2 := h) in *
  end.
  clearbody fh2. destruct St as [C P]. destruct fh2 as [c2 p2].
  cbn [content position] in C, P, Cf.
  unfold file_size in S. rewrite <- Cf, C, length_app in S.
  subst c2 p2. clear Cf.
  set (pre := (before ++ write_long c) ++ write_long s) in *.
  unfold fh_seek_cur, fh_seek, fh_tell. cbn [content position].
  destruct (Z.ltb_spec (Z.of_nat (List.length pre) + s) 0) as [N | _];
    [lia |].
  destruct (Z.leb_spec (2 ^ 63) (Z.of_nat (List.length pre) + s)) as [N | _];
    [lia |].
  unfold fh_read, remaining. cbn [content position].
  change (16 <? 0) with false. cbv iota.
  replace (Z.to_nat (Z.of_nat (List.length pre) + s))
    with (List.length pre + Z.to_nat s)%nat by lia.
  rewrite skipn_past.
  change (Z.to_nat 16) with 16%nat. rewrite M. cbn [negb].
  rewrite on_sync_mismatch. reflexivity.
Qed.

Section Correctness.

(** The Avro codec, as in [Framing.decode]. *)
Variable record : Type.
Variable decode_block : option bytes -> bytes -> Z -> bytes -> list record.

(** The payload of [b] decodes to as many records as [b] declares. *)
Definition holds_declared_count (f : ocf) (b : block) : Prop :=
  Z.of_nat
    (List.length
       (decode_block (schema_of f) (codec_of f) (block_count b)
          (block_data b)))
  = block_count b.

(** Any round of the loop in which the sixteen bytes read after the seek
    are not the sync marker ends the loop. *)
Lemma count_round_mismatch (fuel : nat) (sync marker : bytes)
  (fh fh1 fh2 fh3 fh4 : handle) (c s total : Z) :
  read_long fh = Ok (c, fh1) ->
  read_long fh1 = Ok (s, fh2) ->
  fh_seek_cur s fh2 = Ok fh3 ->
  fh_read 16 fh3 = (marker, fh4) ->
  bytes_eqb marker sync = false ->
  count_loop (S fuel) sync fh total
  = Some (Ok (total + c), [Warning (total + c)]).
Proof.
  intros R1 R2 K R M. cbn [count_loop].
  rewrite R1, R2, K, R, M. cbn [negb]. rewrite on_sync_mismatch.
  reflexivity.
Qed.

(** C5: on a file the reader walks to the end, each block holding the
    records it declares, the fast counter returns the number of records the
    file decodes to and logs nothing; on a file where, after intact blocks,
    a block header is followed by a trailing marker that is not the sync
    marker (or by the end of the file), it returns without raising the total
    counted so far, the count of that last header included, and logs the
    warning; and so does any round of the scan that meets such a marker.
    Enough fuel is one round more than there are blocks. *)
Theorem fast_count_correct :
  (forall (f : ocf) (blocks : list block) (fuel : nat),
     file_blocks f = Some blocks ->
     Forall (holds_declared_count f) blocks ->
     Z.of_nat (List.length (file_bytes f)) < 2 ^ 63 ->
     (List.length blocks < fuel)%nat ->
     exists recs,
       decode decode_block f = Some recs
       /\ fast_count_records fuel f
          = Some (Ok (Z.of_nat (List.length recs)), []))
  /\ (forall (f : ocf) (good : list block) (c s : Z) (rest : bytes)
        (fuel : nat),
        body f = flat_map encode_block good
                 ++ write_long c ++ write_long s ++ rest ->
        Forall (intact (sync_marker f)) good ->
        List.length (sync_marker f) = 16%nat ->
        is_long c -> 0 <= s < 2 ^ 63 ->
        Z.of_nat (List.length (file_bytes f)) + s < 2 ^ 63 ->
        bytes_eqb (firstn 16 (skipn (Z.to_nat s) rest)) (sync_marker f)
        = false ->
        (List.length good < fuel)%nat ->
        fast_count_records fuel f
        = Some (Ok (sum_counts good + c), [Warning (sum_counts good + c)]))
  /\ (forall (fuel : nat) (sync marker : bytes) (fh fh1 fh2 fh3 fh4 : handle)
        (c s total : Z),
        read_long fh = Ok (c, fh1) ->
        read_long fh1 = Ok (s, fh2) ->
        fh_seek_cur s fh2 = Ok fh3 ->
        fh_read 16 fh3 = (marker, fh4) ->
        bytes_eqb marker sync = false ->
        count_loop (S fuel) sync fh total
        = Some (Ok (total + c), [Warning (total + c)])).
Proof.
  split; [| split].
  - intros f blocks fuel Hb Hd Hs Hf.
    unfold decode. rewrite Hb. eexists. split; [reflexivity |].
    unfold decode_blocks. rewrite (flat_map_length_counts _ Hd).
    unfold fast_count_records, file_blocks in *.
    rewrite (count_follows_reader _ _ _ Hb) with (m := fuel) (total := 0).
    + reflexivity.
    + unfold past_header, file_bytes. cbn [position content].
      rewrite length_app. lia.
    + exact Hs.
    + exact Hf.
  - intros f good c s rest fuel Hb Hg Hy Lc Ls Hs M Hf.
    unfold fast_count_records.
    assert (St : stands (past_header f) (header_data f)
                   (flat_map encode_block good
                    ++ write_long c ++ write_long s ++ rest)).
    { unfold stands, past_header, file_bytes. cbn [content position].
      rewrite Hb. split; reflexivity. }
    replace fuel with (List.length good + S (fuel - S (List.length good)))%nat
      by lia.
    assert (Sz : file_size (past_header f) < 2 ^ 63).
    { unfold file_size, past_header. cbn [content]. lia. }
    destruct (@count_over_intact (sync_marker f) good
                (S (fuel - S (List.length good))) (past_header f)
                (header_data f) (write_long c ++ write_long s ++ rest) 0
                Hy Hg St Sz) as [E St'].
    rewrite E.
    apply count_mismatch with (before := header_data f ++ flat_map encode_block good)
                              (rest := rest) (s := s); auto.
  - intros fuel sync marker fh fh1 fh2 fh3 fh4 c s total.
    apply count_round_mismatch.
Qed.

End Correctness.

(** A file of two blocks, of three and one records, and the same file
    while a writer has started a third block of five records; in this toy
    codec every payload byte is a record. *)
Definition sample_sync : bytes := [1;2;3;4;5;6;7;8;9;10;11;12;13;14;15;16].

Definition sample_blocks : list block :=
  [ {| block_count := 3; block_data := [10; 20; 30];
       block_sync := sample_sync |};
    {| block_count := 1; block_data := [7]; block_sync := sample_sync |} ].

Definition sample_file : ocf :=
  {| header_data := [79; 98; 106; 1]; meta := [];
     sync_marker := sample_sync;
     body := flat_map encode_block sample_blocks |}.

Definition growing_file : ocf :=
  {| header_data := [79; 98; 106; 1]; meta := [];
     sync_marker := sample_sync;
     body := flat_map encode_block sample_blocks
             ++ write_long 5 ++ write_long 2 ++ [1; 1; 0; 0] |}.

Definition byte_records (_ : option bytes) (_ : bytes) (count : Z)
  (payload : bytes) : list Z :=
  firstn (Z.to_nat count) payload.

Lemma fast_count_correct_witness :
  (exists recs,
     decode byte_records sample_file = Some recs
     /\ fast_count_records 3 sample_file
        = Some (Ok (Z.of_nat (List.length recs)), []))
  /\ fast_count_records 3 growing_file = Some (Ok 9, [Warning 9]).
Proof.
  split.
  - apply (proj1 (fast_count_correct byte_records)) with (blocks := sample_blocks).
    + reflexivity.
    + repeat constructor.
    + vm_compute. reflexivity.
    + simpl. lia.
  - apply (proj1 (proj2 (fast_count_correct byte_records))) with
      (good := sample_blocks) (c := 5) (s := 2) (rest := [1; 1; 0; 0]).
    + reflexivity.
    + repeat constructor; vm_compute; congruence.
    + reflexivity.
    + unfold is_long. lia.
    + lia.
    + vm_compute. reflexivity.
    + reflexivity.
    + simpl. lia.
Defined.

(** *** count: the inputs one after the other *)

(** count(input_urls): the fast counts added up in input order, an
    exception of one input ending the call, and what the calls log; [fuel]
    bounds the rounds of each input's loop. *)
Fixpoint count_from (fuel : nat) (input_urls : list ocf) (total_count : Z)
  : option (result Z * list log_record) :=
  match input_urls with
  | [] => Some (Ok total_count, [])
  | url :: rest =>
      match fast_count_records fuel url with
      | None => None
      | Some (Raise e, logs) => Some (Raise e, logs)
      | Some (Ok n, logs) =>
          match count_from fuel rest (total_count + n) with
          | None => None
          | Some (r, logs') => Some (r, (logs ++ logs')%list)
          end
      end
  end.

Definition count (fuel : nat) (input_urls : list ocf)
  : option (result Z * list log_record) :=
  count_from fuel input_urls 0.

(** A file the reader walks to the end, of a size a seek can name. *)
Definition walks (f : ocf) (blocks : list block) : Prop :=
  file_blocks f = Some blocks
  /\ Z.of_nat (List.length (file_bytes f)) < 2 ^ 63.

Lemma read_blocks_length (n : nat) : forall sync fh blocks,
  read_blocks n sync fh = Some blocks -> (List.length blocks < n)%nat.
Proof.
  induction n as [| n IH]; intros sync fh blocks H; [discriminate H |].
  cbn [read_blocks] in H.
  destruct (file_size fh <=? fh_tell fh).
  - injection H as <-. cbn [List.length]. lia.
  - destruct (read_long fh) as [[count fh1] | e1]; [| discriminate H].
    destruct (read_long fh1) as [[size fh2] | e2]; [| discriminate H].
    destruct (decoder_read size fh2) as [[data fh3] | e3]; [| discriminate H].
    destruct (decoder_read SYNC_SIZE fh3) as [[marker fh4] | e4];
      [| discriminate H].
    destruct (bytes_eqb marker sync); [| discriminate H].
    destruct (read_blocks n sync fh4) as [blocks' |] eqn:RB;
      [| discriminate H].
    injection H as <-. apply IH in RB. cbn [List.length]. lia.
Qed.

Lemma sum_counts_app (a b : list block) :
  sum_counts (a ++ b) = sum_counts a + sum_counts b.
Proof.
  induction a as [| x a IH]; [reflexivity |].
  cbn [app]. rewrite !sum_counts_cons, IH. lia.
Qed.

Lemma fast_count_walks (f : ocf) (blocks : list block) (fuel : nat) :
  walks f blocks -> (List.length blocks < fuel)%nat ->
  fast_count_records fuel f = Some (Ok (sum_counts blocks), []).
Proof.
  intros [Hb Hs] Hf. unfold fast_count_records, file_blocks in *.
  rewrite (@count_follows_reader _ _ _ _ Hb) with (m := fuel) (total := 0).
  - reflexivity.
  - unfold past_header, file_bytes. cbn [position content].
    rewrite length_app. lia.
  - exact Hs.
  - exact Hf.
Qed.

Lemma count_from_walks (fuel : nat) (inputs : list ocf) :
  forall (blocks : list (list block)) (total : Z),
  Forall2 walks inputs blocks ->
  Forall (fun bs => (List.length bs < fuel)%nat) blocks ->
  count_from fuel inputs total
  = Some (Ok (total + sum_counts (List.concat blocks)), []).
Proof.
  induction inputs as [| f inputs IH]; intros blocks total W F;
    inversion W as [| ? bs ? rest Wf W']; subst; cbn [count_from List.concat].
  - unfold sum_counts. cbn [fold_right]. rewrite Z.add_0_r. reflexivity.
  - inversion F as [| ? ? Ff F']; subst.
    rewrite (fast_count_walks Wf Ff), (IH rest _ W' F').
    rewrite sum_counts_app, Z.add_assoc. reflexivity.
Qed.

(** X7: Over inputs the reader walks to the end, count returns the sum of the
    counts all their blocks declare, input after input, and logs nothing;
    one round more than the longest input has blocks is fuel enough. *)
Theorem count_adds_up (fuel : nat) (inputs : list ocf)
  (blocks : list (list block)) :
  Forall2 walks inputs blocks ->
  Forall (fun bs => (List.length bs < fuel)%nat) blocks ->
  count fuel inputs = Some (Ok (sum_counts (List.concat blocks)), []).
Proof.
  intros W F. unfold count.
  rewrite (count_from_walks 0 W F). rewrite Z.add_0_l. reflexivity.
Qed.

(** X8: count stops at the first input whose counter raises: the inputs after
    it are not read, and the call raises that exception. *)
Theorem count_stops_at_failure (fuel : nat) (good : list ocf)
  (blocks : list (list block)) (bad : ocf) (others : list ocf)
  (e : exn) (logs : list log_record) :
  Forall2 walks good blocks ->
  Forall (fun bs => (List.length bs < fuel)%nat) blocks ->
  fast_count_records fuel bad = Some (Raise e, logs) ->
  count fuel (good ++ bad :: others) = Some (Raise e, logs).
Proof.
  intros W F B. unfold count. generalize 0 as total.
  induction W as [| f bs good blocks Wf W IH]; intros total.
  - cbn [app count_from]. rewrite B. reflexivity.
  - inversion F as [| ? ? Ff F']; subst.
    cbn [app count_from]. rewrite (fast_count_walks Wf Ff), (IH F').
    reflexivity.
Qed.

(** A file whose only block header declares a size that takes the seek
    before the start of the file. *)
Definition backward_file : ocf :=
  {| header_data := [79; 98; 106; 1]; meta := [];
     sync_marker := sample_sync;
     body := write_long 1 ++ write_long (-100) |}.

Lemma count_adds_up_witness :
  count 3 [sample_file; sample_file]
  = Some (Ok (sum_counts (List.concat [sample_blocks; sample_blocks])), []).
Proof.
  apply (@count_adds_up 3 [sample_file; sample_file]
           [sample_blocks; sample_blocks]).
  - repeat constructor; vm_compute; reflexivity.
  - repeat constructor.
Defined.

Lemma count_stops_at_failure_witness :
  count 3 ([sample_file] ++ backward_file :: [sample_file])
  = Some (Raise OSError, [Error OSError]).
Proof.
  apply (@count_stops_at_failure 3 [sample_file] [sample_blocks]
           backward_file [sample_file] OSError [Error OSError]).
  - repeat constructor; vm_compute; reflexivity.
  - repeat constructor.
  - vm_compute. reflexivity.
Defined.

End Count.

(** ** tools/repair.py: the repair loop *)

Module Repair.

Import Framing.
Open Scope Z_scope.

(** f.read(n) of a buffered binary file: a size that does not fit a C
    ssize_t is an OverflowError, a size below -1 a ValueError, and -1 reads
    to the end of the file. *)
Definition file_read (n : Z) (fh : handle) : result (bytes * handle) :=
  if (2 ^ 63 <=? n) || (n <? - 2 ^ 63) then Raise OverflowError
  else if n <? -1 then
    Raise (ValueError "read length must be non-negative or -1")
  else Ok (fh_read n fh).

Fixpoint starts_with (sub bs : bytes) : bool :=
  match sub, bs with
  | [], _ => true
  | x :: sub', y :: bs' => Z.eqb x y && starts_with sub' bs'
  | _ :: _, [] => false
  end.

(** buffer.find(sub): the first index, if any. *)
Fixpoint bytes_find (sub buffer : bytes) : option nat :=
  if starts_with sub buffer then Some O
  else
    match buffer with
    | [] => None
    | _ :: buffer' => option_map S (bytes_find sub buffer')
    end.

(** buffer[start:] *)
Definition slice_from (start : Z) (buffer : bytes) : bytes :=
  let len := Z.of_nat (List.length buffer) in
  let i := if start <? 0 then Z.max (len + start) 0 else Z.min start len in
  skipn (Z.to_nat i) buffer.

(** The while loop of scan_to_next_sync_marker; [None] when the fuel ran
    out.  The seek target lies within the bytes already read, so the seek
    cannot fail. *)
Fixpoint scan_loop (fuel : nat) (fh : handle) (sync_marker : bytes)
  (chunk_size : Z) (buffer : bytes) : option (bool * handle) :=
  match fuel with
  | O => None
  | S fuel' =>
      let sync_marker_len := Z.of_nat (List.length sync_marker) in
      let (chunk, fh1) := fh_read chunk_size fh in
      match chunk with
      | [] => Some (false, fh1)
      | _ :: _ =>
          let buffer := buffer ++ chunk in
          match bytes_find sync_marker buffer with
          | Some idx =>
              Some (true,
                    {| content := content fh1;
                       position :=
                         Z.to_nat (fh_tell fh1 - Z.of_nat (List.length buffer)
                                   + Z.of_nat idx + sync_marker_len) |})
          | None =>
              scan_loop fuel' fh1 sync_marker chunk_size
                (slice_from (- (sync_marker_len - 1)) buffer)
          end
      end
  end.

(** scan_to_next_sync_marker(fh, sync_marker), chunk_size=8192; every
    round but the last reads at least one byte. *)
Definition scan_to_next_sync_marker (fh : handle) (sync_marker : bytes)
  : option (bool * handle) :=
  scan_loop (S (List.length (remaining fh))) fh sync_marker 8192 [].

Section RepairLoop.

(** DatumReader(schema).read(decoder) on the bytes left of a payload: a
    record and the bytes after it, or nothing when it raises. *)
Variable record : Type.
Variable read_datum : bytes -> option (record * bytes).

(** The for loop over range(block_count): the output after the appends, and
    whether a record failed to decode. *)
Fixpoint decode_records (n : nat) (data : bytes) (out : list record)
  : list record * bool :=
  match n with
  | O => (out, false)
  | S n' =>
      match read_datum data with
      | None => (out, true)
      | Some (r, data') => decode_records n' data' (out ++ [r])
      end
  end.

(** What one round of the while loop leads to: the next round or the end
    of the loop. *)
Inductive round : Type :=
| Next (f : handle) (out : list record) (count_blocks count_corrupt_blocks : Z)
| Done (out : list record) (count_blocks count_corrupt_blocks : Z).

(** except Exception: block-level corruption. *)
Definition on_block_error (sync_marker : bytes) (f : handle)
  (out : list record) (count_blocks count_corrupt_blocks : Z)
  : option round :=
  let count_corrupt_blocks := count_corrupt_blocks + 1 in
  match scan_to_next_sync_marker f sync_marker with
  | None => None
  | Some (false, _) => Some (Done out count_blocks count_corrupt_blocks)
  | Some (true, f') => Some (Next f' out count_blocks count_corrupt_blocks)
  end.

Definition on_exception (e : exn) (sync_marker : bytes) (f : handle)
  (out : list record) (count_blocks count_corrupt_blocks : Z)
  : option round :=
  match e with
  | EOFError => Some (Done out count_blocks count_corrupt_blocks)
  | _ => on_block_error sync_marker f out count_blocks count_corrupt_blocks
  end.

Definition repair_round (sync_marker : bytes) (f : handle)
  (out : list record) (count_blocks count_corrupt_blocks : Z)
  : option round :=
  match read_varint f with
  | Raise e => on_exception e sync_marker f out count_blocks count_corrupt_blocks
  | Ok (block_count, f1) =>
      match read_varint f1 with
      | Raise e =>
          on_exception e sync_marker f1 out count_blocks count_corrupt_blocks
      | Ok (block_size, f2) =>
          match file_read block_size f2 with
          | Raise e =>
              on_exception e sync_marker f2 out count_blocks
                count_corrupt_blocks
          | Ok (block_data, f3) =>
              let count_blocks := count_blocks + 1 in
              let (sync_check, f4) := fh_read SYNC_SIZE f3 in
              if negb (bytes_eqb sync_check sync_marker) then
                let count_corrupt_blocks := count_corrupt_blocks + 1 in
                match scan_to_next_sync_marker f4 sync_marker with
                | None => None
                | Some (false, _) =>
                    Some (Done out count_blocks count_corrupt_blocks)
                | Some (true, f5) =>
                    Some (Next f5 out count_blocks count_corrupt_blocks)
                end
              else
                let (out', failed) :=
                  decode_records (Z.to_nat block_count) block_data out in
                Some (Next f4 out' count_blocks
                        (if failed then count_corrupt_blocks + 1
                         else count_corrupt_blocks))
          end
      end
  end.

(** The while loop: the records written and the two counters of the
    report; [None] when the fuel ran out. *)
Fixpoint repair_loop (fuel : nat) (sync_marker : bytes) (f : handle)
  (out : list record) (count_blocks count_corrupt_blocks : Z)
  : option (result (list record * Z * Z)) :=
  match fuel with
  | O => None
  | S fuel' =>
      match repair_round sync_marker f out count_blocks count_corrupt_blocks with
      | None => None
      | Some (Done out' cb cc) => Some (Ok (out', cb, cc))
      | Some (Next f' out' cb cc) => repair_loop fuel' sync_marker f' out' cb cc
      end
  end.

(** read_header's codec test, then the loop from the first block. *)
Definition repair (fuel : nat) (input : ocf)
  : option (result (list record * Z * Z)) :=
  if bytes_eqb (codec_of input) NULL_CODEC then
    repair_loop fuel (sync_marker input) (past_header input) [] 0 0
  else Some (Raise (ValueError "Unsupported codec")).

(** Reading [n] records in a row from a payload. *)
Fixpoint read_records (n : nat) (data : bytes) : option (list record * bytes) :=
  match n with
  | O => Some ([], data)
  | S n' =>
      match read_datum data with
      | None => None
      | Some (r, data') =>
          match read_records n' data' with
          | None => None
          | Some (rs, data'') => Some (r :: rs, data'')
          end
      end
  end.

(** *** A record that fails to decode *)

Lemma decode_records_fails (n : nat) : forall data out rs data',
  read_records (List.length rs) data = Some (rs, data') ->
  read_datum data' = None ->
  (List.length rs < n)%nat ->
  decode_records n data out = (out ++ rs, true).
Proof.
  induction n as [| n IH]; intros data out rs data' R F L; [lia |].
  destruct rs as [| r rs]; cbn [List.length read_records] in R.
  - injection R as <-. cbn [decode_records]. rewrite F, app_nil_r.
    reflexivity.
  - cbn [decode_records].
    destruct (read_datum data) as [[r0 d0] |]; [| discriminate R].
    destruct (read_records (List.length rs) d0) as [[rs0 d1] |] eqn:E;
      [| discriminate R].
    injection R as <- <- <-.
    rewrite (IH d0 (out ++ [r0]) rs0 d1) by (auto; simpl in L; lia).
    rewrite <- app_assoc. reflexivity.
Qed.

(** C6: in a round whose block has the expected trailing sync marker and
    whose records [rs] decode until the next one fails, the round ends with
    [rs] appended to the output and nothing else of the block, one more block
    counted and one more corrupt block, and hands the loop the file right
    after that marker; so the loop goes on from there with these values. *)
Theorem corrupt_record_abandons_block (sync_marker : bytes)
  (f f1 f2 f3 f4 : handle) (block_count block_size : Z)
  (block_data : bytes) (out rs : list record) (left : bytes)
  (count_blocks count_corrupt_blocks : Z) :
  read_varint f = Ok (block_count, f1) ->
  read_varint f1 = Ok (block_size, f2) ->
  file_read block_size f2 = Ok (block_data, f3) ->
  fh_read SYNC_SIZE f3 = (sync_marker, f4) ->
  read_records (List.length rs) block_data = Some (rs, left) ->
  read_datum left = None ->
  Z.of_nat (List.length rs) < block_count ->
  repair_round sync_marker f out count_blocks count_corrupt_blocks
  = Some (Next f4 (out ++ rs) (count_blocks + 1) (count_corrupt_blocks + 1))
  /\ forall fuel,
       repair_loop (S fuel) sync_marker f out count_blocks
         count_corrupt_blocks
       = repair_loop fuel sync_marker f4 (out ++ rs) (count_blocks + 1)
           (count_corrupt_blocks + 1).
Proof.
  intros R1 R2 R3 R4 D F L.
  assert (E : repair_round sync_marker f out count_blocks count_corrupt_blocks
              = Some (Next f4 (out ++ rs) (count_blocks + 1)
                        (count_corrupt_blocks + 1))).
  { unfold repair_round.
    rewrite R1, R2, R3, R4, bytes_eqb_refl. cbn [negb].
    rewrite (@decode_records_fails (Z.to_nat block_count) block_data out rs
               left) by (auto; lia).
    reflexivity. }
  split; [exact E |].
  intros fuel. cbn [repair_loop]. rewrite E. reflexivity.
Qed.

End RepairLoop.

(** A file in a toy codec where every payload byte is a record and the
    byte 255 does not decode: a block declaring three records whose second
    is broken, then a block of two records. *)
Definition toy_read_datum (data : bytes) : option (Z * bytes) :=
  match data with
  | [] => None
  | b :: data' => if Z.eqb b 255 then None else Some (b, data')
  end.

Definition toy_sync : bytes := [9;9;9;9;9;9;9;9;9;9;9;9;9;9;9;9].

Definition broken_file : ocf :=
  {| header_data := [79; 98; 106; 1]; meta := [];
     sync_marker := toy_sync;
     body :=
       encode_block {| Framing.block_count := 3;
                       Framing.block_data := [10; 255; 30];
                       block_sync := toy_sync |}
       ++ encode_block {| Framing.block_count := 2;
                          Framing.block_data := [40; 50];
                          block_sync := toy_sync |} |}.

Definition at_byte (n : nat) : handle :=
  {| content := file_bytes broken_file; position := n |}.

Lemma corrupt_record_abandons_block_witness :
  repair_round toy_read_datum toy_sync (at_byte 4) [] 0 0
  = Some (Next (at_byte 25) ([] ++ [10]) (0 + 1) (0 + 1))
  /\ forall fuel,
       repair_loop toy_read_datum (S fuel) toy_sync (at_byte 4) [] 0 0
       = repair_loop toy_read_datum fuel toy_sync (at_byte 25) ([] ++ [10])
           (0 + 1) (0 + 1).
Proof.
  apply (@corrupt_record_abandons_block Z toy_read_datum toy_sync
           (at_byte 4) (at_byte 5) (at_byte 6) (at_byte 9) (at_byte 25)
           3 3 [10; 255; 30] [] [10] [255; 30] 0 0).
  - reflexivity.
  - reflexivity.
  - reflexivity.
  - reflexivity.
  - reflexivity.
  - reflexivity.
  - simpl. lia.
Defined.

(** The whole repair of that file: the record before the broken one and
    the two records of the second block, two blocks, one of them corrupt. *)
Example repair_broken_file :
  repair toy_read_datum 4 broken_file = Some (Ok ([10; 40; 50], 2, 1)).
Proof. reflexivity. Qed.

(** *** Varints: reading back what the encoder wrote *)

Lemma read_varint_loop_cut (fuel : nat) : forall n k shift acc,
  (k < List.length (write_varint fuel n))%nat ->
  read_varint_loop (firstn k (write_varint fuel n)) shift acc = None.
Proof.
  induction fuel as [| fuel IH]; intros n k shift acc L.
  - cbn [write_varint List.length] in *. replace k with O by lia. reflexivity.
  - cbn [write_varint] in *.
    destruct (Z.land n (Z.lnot 127) =? 0).
    + cbn [List.length] in L. replace k with O by lia. reflexivity.
    + destruct k as [| k]; [reflexivity |].
      cbn [firstn read_varint_loop List.length] in *.
      destruct (continuation_byte n) as [_ C]. rewrite C.
      change (128 =? 0) with false. cbv iota.
      apply IH. lia.
Qed.

(** X9: read_varint reads back every 64-bit long from the bytes the Avro
    encoder writes for it, wherever they stand in the file, and leaves the
    file right after them. *)
Theorem read_varint_inverts_write_long (before rest : bytes) (z : Z) :
  is_long z ->
  read_varint {| content := before ++ write_long z ++ rest;
                 position := List.length before |}
  = Ok (z, {| content := before ++ write_long z ++ rest;
              position := List.length before
                          + List.length (write_long z) |}).
Proof.
  intros L.
  rewrite (@read_varint_stands _ before rest z);
    [| split; reflexivity | exact L].
  unfold after. cbn [content]. do 2 f_equal. f_equal.
  rewrite !length_app. lia.
Qed.

Lemma read_varint_inverts_write_long_witness :
  read_varint {| content := [79; 98] ++ write_long (-300) ++ [5];
                 position := List.length [79; 98] |}
  = Ok (-300, {| content := [79; 98] ++ write_long (-300) ++ [5];
                 position := List.length [79; 98]
                             + List.length (write_long (-300)) |}).
Proof.
  apply (@read_varint_inverts_write_long [79; 98] [5] (-300)).
  unfold is_long. lia.
Defined.

(** X10: A file that ends inside a varint: read_varint raises EOFError, for
    every proper prefix of the bytes of every long. *)
Theorem read_varint_truncated (before : bytes) (z : Z) (k : nat) :
  (k < List.length (write_long z))%nat ->
  read_varint {| content := before ++ firstn k (write_long z);
                 position := List.length before |}
  = Raise EOFError.
Proof.
  intros L. unfold read_varint, remaining. cbn [content position].
  replace (List.length before) with (List.length before + 0)%nat by lia.
  rewrite skipn_past. cbn [skipn].
  unfold write_long in *. rewrite read_varint_loop_cut by exact L.
  reflexivity.
Qed.

Lemma read_varint_truncated_witness :
  read_varint {| content := [79] ++ firstn 1 (write_long 300);
                 position := List.length [79] |}
  = Raise EOFError.
Proof.
  apply (@read_varint_truncated [79] 300 1). vm_compute. lia.
Defined.

(** *** The chunked scan against one find over the rest of the file *)

Lemma starts_with_length (sub bs : bytes) :
  starts_with sub bs = true -> (List.length sub <= List.length bs)%nat.
Proof.
  revert bs. induction sub as [| x sub IH]; intros [| y bs] H;
    cbn [starts_with List.length] in *; try lia; try discriminate.
  apply andb_true_iff in H. destruct H as [_ H]. apply IH in H. lia.
Qed.

Lemma starts_with_app (sub bs more : bytes) :
  starts_with sub bs = true -> starts_with sub (bs ++ more) = true.
Proof.
  revert bs. induction sub as [| x sub IH]; intros [| y bs] H;
    cbn [starts_with app] in *; try reflexivity; try discriminate.
  apply andb_true_iff in H. destruct H as [E H].
  rewrite E, (IH _ H). reflexivity.
Qed.

Lemma starts_with_within (sub bs more : bytes) :
  starts_with sub (bs ++ more) = true ->
  (List.length sub <= List.length bs)%nat ->
  starts_with sub bs = true.
Proof.
  revert bs. induction sub as [| x sub IH]; intros [| y bs] H L;
    cbn [starts_with app List.length] in *; try reflexivity; try lia.
  apply andb_true_iff in H. destruct H as [E H].
  rewrite E, (IH _ H) by lia. reflexivity.
Qed.

Lemma bytes_find_fits (sub : bytes) : forall bs i,
  bytes_find sub bs = Some i ->
  (i + List.length sub <= List.length bs)%nat.
Proof.
  induction bs as [| y bs IH]; intros i H; cbn [bytes_find] in H.
  - destruct (starts_with sub []) eqn:E; [| discriminate H].
    injection H as <-. apply starts_with_length in E. lia.
  - destruct (starts_with sub (y :: bs)) eqn:E.
    + injection H as <-. apply starts_with_length in E. lia.
    + destruct (bytes_find sub bs) as [j |]; [| discriminate H].
      injection H as <-. specialize (@IH j eq_refl). cbn [List.length]. lia.
Qed.

(** An occurrence found in a prefix is the first one of the whole. *)
Lemma bytes_find_app (sub : bytes) : forall bs more i,
  bytes_find sub bs = Some i -> bytes_find sub (bs ++ more) = Some i.
Proof.
  induction bs as [| y bs IH]; intros more i H.
  - cbn [bytes_find] in H.
    destruct (starts_with sub []) eqn:E; [| discriminate H].
    injection H as <-. destruct sub; [| discriminate E].
    destruct more; reflexivity.
  - cbn [bytes_find app] in *.
    destruct (starts_with sub (y :: bs)) eqn:E.
    + pose proof (@starts_with_app sub (y :: bs) more E) as E'.
      cbn [app] in E'. rewrite E'. exact H.
    + destruct (bytes_find sub bs) as [j |] eqn:F; [| discriminate H].
      injection H as <-.
      destruct (starts_with sub (y :: bs ++ more)) eqn:E2.
      * apply bytes_find_fits in F.
        rewrite (@starts_with_within sub (y :: bs) more) in E;
          [discriminate E | exact E2 | cbn [List.length]; lia].
      * rewrite (@IH more j eq_refl). reflexivity.
Qed.

(** The first occurrence in the whole lies in the prefix when it fits
    there. *)
Lemma bytes_find_within (sub : bytes) : forall bs more i,
  bytes_find sub (bs ++ more) = Some i ->
  (i + List.length sub <= List.length bs)%nat ->
  bytes_find sub bs = Some i.
Proof.
  induction bs as [| y bs IH]; intros more i H L.
  - cbn [List.length] in L. assert (i = O) by lia. subst i.
    destruct sub; [reflexivity | cbn [List.length] in L; lia].
  - cbn [bytes_find app] in *.
    destruct (starts_with sub (y :: bs ++ more)) eqn:E.
    + injection H as <-.
      rewrite (@starts_with_within sub (y :: bs) more);
        [reflexivity | exact E | cbn [List.length] in *; lia].
    + destruct (bytes_find sub (bs ++ more)) as [j |] eqn:F;
        [| discriminate H].
      injection H as <-.
      destruct (starts_with sub (y :: bs)) eqn:E2.
      * pose proof (@starts_with_app sub (y :: bs) more E2) as E'.
        cbn [app] in E'. rewrite E' in E. discriminate E.
      * rewrite (@IH more j F) by (cbn [List.length] in L; lia). reflexivity.
Qed.

Lemma bytes_find_skipn (sub : bytes) : forall d bs i,
  bytes_find sub bs = Some i -> (d <= i)%nat ->
  bytes_find sub (skipn d bs) = Some (i - d)%nat.
Proof.
  induction d as [| d IH]; intros bs i H L.
  - cbn [skipn]. rewrite Nat.sub_0_r. exact H.
  - destruct bs as [| y bs].
    + apply bytes_find_fits in H. cbn [List.length] in H. lia.
    + cbn [bytes_find skipn] in *.
      destruct (starts_with sub (y :: bs)) eqn:E.
      * injection H as <-. lia.
      * destruct (bytes_find sub bs) as [j |] eqn:F; [| discriminate H].
        injection H as <-. rewrite (@IH bs j F) by lia. reflexivity.
Qed.

Lemma bytes_find_none_app (sub bs more : bytes) :
  bytes_find sub (bs ++ more) = None -> bytes_find sub bs = None.
Proof.
  intros H. destruct (bytes_find sub bs) as [i |] eqn:F; [| reflexivity].
  rewrite (@bytes_find_app sub bs more i F) in H. discriminate H.
Qed.

Lemma bytes_find_none_skipn (sub : bytes) : forall d bs,
  bytes_find sub bs = None -> bytes_find sub (skipn d bs) = None.
Proof.
  induction d as [| d IH]; intros bs H; [exact H |].
  destruct bs as [| y bs]; [exact H |].
  cbn [skipn]. apply IH. cbn [bytes_find] in H.
  destruct (starts_with sub (y :: bs)); [discriminate H |].
  destruct (bytes_find sub bs); [discriminate H | reflexivity].
Qed.

(** buffer[-(len - 1):] drops a prefix, and keeps at most len - 1 bytes
    unless len is 1, where the slice is the whole buffer. *)
Lemma slice_from_tail (len : nat) (buffer : bytes) :
  exists d,
    slice_from (- (Z.of_nat len - 1)) buffer = skipn d buffer
    /\ (d <= List.length buffer)%nat
    /\ (d + len <= S (List.length buffer) \/ d = O)%nat.
Proof.
  unfold slice_from.
  destruct (Z.ltb_spec (- (Z.of_nat len - 1)) 0) as [N | N].
  - exists (Z.to_nat (Z.max (Z.of_nat (List.length buffer)
                              + - (Z.of_nat len - 1)) 0)).
    split; [reflexivity |].
    destruct (Z.max_spec (Z.of_nat (List.length buffer)
                          + - (Z.of_nat len - 1)) 0) as [[_ ->] | [_ ->]];
      split; lia.
  - exists (Z.to_nat (Z.min (- (Z.of_nat len - 1))
                              (Z.of_nat (List.length buffer)))).
    split; [reflexivity |]. lia.
Qed.

Lemma skipn_app_within (d : nat) (l more : bytes) :
  (d <= List.length l)%nat -> skipn d (l ++ more) = skipn d l ++ more.
Proof.
  intros L. rewrite skipn_app.
  replace (d - List.length l)%nat with O by lia. reflexivity.
Qed.

Lemma remaining_after_read (n : Z) (fh : handle) :
  0 < n ->
  let (chunk, fh1) := fh_read n fh in
  chunk = firstn (Z.to_nat n) (remaining fh)
  /\ content fh1 = content fh
  /\ position fh1 = (position fh + List.length chunk)%nat
  /\ remaining fh = chunk ++ remaining fh1.
Proof.
  intros Hn. unfold fh_read.
  destruct (Z.ltb_spec n 0) as [N | _]; [lia |].
  cbn [content position]. repeat split.
  unfold remaining at 3. cbn [content position].
  rewrite Nat.add_comm, <- skipn_skipn.
  fold (remaining fh).
  rewrite length_firstn.
  destruct (Nat.min_spec (Z.to_nat n) (List.length (remaining fh)))
    as [[L ->] | [L ->]].
  - symmetry. apply firstn_skipn.
  - rewrite firstn_all2 by lia. rewrite skipn_all. rewrite app_nil_r.
    reflexivity.
Qed.

Lemma scan_loop_found (sync : bytes) (chunk_size : Z) :
  0 < chunk_size ->
  forall fuel fh buffer i,
  bytes_find sync (buffer ++ remaining fh) = Some i ->
  (List.length buffer < i + List.length sync)%nat ->
  (List.length (remaining fh) < fuel)%nat ->
  scan_loop fuel fh sync chunk_size buffer
  = Some (true,
          {| content := content fh;
             position :=
               Z.to_nat (Z.of_nat (position fh)
                         - Z.of_nat (List.length buffer)
                         + Z.of_nat i + Z.of_nat (List.length sync)) |}).
Proof.
  intros Hc. induction fuel as [| fuel IH]; intros fh buffer i F B L; [lia |].
  cbn [scan_loop].
  pose proof (@remaining_after_read chunk_size fh Hc) as R.
  destruct (fh_read chunk_size fh) as [chunk fh1].
  destruct R as (Ec & C1 & P1 & Er).
  pose proof (@bytes_find_fits _ _ _ F) as Fit. rewrite length_app in Fit.
  destruct chunk as [| c chunk].
  - exfalso. cbn [List.length app] in *.
    destruct (remaining fh) as [| r rem]; [cbn [List.length] in Fit; lia |].
    destruct (Z.to_nat chunk_size) eqn:E; [lia | discriminate Ec].
  - set (ch := c :: chunk) in *.
    rewrite Er, app_assoc in F.
    destruct (bytes_find sync (buffer ++ ch)) as [idx |] eqn:G.
    + rewrite (@bytes_find_app _ _ (remaining fh1) _ G) in F.
      injection F as ->.
      rewrite C1. do 3 f_equal. unfold fh_tell. rewrite P1, length_app. lia.
    + assert (Long : (List.length (buffer ++ ch) < i + List.length sync)%nat).
      { destruct (Nat.lt_ge_cases (List.length (buffer ++ ch))
                    (i + List.length sync)) as [Y | Y]; [exact Y |].
        rewrite (@bytes_find_within _ _ _ _ F Y) in G. discriminate G. }
      destruct (@slice_from_tail (List.length sync) (buffer ++ ch))
        as (d & Sl & D1 & D2).
      rewrite Sl.
      assert (Di : (d <= i)%nat) by lia.
      rewrite (IH fh1 (skipn d (buffer ++ ch)) (i - d)%nat).
      * rewrite C1. do 3 f_equal.
        rewrite length_skipn, P1. rewrite length_app in *. lia.
      * rewrite <- (@skipn_app_within d (buffer ++ ch) _ D1).
        exact (@bytes_find_skipn _ d _ _ F Di).
      * rewrite length_skipn. lia.
      * rewrite Er, length_app in L. subst ch. cbn [List.length] in L. lia.
Qed.

Lemma scan_loop_not_found (sync : bytes) (chunk_size : Z) :
  0 < chunk_size ->
  forall fuel fh buffer,
  bytes_find sync (buffer ++ remaining fh) = None ->
  (List.length (remaining fh) < fuel)%nat ->
  scan_loop fuel fh sync chunk_size buffer
  = Some (false,
          {| content := content fh;
             position := (position fh + List.length (remaining fh))%nat |}).
Proof.
  intros Hc. induction fuel as [| fuel IH]; intros fh buffer F L; [lia |].
  cbn [scan_loop].
  pose proof (@remaining_after_read chunk_size fh Hc) as R.
  destruct (fh_read chunk_size fh) as [chunk fh1].
  destruct R as (Ec & C1 & P1 & Er).
  destruct chunk as [| c chunk].
  - assert (E : remaining fh = []).
    { destruct (remaining fh) as [| r rem]; [reflexivity |].
      destruct (Z.to_nat chunk_size) eqn:E; [lia | discriminate Ec]. }
    rewrite E. cbn [List.length] in *. destruct fh1 as [c1 p1].
    cbn [content position] in *. subst. reflexivity.
  - set (ch := c :: chunk) in *.
    rewrite Er, app_assoc in F.
    rewrite (@bytes_find_none_app _ _ _ F).
    destruct (@slice_from_tail (List.length sync) (buffer ++ ch))
      as (d & Sl & D1 & D2).
    rewrite Sl.
    rewrite (IH fh1 (skipn d (buffer ++ ch))).
    + rewrite C1, P1. do 3 f_equal. rewrite Er, length_app. lia.
    + apply (@bytes_find_none_skipn sync d) in F.
      rewrite (@skipn_app_within d (buffer ++ ch) _ D1) in F.
      exact F.
    + rewrite Er, length_app in L. subst ch. cbn [List.length] in L. lia.
Qed.

Lemma scan_reaches_marker (fh : handle) (sync_marker : bytes) (i : nat) :
  sync_marker <> [] ->
  bytes_find sync_marker (remaining fh) = Some i ->
  scan_to_next_sync_marker fh sync_marker
  = Some (true,
          {| content := content fh;
             position := (position fh + i + List.length sync_marker)%nat |}).
Proof.
  intros N F. unfold scan_to_next_sync_marker.
  rewrite (@scan_loop_found sync_marker 8192 eq_refl _ fh [] i); auto.
  - do 3 f_equal. cbn [List.length]. lia.
  - destruct sync_marker; [contradiction | cbn [List.length]; lia].
Qed.

(** X11: scan_to_next_sync_marker finds what one find over the whole rest of the
    file finds, whatever chunk boundary the marker straddles: it returns True
    with the file positioned right after the first occurrence of the marker,
    or False at the end of the file when there is none. *)
Theorem scan_finds_first_marker (fh : handle) (sync_marker : bytes) :
  sync_marker <> [] ->
  scan_to_next_sync_marker fh sync_marker
  = match bytes_find sync_marker (remaining fh) with
    | Some i =>
        Some (true,
              {| content := content fh;
                 position :=
                   (position fh + i + List.length sync_marker)%nat |})
    | None =>
        Some (false,
              {| content := content fh;
                 position :=
                   (position fh + List.length (remaining fh))%nat |})
    end.
Proof.
  intros N. unfold scan_to_next_sync_marker.
  destruct (bytes_find sync_marker (remaining fh)) as [i |] eqn:F.
  - rewrite (@scan_loop_found sync_marker 8192 eq_refl _ fh [] i); auto.
    + do 3 f_equal. cbn [List.length]. lia.
    + destruct sync_marker; [contradiction | cbn [List.length]; lia].
  - rewrite (@scan_loop_not_found sync_marker 8192 eq_refl _ fh []); auto.
Qed.

(** A file whose marker straddles the first chunk boundary: 8190 zero bytes,
    the marker, two more bytes. *)
Definition straddling : handle :=
  {| content := repeat 0 (Z.to_nat 8190) ++ toy_sync ++ [1; 2]; position := O |}.

Lemma scan_finds_first_marker_witness :
  scan_to_next_sync_marker straddling toy_sync
  = match bytes_find toy_sync (remaining straddling) with
    | Some i =>
        Some (true,
              {| content := content straddling;
                 position :=
                   (position straddling + i + List.length toy_sync)%nat |})
    | None =>
        Some (false,
              {| content := content straddling;
                 position :=
                   (position straddling
                    + List.length (remaining straddling))%nat |})
    end.
Proof.
  apply (@scan_finds_first_marker straddling toy_sync). discriminate.
Defined.

Example scan_straddling :
  option_map (fun r => (fst r, fh_tell (snd r)))
    (scan_to_next_sync_marker straddling toy_sync)
  = Some (true, 8206).
Proof. vm_compute. reflexivity. Qed.

(** *** The loop on any file: it ends, and on an intact file keeps all *)

Lemma read_varint_ok (fh fh' : handle) (z : Z) :
  read_varint fh = Ok (z, fh') ->
  content fh' = content fh
  /\ (position fh' <= List.length (content fh'))%nat
  /\ (position fh < position fh')%nat.
Proof.
  unfold read_varint. destruct (read_varint_loop (remaining fh) 0 0)
    as [[n rest] |] eqn:E; intros H; [| discriminate H].
  injection H as _ <-. unfold after; simpl.
  apply read_varint_loop_shorter in E. rewrite remaining_length in E.
  repeat split; lia.
Qed.

Lemma read_varint_raises (fh : handle) (e : exn) :
  read_varint fh = Raise e -> e = EOFError.
Proof.
  unfold read_varint. destruct (read_varint_loop (remaining fh) 0 0)
    as [[n rest] |]; intros H; [discriminate H |].
  injection H as <-. reflexivity.
Qed.

Lemma file_read_ok (n : Z) (fh fh' : handle) (data : bytes) :
  file_read n fh = Ok (data, fh') ->
  content fh' = content fh
  /\ (position fh <= position fh')%nat
  /\ (position fh <= List.length (content fh) ->
      position fh' <= List.length (content fh'))%nat.
Proof.
  unfold file_read.
  destruct ((2 ^ 63 <=? n) || (n <? - 2 ^ 63)); [discriminate |].
  destruct (n <? -1); [discriminate |].
  intros H.
  assert (H' : fh_read n fh = (data, fh')) by congruence.
  apply fh_read_ok in H'.
  destruct H' as (C & P & B). repeat split; auto. lia.
Qed.

Lemma file_read_raises (n : Z) (fh : handle) (e : exn) :
  file_read n fh = Raise e -> e <> EOFError.
Proof.
  unfold file_read.
  destruct ((2 ^ 63 <=? n) || (n <? - 2 ^ 63)); [intros H; injection H as <-; discriminate |].
  destruct (n <? -1); intros H; [injection H as <-; discriminate | discriminate H].
Qed.

(** The scan ends on every file, and never moves the file backwards from
    where the bytes of its buffer began. *)
Lemma scan_loop_ends (sync : bytes) (chunk_size : Z) :
  0 < chunk_size ->
  forall fuel fh buffer,
  (List.length (remaining fh) < fuel)%nat ->
  (position fh <= List.length (content fh))%nat ->
  exists found fh',
    scan_loop fuel fh sync chunk_size buffer = Some (found, fh')
    /\ content fh' = content fh
    /\ (position fh - List.length buffer <= position fh')%nat
    /\ (position fh' <= List.length (content fh'))%nat.
Proof.
  intros Hc. induction fuel as [| fuel IH]; intros fh buffer L B; [lia |].
  cbn [scan_loop].
  pose proof (@remaining_after_read chunk_size fh Hc) as R.
  pose proof (@fh_read_ok chunk_size fh) as K.
  destruct (fh_read chunk_size fh) as [chunk fh1].
  destruct R as (Ec & C1 & P1 & Er).
  destruct (K fh1 chunk eq_refl) as (_ & _ & B1). specialize (B1 B).
  destruct chunk as [| c chunk].
  - exists false, fh1. cbn [List.length] in P1. repeat split; auto; lia.
  - set (ch := c :: chunk) in *.
    destruct (bytes_find sync (buffer ++ ch)) as [idx |] eqn:G.
    + apply bytes_find_fits in G. rewrite length_app in G.
      eexists _, _. split; [reflexivity |]. cbn [content position].
      unfold fh_tell. rewrite P1, length_app, C1 in *.
      repeat split; lia.
    + destruct (@slice_from_tail (List.length sync) (buffer ++ ch))
        as (d & Sl & D1 & D2).
      rewrite Sl.
      destruct (IH fh1 (skipn d (buffer ++ ch))) as (found & fh' & E & C & P & Q).
      * rewrite Er, length_app in L. subst ch. cbn [List.length] in L. lia.
      * exact B1.
      * exists found, fh'. split; [exact E |].
        rewrite length_skipn, length_app in P. rewrite C, C1 in *.
        repeat split; auto; lia.
Qed.

Lemma scan_ends (fh : handle) (sync : bytes) :
  (position fh <= List.length (content fh))%nat ->
  exists found fh',
    scan_to_next_sync_marker fh sync = Some (found, fh')
    /\ content fh' = content fh
    /\ (position fh <= position fh')%nat
    /\ (position fh' <= List.length (content fh'))%nat.
Proof.
  intros B. unfold scan_to_next_sync_marker.
  destruct (@scan_loop_ends sync 8192 eq_refl
              (S (List.length (remaining fh))) fh [] (Nat.lt_succ_diag_r _) B)
    as (found & fh' & E & C & P & Q).
  exists found, fh'. cbn [List.length] in P. repeat split; auto; lia.
Qed.

Section WholeFile.

Variable record : Type.
Variable read_datum : bytes -> option (record * bytes).

Lemma decode_records_extends (n : nat) : forall data out,
  exists more failed,
    decode_records read_datum n data out = (out ++ more, failed).
Proof.
  induction n as [| n IH]; intros data out; cbn [decode_records].
  - exists [], false. rewrite app_nil_r. reflexivity.
  - destruct (read_datum data) as [[r data'] |].
    + destruct (IH data' (out ++ [r])) as (more & failed & E).
      exists (r :: more), failed. rewrite E, <- app_assoc. reflexivity.
    + exists [], true. rewrite app_nil_r. reflexivity.
Qed.

Lemma decode_records_all (n : nat) : forall data out rs left,
  read_records read_datum n data = Some (rs, left) ->
  decode_records read_datum n data out = (out ++ rs, false).
Proof.
  induction n as [| n IH]; intros data out rs left R;
    cbn [read_records decode_records] in *.
  - injection R as <- _. rewrite app_nil_r. reflexivity.
  - destruct (read_datum data) as [[r d0] |]; [| discriminate R].
    destruct (read_records read_datum n d0) as [[rs0 d1] |] eqn:E;
      [| discriminate R].
    injection R as <- _.
    rewrite (@IH d0 (out ++ [r]) rs0 d1 E), <- app_assoc. reflexivity.
Qed.

(** What a round leads to: the output grows, the counters grow by at most
    one, and a next round starts further into the same file. *)
Definition round_advances (f : handle) (out : list record)
  (count_blocks count_corrupt_blocks : Z) (r : round record) : Prop :=
  match r with
  | Next f' out' cb cc =>
      content f' = content f
      /\ (position f < position f' <= List.length (content f'))%nat
      /\ (exists more, out' = out ++ more)
      /\ count_blocks <= cb <= count_blocks + 1
      /\ count_corrupt_blocks <= cc <= count_corrupt_blocks + 1
  | Done out' cb cc =>
      out' = out
      /\ count_blocks <= cb <= count_blocks + 1
      /\ count_corrupt_blocks <= cc <= count_corrupt_blocks + 1
      /\ (cb = count_blocks \/ position f < List.length (content f))%nat
      /\ (cc = count_corrupt_blocks \/ position f < List.length (content f))%nat
  end.

Lemma on_block_error_advances (sync_marker : bytes) (f0 f : handle)
  (out : list record) (cb cc : Z) :
  content f = content f0 ->
  (position f0 < position f <= List.length (content f))%nat ->
  exists r,
    on_block_error sync_marker f out cb cc = Some r
    /\ round_advances f0 out cb cc r.
Proof.
  intros C P. unfold on_block_error.
  destruct (@scan_ends f sync_marker) as (found & f' & E & C' & P' & Q');
    [lia |].
  rewrite E. destruct found; eexists; (split; [reflexivity |]);
    cbn [round_advances].
  - rewrite C', C in *. repeat split; try lia. exists []. now rewrite app_nil_r.
  - rewrite C in *. repeat split; try lia.
Qed.

Lemma repair_round_advances (sync_marker : bytes) (f : handle)
  (out : list record) (cb cc : Z) :
  (position f <= List.length (content f))%nat ->
  exists r,
    repair_round read_datum sync_marker f out cb cc = Some r
    /\ round_advances f out cb cc r.
Proof.
  intros B. unfold repair_round.
  destruct (read_varint f) as [[block_count f1] | e] eqn:R1.
  2:{ apply read_varint_raises in R1. subst e. cbn [on_exception].
      eexists. split; [reflexivity |]. cbn [round_advances].
      repeat split; try lia; left; reflexivity. }
  apply read_varint_ok in R1. destruct R1 as (C1 & B1 & P1).
  destruct (read_varint f1) as [[block_size f2] | e] eqn:R2.
  2:{ apply read_varint_raises in R2. subst e. cbn [on_exception].
      eexists. split; [reflexivity |]. cbn [round_advances].
      repeat split; try lia; left; reflexivity. }
  apply read_varint_ok in R2. destruct R2 as (C2 & B2 & P2).
  destruct (file_read block_size f2) as [[block_data f3] | e] eqn:R3.
  2:{ apply file_read_raises in R3.
      assert (E : on_exception e sync_marker f2 out cb cc
                  = on_block_error sync_marker f2 out cb cc)
        by (destruct e; [reflexivity | contradiction | reflexivity
                         | reflexivity | reflexivity]).
      rewrite E. apply on_block_error_advances; [congruence | lia]. }
  apply file_read_ok in R3. destruct R3 as (C3 & P3 & B3). specialize (B3 B2).
  pose proof (@fh_read_ok SYNC_SIZE f3) as K.
  destruct (fh_read SYNC_SIZE f3) as [sync_check f4].
  destruct (K f4 sync_check eq_refl) as (C4 & P4 & B4). specialize (B4 B3).
  destruct (negb (bytes_eqb sync_check sync_marker)).
  - destruct (@scan_ends f4 sync_marker B4) as (found & f5 & E & C5 & P5 & Q5).
    rewrite E. destruct found; eexists; (split; [reflexivity |]);
      cbn [round_advances].
    + rewrite C5, C4, C3, C2, C1 in *. repeat split; try lia.
      exists []. now rewrite app_nil_r.
    + rewrite C4, C3, C2, C1 in *. repeat split; try lia; right; lia.
  - destruct (decode_records_extends (Z.to_nat block_count) block_data out)
      as (more & failed & E).
    rewrite E. eexists. split; [reflexivity |]. cbn [round_advances].
    rewrite C4, C3, C2, C1 in *.
    repeat split; try lia; [exists more; reflexivity | destruct failed; lia
                           | destruct failed; lia].
Qed.

Lemma repair_loop_ends (sync_marker : bytes) : forall fuel f out cb cc,
  (position f <= List.length (content f))%nat ->
  (List.length (content f) - position f < fuel)%nat ->
  exists more cb' cc',
    repair_loop read_datum fuel sync_marker f out cb cc
    = Some (Ok (out ++ more, cb', cc'))
    /\ cb <= cb' <= cb + Z.of_nat (List.length (content f) - position f)
    /\ cc <= cc' <= cc + Z.of_nat (List.length (content f) - position f).
Proof.
  induction fuel as [| fuel IH]; intros f out cb cc B L; [lia |].
  cbn [repair_loop].
  destruct (@repair_round_advances sync_marker f out cb cc B) as (r & E & A).
  rewrite E. destruct r as [f' out' cb1 cc1 | out' cb1 cc1];
    cbn [round_advances] in A.
  - destruct A as (C & P & (more & ->) & Hb & Hc).
    destruct (IH f' (out ++ more) cb1 cc1) as (more' & cb' & cc' & E' & Hb' & Hc');
      [lia | rewrite C in *; lia |].
    exists (more ++ more'), cb', cc'. rewrite E', app_assoc.
    rewrite C in *. repeat split; try lia.
  - destruct A as (-> & Hb & Hc & Db & Dc).
    exists [], cb1, cc1. rewrite app_nil_r. repeat split; try lia.
Qed.

(** X12: repair ends on every file of the null codec, however damaged its body:
    it returns, without raising, some records and two counters that are
    at most the number of bytes in the body; one round more than the body
    has bytes is fuel enough. *)
Theorem repair_always_returns (input : ocf) (fuel : nat) :
  codec_of input = NULL_CODEC ->
  (List.length (body input) < fuel)%nat ->
  exists out count_blocks count_corrupt_blocks,
    repair read_datum fuel input
    = Some (Ok (out, count_blocks, count_corrupt_blocks))
    /\ 0 <= count_blocks <= Z.of_nat (List.length (body input))
    /\ 0 <= count_corrupt_blocks <= Z.of_nat (List.length (body input)).
Proof.
  intros Hc L. unfold repair. rewrite Hc.
  change (bytes_eqb NULL_CODEC NULL_CODEC) with true. cbv iota.
  assert (E : (List.length (content (past_header input))
               - position (past_header input))%nat
              = List.length (body input)).
  { unfold past_header, file_bytes. cbn [content position].
    rewrite length_app. lia. }
  destruct (@repair_loop_ends (sync_marker input) fuel (past_header input)
              [] 0 0) as (more & cb & cc & R & Hb & Hcc).
  - unfold past_header, file_bytes. cbn [content position].
    rewrite length_app. lia.
  - rewrite E. exact L.
  - exists more, cb, cc. rewrite E in *. auto.
Qed.

(** The records of a block, as the payload decodes to them. *)
Definition decodes_to (b : block) (rs : list record) : Prop :=
  exists left,
    read_records read_datum (Z.to_nat (block_count b)) (block_data b)
    = Some (rs, left).

Lemma repair_loop_intact (sync_marker : bytes) (blocks : list block) :
  forall recs fuel f before out cb cc,
  List.length sync_marker = 16%nat ->
  Forall (intact sync_marker) blocks ->
  Forall2 decodes_to blocks recs ->
  stands f before (flat_map encode_block blocks) ->
  (List.length blocks < fuel)%nat ->
  repair_loop read_datum fuel sync_marker f out cb cc
  = Some (Ok (out ++ List.concat recs,
              cb + Z.of_nat (List.length blocks), cc)).
Proof.
  induction blocks as [| b blocks IH];
    intros recs fuel f before out cb cc Hs Hi Hd St Hf;
    (destruct fuel as [| fuel]; [cbn [List.length] in Hf; lia |]);
    inversion Hd as [| ? rs ? recs' [left Hr] Hd']; subst;
    cbn [repair_loop].
  - unfold repair_round, read_varint.
    rewrite (stands_remaining St). cbn [flat_map read_varint_loop on_exception
                                        List.concat List.length].
    rewrite app_nil_r, Z.add_0_r. reflexivity.
  - inversion Hi as [| ? ? (Hc & Hz & Hy) Hi']; subst.
    unfold repair_round. cbn [flat_map] in St.
    unfold encode_block in St at 1. rewrite <- !app_assoc in St.
    rewrite (@read_varint_stands _ _ _ _ St) by (unfold is_long; lia).
    apply stands_after in St.
    rewrite (@read_varint_stands _ _ _ _ St)
      by (unfold is_long, block_size in *; lia).
    apply stands_after in St.
    unfold file_read.
    destruct (Z.leb_spec (2 ^ 63) (block_size b)) as [N | _]; [lia |].
    destruct (Z.ltb_spec (block_size b) (- 2 ^ 63)) as [N | _];
      [unfold block_size in N; lia |].
    destruct (Z.ltb_spec (block_size b) (-1)) as [N | _];
      [unfold block_size in N; lia |].
    cbn [orb]. unfold block_size at 1.
    rewrite (@fh_read_stands _ _ _ _ St).
    apply stands_after in St.
    replace SYNC_SIZE with (Z.of_nat (List.length (block_sync b)))
      by (rewrite Hs; reflexivity).
    rewrite (@fh_read_stands _ _ _ _ St), bytes_eqb_refl. cbn [negb].
    apply stands_after in St.
    rewrite (@decode_records_all _ _ out _ _ Hr).
    rewrite (IH recs' fuel _ _ (out ++ rs) (cb + 1) cc Hs Hi' Hd' St)
      by (cbn [List.length] in Hf; lia).
    cbn [List.concat List.length]. rewrite <- app_assoc.
    do 4 f_equal. lia.
Qed.

(** X13: On a file of the null codec whose body is a sequence of intact blocks,
    each payload decoding to the records its block declares, repair writes
    every record of the file, in order, counts every block and reports no
    corrupt block. *)
Theorem repair_keeps_intact_file (input : ocf) (blocks : list block)
  (recs : list (list record)) (fuel : nat) :
  codec_of input = NULL_CODEC ->
  List.length (sync_marker input) = 16%nat ->
  body input = flat_map encode_block blocks ->
  Forall (intact (sync_marker input)) blocks ->
  Forall2 decodes_to blocks recs ->
  (List.length blocks < fuel)%nat ->
  repair read_datum fuel input
  = Some (Ok (List.concat recs, Z.of_nat (List.length blocks), 0)).
Proof.
  intros Hc Hs Hb Hi Hd Hf. unfold repair. rewrite Hc.
  change (bytes_eqb NULL_CODEC NULL_CODEC) with true. cbv iota.
  rewrite (@repair_loop_intact (sync_marker input) blocks recs fuel
             (past_header input) (header_data input) [] 0 0 Hs Hi Hd);
    [reflexivity | | exact Hf].
  unfold stands, past_header, file_bytes. cbn [content position].
  rewrite Hb. split; reflexivity.
Qed.

End WholeFile.

(** The broken file of above with its second record mended. *)
Definition mended_blocks : list block :=
  [ {| Framing.block_count := 3; Framing.block_data := [10; 20; 30];
       block_sync := toy_sync |};
    {| Framing.block_count := 2; Framing.block_data := [40; 50];
       block_sync := toy_sync |} ].

Definition mended_file : ocf :=
  {| header_data := [79; 98; 106; 1]; meta := [];
     sync_marker := toy_sync;
     body := flat_map encode_block mended_blocks |}.

Lemma repair_keeps_intact_file_witness :
  repair toy_read_datum 3 mended_file
  = Some (Ok (List.concat [[10; 20; 30]; [40; 50]],
              Z.of_nat (List.length mended_blocks), 0)).
Proof.
  apply (@repair_keeps_intact_file Z toy_read_datum mended_file mended_blocks
           [[10; 20; 30]; [40; 50]] 3).
  - reflexivity.
  - reflexivity.
  - reflexivity.
  - repeat constructor; vm_compute; congruence.
  - repeat constructor; eexists; vm_compute; reflexivity.
  - simpl. lia.
Defined.

Lemma repair_always_returns_witness :
  exists out count_blocks count_corrupt_blocks,
    repair toy_read_datum 42 broken_file
    = Some (Ok (out, count_blocks, count_corrupt_blocks))
    /\ 0 <= count_blocks <= Z.of_nat (List.length (body broken_file))
    /\ 0 <= count_corrupt_blocks <= Z.of_nat (List.length (body broken_file)).
Proof.
  apply (@repair_always_returns Z toy_read_datum broken_file 42).
  - reflexivity.
  - vm_compute. lia.
Defined.

(** *** A block with a damaged sync marker between intact blocks *)

Section DamagedBlock.

Variable record : Type.
Variable read_datum : bytes -> option (record * bytes).

Lemma repair_loop_over_intact (sync_marker : bytes) (good : list block) :
  forall recs fuel f before tail out cb cc,
  List.length sync_marker = 16%nat ->
  Forall (intact sync_marker) good ->
  Forall2 (decodes_to read_datum) good recs ->
  stands f before (flat_map encode_block good ++ tail) ->
  repair_loop read_datum (List.length good + fuel) sync_marker f out cb cc
  = repair_loop read_datum fuel sync_marker (after f tail)
      (out ++ List.concat recs) (cb + Z.of_nat (List.length good)) cc
  /\ stands (after f tail) (before ++ flat_map encode_block good) tail.
Proof.
  induction good as [| b good IH];
    intros recs fuel f before tail out cb cc Hs Hi Hd St;
    inversion Hd as [| ? rs ? recs' [left Hr] Hd']; subst.
  - cbn [flat_map app List.length Nat.add List.concat] in *.
    rewrite !app_nil_r, Z.add_0_r.
    assert (E : after f tail = f).
    { destruct St as [C P]. destruct f as [c p]. unfold after.
      cbn [content position] in *. f_equal. rewrite C, length_app. lia. }
    rewrite E. split; [reflexivity | exact St].
  - inversion Hi as [| ? ? (Hc & Hz & Hy) Hi']; subst.
    cbn [flat_map List.length Nat.add repair_loop] in *.
    unfold repair_round.
    unfold encode_block in St at 1. rewrite <- !app_assoc in St.
    rewrite (@read_varint_stands _ _ _ _ St) by (unfold is_long; lia).
    apply stands_after in St.
    rewrite (@read_varint_stands _ _ _ _ St)
      by (unfold is_long, block_size in *; lia).
    apply stands_after in St.
    unfold file_read.
    destruct (Z.leb_spec (2 ^ 63) (block_size b)) as [N | _]; [lia |].
    destruct (Z.ltb_spec (block_size b) (- 2 ^ 63)) as [N | _];
      [unfold block_size in N; lia |].
    destruct (Z.ltb_spec (block_size b) (-1)) as [N | _];
      [unfold block_size in N; lia |].
    cbn [orb]. unfold block_size at 1.
    rewrite (@fh_read_stands _ _ _ _ St).
    apply stands_after in St.
    replace SYNC_SIZE with (Z.of_nat (List.length (block_sync b)))
      by (rewrite Hs; reflexivity).
    rewrite (@fh_read_stands _ _ _ _ St), bytes_eqb_refl. cbn [negb].
    apply stands_after in St.
    rewrite (@decode_records_all _ read_datum _ _ out _ _ Hr).
    destruct (IH recs' fuel _ _ tail (out ++ rs) (cb + 1) cc Hs Hi' Hd' St)
      as [IH1 IH2].
    rewrite IH1. split.
    + cbn [List.concat]. rewrite <- app_assoc.
      replace (cb + 1 + Z.of_nat (List.length good))
        with (cb + Z.of_nat (S (List.length good))) by lia.
      reflexivity.
    + unfold encode_block at 1.
      repeat rewrite <- app_assoc in IH2. repeat rewrite <- app_assoc.
      exact IH2.
Qed.

Lemma bytes_eqb_neq (a b : bytes) : a <> b -> bytes_eqb a b = false.
Proof.
  intros N. destruct (bytes_eqb a b) eqn:E; [| reflexivity].
  apply bytes_eqb_eq in E. contradiction.
Qed.

(** The round on a block whose trailing marker is not the file's: the
    block is counted, and counted corrupt, nothing of it is written, and
    the loop goes on right after the next occurrence of the marker. *)
Lemma repair_round_damaged (sync_marker : bytes) (f : handle)
  (before data bad junk rest : bytes) (c : Z) (out : list record)
  (cb cc : Z) :
  sync_marker <> [] ->
  stands f before
    (write_long c ++ write_long (Z.of_nat (List.length data)) ++ data ++ bad
     ++ junk ++ sync_marker ++ rest) ->
  is_long c ->
  Z.of_nat (List.length data) < 2 ^ 63 ->
  List.length bad = 16%nat ->
  bad <> sync_marker ->
  bytes_find sync_marker (junk ++ sync_marker ++ rest)
  = Some (List.length junk) ->
  repair_round read_datum sync_marker f out cb cc
  = Some (Next (after f rest) out (cb + 1) (cc + 1))
  /\ stands (after f rest)
       (before ++ write_long c ++ write_long (Z.of_nat (List.length data))
        ++ data ++ bad ++ junk ++ sync_marker) rest.
Proof.
  intros Ne St Lc Ld Lb Nb Fd. unfold repair_round.
  assert (Final : stands (after f rest)
            (before ++ write_long c
             ++ write_long (Z.of_nat (List.length data))
             ++ data ++ bad ++ junk ++ sync_marker) rest).
  { destruct St as [C P]. unfold stands, after. cbn [content position].
    rewrite C. split; [repeat rewrite <- app_assoc; reflexivity |].
    rewrite !length_app. lia. }
  split; [| exact Final].
  rewrite (@read_varint_stands _ _ _ _ St) by exact Lc.
  apply stands_after in St.
  rewrite (@read_varint_stands _ _ _ _ St) by (unfold is_long; lia).
  apply stands_after in St.
  unfold file_read.
  destruct (Z.leb_spec (2 ^ 63) (Z.of_nat (List.length data))) as [N | _];
    [lia |].
  destruct (Z.ltb_spec (Z.of_nat (List.length data)) (- 2 ^ 63)) as [N | _];
    [lia |].
  destruct (Z.ltb_spec (Z.of_nat (List.length data)) (-1)) as [N | _];
    [lia |].
  cbn [orb]. rewrite (@fh_read_stands _ _ _ _ St).
  apply stands_after in St.
  replace SYNC_SIZE with (Z.of_nat (List.length bad))
    by (rewrite Lb; reflexivity).
  rewrite (@fh_read_stands _ _ _ _ St), (bytes_eqb_neq Nb). cbn [negb].
  apply stands_after in St.
  match goal with
  | |- context [scan_to_next_sync_marker ?h _] =>
      rewrite (@scan_reaches_marker h sync_marker (List.length junk) Ne)
        by (rewrite (stands_remaining St); exact Fd)
  end.
  do 3 f_equal. destruct St as [C P]. destruct Final as [C' P'].
  rewrite P. unfold after in *. cbn [content position] in *.
  f_equal. rewrite P'. rewrite !length_app. lia.
Qed.

(** X14: A file of the null codec with one block whose trailing marker is
    damaged, between intact blocks: repair writes the records of the intact
    blocks before it and of those after the next occurrence of the sync
    marker, in file order, and nothing of the damaged block; it counts
    every block and reports one corrupt block. *)
Theorem repair_skips_damaged_block (input : ocf) (good1 good2 : list block)
  (recs1 recs2 : list (list record)) (c : Z) (data bad junk : bytes)
  (fuel : nat) :
  codec_of input = NULL_CODEC ->
  List.length (sync_marker input) = 16%nat ->
  body input
  = flat_map encode_block good1
    ++ write_long c ++ write_long (Z.of_nat (List.length data)) ++ data ++ bad
    ++ junk ++ sync_marker input ++ flat_map encode_block good2 ->
  Forall (intact (sync_marker input)) good1 ->
  Forall (intact (sync_marker input)) good2 ->
  Forall2 (decodes_to read_datum) good1 recs1 ->
  Forall2 (decodes_to read_datum) good2 recs2 ->
  is_long c ->
  Z.of_nat (List.length data) < 2 ^ 63 ->
  List.length bad = 16%nat ->
  bad <> sync_marker input ->
  bytes_find (sync_marker input)
    (junk ++ sync_marker input ++ flat_map encode_block good2)
  = Some (List.length junk) ->
  (List.length good1 + S (List.length good2) < fuel)%nat ->
  repair read_datum fuel input
  = Some (Ok (List.concat recs1 ++ List.concat recs2,
              Z.of_nat (List.length good1 + 1 + List.length good2), 1)).
Proof.
  intros Hc Hs Hb Hi1 Hi2 Hd1 Hd2 Lc Ld Lb Nb Fd Hf.
  unfold repair. rewrite Hc.
  change (bytes_eqb NULL_CODEC NULL_CODEC) with true. cbv iota.
  assert (St : stands (past_header input) (header_data input)
                 (flat_map encode_block good1
                  ++ write_long c
                  ++ write_long (Z.of_nat (List.length data)) ++ data ++ bad
                  ++ junk ++ sync_marker input
                  ++ flat_map encode_block good2)).
  { unfold stands, past_header, file_bytes. cbn [content position].
    rewrite Hb. split; reflexivity. }
  replace fuel
    with (List.length good1 + S (fuel - S (List.length good1)))%nat by lia.
  destruct (@repair_loop_over_intact (sync_marker input) good1 recs1
              (S (fuel - S (List.length good1))) _ _ _ [] 0 0 Hs Hi1 Hd1 St)
    as [E1 St1].
  rewrite E1. cbn [repair_loop app].
  assert (Ne : sync_marker input <> []).
  { intros E. rewrite E in Hs. discriminate Hs. }
  destruct (@repair_round_damaged (sync_marker input) _ _ data bad junk
              (flat_map encode_block good2) c (List.concat recs1)
              (0 + Z.of_nat (List.length good1)) 0 Ne St1 Lc Ld Lb Nb Fd)
    as [E2 St2].
  rewrite E2.
  rewrite (@repair_loop_intact _ read_datum (sync_marker input) good2 recs2
             _ _ _ (List.concat recs1)
             (0 + Z.of_nat (List.length good1) + 1) (0 + 1) Hs Hi2 Hd2 St2)
    by lia.
  replace (0 + Z.of_nat (List.length good1) + 1
           + Z.of_nat (List.length good2))
    with (Z.of_nat (List.length good1 + 1 + List.length good2)) by lia.
  reflexivity.
Qed.

End DamagedBlock.

(** The mended file with the marker of its first block damaged and three
    stray bytes after it: the second block is recovered. *)
Definition damaged_file : ocf :=
  {| header_data := [79; 98; 106; 1]; meta := [];
     sync_marker := toy_sync;
     body :=
       write_long 3 ++ write_long 3 ++ [10; 20; 30]
       ++ [9;9;9;9;9;9;9;9;0;0;0;0;0;0;0;0]
       ++ [5; 6; 7] ++ toy_sync
       ++ flat_map encode_block
            [ {| Framing.block_count := 2; Framing.block_data := [40; 50];
                 block_sync := toy_sync |} ] |}.

Lemma repair_skips_damaged_block_witness :
  repair toy_read_datum 3 damaged_file
  = Some (Ok (List.concat [] ++ List.concat [[40; 50]],
              Z.of_nat (List.length (@nil block) + 1
                        + List.length
                            [ {| Framing.block_count := 2;
                                 Framing.block_data := [40; 50];
                                 block_sync := toy_sync |} ]), 1)).
Proof.
  apply (@repair_skips_damaged_block Z toy_read_datum damaged_file []
           [ {| Framing.block_count := 2; Framing.block_data := [40; 50];
                block_sync := toy_sync |} ]
           [] [[40; 50]] 3 [10; 20; 30]
           [9;9;9;9;9;9;9;9;0;0;0;0;0;0;0;0] [5; 6; 7] 3).
  - reflexivity.
  - reflexivity.
  - reflexivity.
  - constructor.
  - repeat constructor; vm_compute; congruence.
  - constructor.
  - repeat constructor; eexists; vm_compute; reflexivity.
  - unfold is_long. lia.
  - simpl. lia.
  - reflexivity.
  - discriminate.
  - vm_compute. reflexivity.
  - simpl. lia.
Defined.

End Repair.

(** ** tools/concat.py: block-level and record-level concatenation *)

Module Concat.

Import Framing.
Import Url.
Open Scope Z_scope.

(** desired_codec.encode("utf-8") *)
Definition encode_utf8 (s : string) : bytes :=
  map (fun c => Z.of_N (N_of_ascii c)) (list_ascii_of_string s).

Definition get_schema_and_codec (url : ocf) : option bytes * bytes :=
  (schema_of url, codec_of url).

Definition schema_eqb (a b : option bytes) : bool :=
  match a, b with
  | None, None => true
  | Some x, Some y => bytes_eqb x y
  | _, _ => false
  end.

Definition check_schema_and_codec (urls : list ocf) (desired_codec : string)
  : bool :=
  match urls with
  | [] => true
  | first :: rest =>
      let (base_schema, base_codec) := get_schema_and_codec first in
      if negb (bytes_eqb base_codec (encode_utf8 desired_codec)) then false
      else
        forallb
          (fun url =>
             let (schema, codec) := get_schema_and_codec url in
             negb (negb (schema_eqb schema base_schema)
                   || negb (bytes_eqb codec base_codec)))
          rest
  end.

(** The exceptions the inner try catches: (StopIteration, EOFError,
    struct.error). *)
Definition caught (e : exn) : bool :=
  match e with
  | EOFError => true
  | _ => false
  end.

(** The body of the try: the four reads of one block. *)
Definition read_raw_block (in_f : handle)
  : result (Z * Z * bytes * handle) :=
  match read_long in_f with
  | Raise e => Raise e
  | Ok (block_count, f1) =>
      match read_long f1 with
      | Raise e => Raise e
      | Ok (block_size, f2) =>
          match decoder_read block_size f2 with
          | Raise e => Raise e
          | Ok (block_data, f3) =>
              match decoder_read 16 f3 with
              | Raise e => Raise e
              | Ok (_, f4) => Ok (block_count, block_size, block_data, f4)
              end
          end
      end
  end.

(** The while loop over the blocks of one input: the bytes of the output
    file after it; [None] when the fuel ran out. *)
Fixpoint copy_blocks (fuel : nat) (in_f : handle)
  (output_sync_marker : bytes) (out_f : bytes) : option (result bytes) :=
  match fuel with
  | O => None
  | S fuel' =>
      if file_size in_f <=? fh_tell in_f then Some (Ok out_f)
      else
        match read_raw_block in_f with
        | Raise e => if caught e then Some (Ok out_f) else Some (Raise e)
        | Ok (block_count, block_size, block_data, in_f') =>
            copy_blocks fuel' in_f' output_sync_marker
              (out_f ++ write_long block_count ++ write_long block_size
               ++ block_data ++ output_sync_marker)
        end
  end.

(** The for loop over the inputs, once the output's sync marker is set;
    every round of the inner loop reads at least one byte of the body. *)
Fixpoint copy_inputs (input_urls : list ocf) (output_sync_marker : bytes)
  (out_f : bytes) : option (result bytes) :=
  match input_urls with
  | [] => Some (Ok out_f)
  | url :: rest =>
      match copy_blocks (S (List.length (body url))) (past_header url)
              output_sync_marker out_f with
      | Some (Ok out_f') => copy_inputs rest output_sync_marker out_f'
      | other => other
      end
  end.

(** The body of the with block of block_concat: the bytes written to
    out_f.  The first input (i == 0) gives the header, read back from
    offset 0 up to where DataFileReader stopped, and the sync marker. *)
Definition block_concat_out_f (input_urls : list ocf) : option (result bytes) :=
  match input_urls with
  | [] => Some (Ok [])
  | first :: _ =>
      let header_size := fh_tell (past_header first) in
      let (header_data, _) := fh_read header_size (open_rb first) in
      copy_inputs input_urls (sync_marker first) header_data
  end.

(** block_concat(input_urls, output_url, codec): what the place of
    output_url holds when the call returns, [previous] being what it held
    before.  out_f is the stream of output_url.with_mode("wb").open(), and
    leaving the with block closes that stream; close() of the URL object is
    called nowhere in the function, so the bytes written are at the place
    only when the stream is the file itself.  The inputs are taken as they
    are when they are read: an input at the output's own path was truncated
    by the open and is an empty file then. *)
Definition block_concat (input_urls : list ocf) (output_url : URL)
  (previous : holds bytes) : option (result (holds bytes)) :=
  match open_wb output_url previous with
  | Raise e => Some (Raise e)
  | Ok _ =>
      match block_concat_out_f input_urls with
      | Some (Ok out_f) => Some (Ok (left_unclosed output_url previous out_f))
      | Some (Raise e) => Some (Raise e)
      | None => None
      end
  end.

(** The output of block_concat as a reader sees it: the first input's
    header, hence its metadata and sync marker, before the bytes written
    after it. *)
Definition output_of (first : ocf) (out_body : bytes) : ocf :=
  {| header_data := header_data first; meta := meta first;
     sync_marker := sync_marker first; body := out_body |}.

Section RecordConcat.

Variable record : Type.
Variable decode_block : option bytes -> bytes -> Z -> bytes -> list record.

(** read_avro_schema_from_first_nonempty_file: the schema metadata of the
    first input of positive size. *)
Definition read_avro_schema_from_first_nonempty_file (urls : list ocf)
  : option (option bytes) :=
  match find (fun url => 0 <? Z.of_nat (List.length (file_bytes url))) urls with
  | Some url => Some (schema_of url)
  | None => None
  end.

(** The records appended to the writer, input after input; an input that
    is no valid data file makes its reader raise. *)
Fixpoint append_all (input_urls : list ocf) : result (list record) :=
  match input_urls with
  | [] => Ok []
  | url :: rest =>
      match decode decode_block url with
      | None => Raise (AvroException "Not an Avro data file")
      | Some records =>
          match append_all rest with
          | Ok more => Ok (records ++ more)
          | Raise e => Raise e
          end
      end
  end.

(** concat(input_urls, output_url, codec): the record sequence appended to
    the writer, once the writer is open.  The writer is avro_writer's,
    opened by [with url as f]: leaving that block closes the DataFileWriter
    and then the URL object, which is where an S3URL or a
    GoogleCloudStorageURL uploads what was written. *)
Definition concat (input_urls : list ocf) : result (list record) :=
  match read_avro_schema_from_first_nonempty_file input_urls with
  | None => Raise (ValueError "No non-empty Avro files found.")
  | Some _ => append_all input_urls
  end.

End RecordConcat.

Lemma block_concat_on_file (input_urls : list ocf) (path : string)
  (previous : holds bytes) (out_f : bytes) :
  mentions "/" path = true -> ends_with_slash path = false ->
  previous <> Directory ->
  block_concat_out_f input_urls = Some (Ok out_f) ->
  block_concat input_urls (FileURL path) previous = Some (Ok (File out_f)).
Proof.
  intros P1 P2 P3 H. unfold block_concat, open_wb. rewrite P1, P2, H.
  destruct previous; [reflexivity | contradiction | reflexivity].
Qed.

(** An input the tool can take: a header, a sixteen-byte sync marker, and
    a body the reader walks to the end, with counts and sizes that are
    non-negative longs. *)
Definition long_block (b : block) : Prop :=
  0 <= block_count b < 2 ^ 63 /\ block_size b < 2 ^ 63.

Definition valid_input (f : ocf) : Prop :=
  header_data f <> []
  /\ List.length (sync_marker f) = 16%nat
  /\ exists blocks, file_blocks f = Some blocks /\ Forall long_block blocks.

(** The block as block_concat writes it. *)
Definition with_sync (sync : bytes) (b : block) : block :=
  {| block_count := block_count b; block_data := block_data b;
     block_sync := sync |}.

(** *** block_concat against the reader *)

Lemma encode_with_sync (osm : bytes) (b : block) :
  encode_block (with_sync osm b)
  = write_long (block_count b) ++ write_long (block_size b)
    ++ block_data b ++ osm.
Proof. reflexivity. Qed.

(** On a body the reader walks to the end, the inner loop writes every
    block again, with the output's sync marker. *)
Lemma copy_follows_reader (n : nat) : forall sync fh blocks osm out,
  read_blocks n sync fh = Some blocks ->
  copy_blocks n fh osm out
  = Some (Ok (out ++ flat_map encode_block (map (with_sync osm) blocks))).
Proof.
  induction n as [| n IH]; intros sync fh blocks osm out H;
    [discriminate H |].
  cbn [read_blocks] in H. cbn [copy_blocks].
  destruct (file_size fh <=? fh_tell fh).
  - injection H as <-. cbn [map flat_map]. rewrite app_nil_r. reflexivity.
  - unfold read_raw_block. unfold SYNC_SIZE in H.
    destruct (read_long fh) as [[count fh1] | e1]; [| discriminate H].
    destruct (read_long fh1) as [[size fh2] | e2]; [| discriminate H].
    destruct (decoder_read size fh2) as [[data fh3] | e3] eqn:D1;
      [| discriminate H].
    destruct (decoder_read 16 fh3) as [[marker fh4] | e4];
      [| discriminate H].
    destruct (bytes_eqb marker sync); [| discriminate H].
    destruct (read_blocks n sync fh4) as [blocks' |] eqn:RB;
      [| discriminate H].
    injection H as <-.
    rewrite (IH _ _ _ osm _ RB).
    apply decoder_read_ok in D1. destruct D1 as (_ & _ & L).
    cbn [map flat_map]. rewrite encode_with_sync.
    unfold block_size. cbn [block_count block_data]. rewrite L.
    rewrite <- !app_assoc. reflexivity.
Qed.

Lemma long_with_sync (osm : bytes) (blocks : list block) :
  Forall long_block blocks -> Forall (intact osm) (map (with_sync osm) blocks).
Proof.
  induction 1 as [| b blocks [Hc Hz] _ IH]; cbn [map]; constructor.
  - unfold intact, with_sync, block_size in *. cbn. auto.
  - exact IH.
Qed.

Lemma encoded_length (blocks : list block) :
  (List.length blocks <= List.length (flat_map encode_block blocks))%nat.
Proof.
  induction blocks as [| b blocks IH]; cbn [flat_map List.length]; [lia |].
  rewrite length_app.
  pose proof (encode_block_nonempty b) as N.
  destruct (encode_block b); [contradiction | simpl; lia].
Qed.

Section Agreement.

Variable record : Type.
Variable decode_block : option bytes -> bytes -> Z -> bytes -> list record.

Lemma decode_blocks_with_sync (schema : option bytes) (codec osm : bytes)
  (blocks : list block) :
  decode_blocks decode_block schema codec (map (with_sync osm) blocks)
  = decode_blocks decode_block schema codec blocks.
Proof.
  unfold decode_blocks.
  induction blocks as [| b blocks IH]; cbn [map flat_map]; [reflexivity |].
  rewrite IH. reflexivity.
Qed.

Definition same_meta (schema : option bytes) (codec : bytes) (f : ocf) : Prop :=
  schema_of f = schema /\ codec_of f = codec.

(** The two concatenations, input by input. *)
Lemma copy_inputs_agree (schema : option bytes) (codec osm : bytes)
  (inputs : list ocf) : forall out,
  Forall valid_input inputs ->
  Forall (same_meta schema codec) inputs ->
  exists blocks,
    copy_inputs inputs osm out
    = Some (Ok (out ++ flat_map encode_block (map (with_sync osm) blocks)))
    /\ Forall long_block blocks
    /\ append_all decode_block inputs
       = Ok (decode_blocks decode_block schema codec blocks).
Proof.
  induction inputs as [| f inputs IH]; intros out V M.
  - exists []. cbn. rewrite app_nil_r. auto.
  - inversion V as [| ? ? (_ & _ & bs & Hb & Hl) V']; subst.
    inversion M as [| ? ? [Ms Mc] M']; subst.
    cbn [copy_inputs append_all].
    unfold file_blocks in Hb.
    rewrite (copy_follows_reader _ _ _ osm out Hb).
    destruct (IH (out ++ flat_map encode_block (map (with_sync osm) bs)) V' M')
      as (rest & C & L & A).
    exists (bs ++ rest). split; [| split].
    + rewrite C, map_app, flat_map_app, <- app_assoc. reflexivity.
    + apply Forall_app. auto.
    + unfold decode, file_blocks. rewrite Hb, A.
      unfold decode_blocks. rewrite flat_map_app. reflexivity.
Qed.

End Agreement.

Lemma schema_eqb_eq (a b : option bytes) : schema_eqb a b = true -> a = b.
Proof.
  destruct a as [x |], b as [y |]; simpl; intros H; try discriminate;
    [| reflexivity].
  apply bytes_eqb_eq in H. now subst.
Qed.

(** What the pre-flight establishes. *)
Lemma check_gives_same_meta (first : ocf) (others : list ocf)
  (desired_codec : string) :
  check_schema_and_codec (first :: others) desired_codec = true ->
  codec_of first = encode_utf8 desired_codec
  /\ Forall (same_meta (schema_of first) (codec_of first)) (first :: others).
Proof.
  unfold check_schema_and_codec, get_schema_and_codec.
  destruct (bytes_eqb (codec_of first) (encode_utf8 desired_codec)) eqn:E;
    cbn [negb]; [| discriminate].
  intros H. split; [apply bytes_eqb_eq; exact E |].
  constructor; [split; reflexivity |].
  apply Forall_forall. intros f Hf.
  rewrite forallb_forall in H. specialize (H f Hf).
  apply negb_true_iff, orb_false_iff in H. destruct H as [H1 H2].
  apply negb_false_iff in H1, H2.
  split; [apply schema_eqb_eq; exact H1 | apply bytes_eqb_eq; exact H2].
Qed.

Section Equivalence.

Variable record : Type.
Variable decode_block : option bytes -> bytes -> Z -> bytes -> list record.

Lemma out_f_of_valid_inputs (first : ocf) (others : list ocf)
  (desired_codec : string) :
  Forall valid_input (first :: others) ->
  check_schema_and_codec (first :: others) desired_codec = true ->
  exists blocks,
    block_concat_out_f (first :: others)
    = Some (Ok (header_data first
                ++ flat_map encode_block
                     (map (with_sync (sync_marker first)) blocks)))
    /\ Forall long_block blocks
    /\ append_all decode_block (first :: others)
       = Ok (decode_blocks decode_block (schema_of first) (codec_of first)
               blocks).
Proof.
  intros V C.
  destruct (check_gives_same_meta _ _ _ C) as [_ M].
  destruct (copy_inputs_agree decode_block (sync_marker first)
              (header_data first) V M) as (blocks & Hc & Hl & Ha).
  exists blocks. split; [| split; assumption].
  unfold block_concat_out_f.
  assert (St : stands (open_rb first) [] (header_data first ++ body first)).
  { split; reflexivity. }
  unfold fh_tell, past_header. cbn [position].
  rewrite (@fh_read_stands _ _ _ _ St). exact Hc.
Qed.

(** C4 on the code: for a non-empty list of valid inputs that passes the
    pre-flight, the bytes block_concat writes are the first input's header
    followed by blocks that all end with the first input's sync marker, and
    they decode to the record sequence record-level concat appends for the
    same inputs.  Under a FileURL whose path has a directory part and names
    no directory, these bytes are the output file.  Under an S3URL, a
    GoogleCloudStorageURL or an HttpURL the call returns with the place
    holding what it held before: no file is produced. *)
Theorem block_concat_equivalence (first : ocf) (others : list ocf)
  (desired_codec : string) (previous : holds bytes) :
  Forall valid_input (first :: others) ->
  check_schema_and_codec (first :: others) desired_codec = true ->
  exists out_body blocks records,
    out_body = flat_map encode_block blocks
    /\ Forall (fun b => block_sync b = sync_marker first) blocks
    /\ decode decode_block (output_of first out_body) = Some records
    /\ concat decode_block (first :: others) = Ok records
    /\ (forall path,
          mentions "/" path = true -> ends_with_slash path = false ->
          previous <> Directory ->
          block_concat (first :: others) (FileURL path) previous
          = Some (Ok (File (header_data first ++ out_body))))
    /\ (forall url,
          block_concat (first :: others) (S3URL url) previous
          = Some (Ok previous)
          /\ block_concat (first :: others) (GoogleCloudStorageURL url)
               previous
             = Some (Ok previous)
          /\ block_concat (first :: others) (HttpURL url) previous
             = Some (Ok previous)).
Proof.
  intros V C.
  destruct (@out_f_of_valid_inputs first others desired_codec V C)
    as (blocks & Hc & Hl & Ha).
  pose proof (long_with_sync (sync_marker first) Hl) as Hi.
  inversion V as [| ? ? (Hh & Hs & _) _]; subst.
  exists (flat_map encode_block (map (with_sync (sync_marker first)) blocks)),
    (map (with_sync (sync_marker first)) blocks),
    (decode_blocks decode_block (schema_of first) (codec_of first) blocks).
  split; [| split; [| split; [| split; [| split]]]].
  - reflexivity.
  - apply Forall_forall. intros b Hb. apply in_map_iff in Hb.
    destruct Hb as (b0 & <- & _). reflexivity.
  - unfold decode, file_blocks.
    rewrite (@read_blocks_encoded (sync_marker first)
               (map (with_sync (sync_marker first)) blocks) _ _
               (header_data first)).
    + change (schema_of (output_of first _)) with (schema_of first).
      change (codec_of (output_of first _)) with (codec_of first).
      rewrite decode_blocks_with_sync. reflexivity.
    + exact Hs.
    + exact Hi.
    + split; reflexivity.
    + cbn [output_of body].
      pose proof (encoded_length (map (with_sync (sync_marker first)) blocks)).
      lia.
  - unfold concat, read_avro_schema_from_first_nonempty_file. cbn [find].
    assert (N : (0 <? Z.of_nat (List.length (file_bytes first))) = true).
    { apply Z.ltb_lt. unfold file_bytes. rewrite length_app.
      destruct (header_data first); [contradiction | simpl; lia]. }
    rewrite N. exact Ha.
  - intros path P1 P2 P3.
    rewrite (@block_concat_on_file (first :: others) path previous _ P1 P2 P3 Hc).
    reflexivity.
  - intros url. unfold block_concat. cbn [open_wb]. rewrite Hc.
    repeat split.
Qed.

End Equivalence.

(** C10: the pre-flight passes when there is no input. *)
Theorem check_empty_passes (desired_codec : string) :
  check_schema_and_codec [] desired_codec = true.
Proof. reflexivity. Qed.

(** Two inputs with the same schema metadata and the null codec (written
    out in the second, defaulted in the first), with different sync
    markers; in this toy codec every payload byte is a record. *)
Definition sync_a : bytes := [1;2;3;4;5;6;7;8;9;10;11;12;13;14;15;16].

Definition sync_b : bytes := [7;7;7;7;7;7;7;7;7;7;7;7;7;7;7;7].

Definition file_a : ocf :=
  {| header_data := [79; 98; 106; 1; 0];
     meta := [("avro.schema"%string, [34; 105; 110; 116; 34])];
     sync_marker := sync_a;
     body := encode_block {| block_count := 2; block_data := [1; 2];
                             block_sync := sync_a |} |}.

Definition file_b : ocf :=
  {| header_data := [79; 98; 106; 1; 1];
     meta := [("avro.codec"%string, NULL_CODEC);
              ("avro.schema"%string, [34; 105; 110; 116; 34])];
     sync_marker := sync_b;
     body := encode_block {| block_count := 1; block_data := [3];
                             block_sync := sync_b |}
             ++ encode_block {| block_count := 2; block_data := [4; 5];
                                block_sync := sync_b |} |}.

Definition payload_bytes (_ : option bytes) (_ : bytes) (count : Z)
  (payload : bytes) : list Z :=
  firstn (Z.to_nat count) payload.

Lemma block_concat_equivalence_witness :
  exists out_body blocks records,
    out_body = flat_map encode_block blocks
    /\ Forall (fun b => block_sync b = sync_marker file_a) blocks
    /\ decode payload_bytes (output_of file_a out_body) = Some records
    /\ concat payload_bytes [file_a; file_b] = Ok records
    /\ (forall path,
          mentions "/" path = true -> ends_with_slash path = false ->
          @Nothing bytes <> Directory ->
          block_concat [file_a; file_b] (FileURL path) Nothing
          = Some (Ok (File (header_data file_a ++ out_body))))
    /\ (forall url,
          block_concat [file_a; file_b] (S3URL url) Nothing
          = Some (Ok Nothing)
          /\ block_concat [file_a; file_b] (GoogleCloudStorageURL url) Nothing
             = Some (Ok Nothing)
          /\ block_concat [file_a; file_b] (HttpURL url) Nothing
             = Some (Ok Nothing)).
Proof.
  apply (@block_concat_equivalence Z payload_bytes file_a [file_b] "null"
           Nothing).
  - repeat constructor; try discriminate;
      (eexists; split; [vm_compute; reflexivity |]);
      repeat constructor; simpl; lia.
  - vm_compute. reflexivity.
Defined.

(** The empty list of inputs, which the pre-flight lets through:
    block_concat writes no byte, not even a header, and leaves an empty
    file under a FileURL; record-level concat raises. *)
Example block_concat_of_nothing :
  check_schema_and_codec [] "null" = true
  /\ block_concat [] (FileURL "out/all.avro") Nothing = Some (Ok (File []))
  /\ concat payload_bytes []
     = Raise (ValueError "No non-empty Avro files found.").
Proof. repeat split; reflexivity. Qed.

(** The same run, evaluated: under a FileURL the blocks of both inputs
    under the first marker, and the five records in input order on the
    record path; under an S3URL that holds an older object, that object. *)
Example block_concat_sample :
  block_concat [file_a; file_b] (FileURL "out/all.avro") Nothing
  = Some (Ok (File (header_data file_a
                    ++ [4; 4; 1; 2] ++ sync_a
                    ++ [2; 2; 3] ++ sync_a
                    ++ [4; 4; 4; 5] ++ sync_a)))
  /\ concat payload_bytes [file_a; file_b] = Ok [1; 2; 3; 4; 5]
  /\ block_concat [file_a; file_b] (S3URL "s3://bucket/all.avro")
       (File [0])
     = Some (Ok (File [0]))
  /\ block_concat [file_a; file_b] (S3URL "s3://bucket/all.avro") Nothing
     = Some (Ok Nothing).
Proof. repeat split; vm_compute; reflexivity. Qed.

(** A FileURL whose path has no directory part: the open raises before a
    byte is read. *)
Example block_concat_bare_filename :
  block_concat [file_a; file_b] (FileURL "all.avro") Nothing
  = Some (Raise OSError).
Proof. reflexivity. Qed.

(** *** The pre-flight, exactly *)

Lemma schema_bytes_eqb_refl (a : option bytes) : schema_eqb a a = true.
Proof. destruct a; [apply bytes_eqb_refl | reflexivity]. Qed.

(** X15: check_schema_and_codec accepts a non-empty list exactly when the first
    input's codec is the desired one and every other input has the first
    input's schema bytes and codec. *)
Theorem check_decides_same_meta (first : ocf) (others : list ocf)
  (desired_codec : string) :
  check_schema_and_codec (first :: others) desired_codec = true
  <-> codec_of first = encode_utf8 desired_codec
      /\ Forall (same_meta (schema_of first) (codec_of first)) others.
Proof.
  split.
  - intros H. destruct (check_gives_same_meta _ _ _ H) as [C M].
    inversion M; subst. auto.
  - intros [C M]. unfold check_schema_and_codec, get_schema_and_codec.
    rewrite C, bytes_eqb_refl. cbn [negb].
    apply forallb_forall. intros f Hf.
    rewrite Forall_forall in M. destruct (M f Hf) as [-> E].
    rewrite C in E. rewrite E, schema_bytes_eqb_refl, bytes_eqb_refl. reflexivity.
Qed.

(** *** block_concat on well-formed inputs *)

Lemma with_sync_same (sync : bytes) (blocks : list block) :
  Forall (intact sync) blocks -> map (with_sync sync) blocks = blocks.
Proof.
  induction 1 as [| b blocks (_ & _ & Hy) _ IH]; [reflexivity |].
  cbn [map]. rewrite IH. f_equal. destruct b as [c d y].
  unfold with_sync. cbn in *. now subst.
Qed.

(** X16: A file written with the encoder's varints, block after block, is
    copied byte for byte when it is the only input and the output is a
    FileURL whose path has a directory part and names no directory. *)
Theorem block_concat_single_is_copy (f : ocf) (blocks : list block)
  (path : string) (previous : holds bytes) :
  mentions "/" path = true -> ends_with_slash path = false ->
  previous <> Directory ->
  List.length (sync_marker f) = 16%nat ->
  body f = flat_map encode_block blocks ->
  Forall (intact (sync_marker f)) blocks ->
  block_concat [f] (FileURL path) previous = Some (Ok (File (file_bytes f))).
Proof.
  intros P1 P2 P3 Hs Hb Hi.
  apply (@block_concat_on_file [f] path previous (file_bytes f) P1 P2 P3).
  unfold block_concat_out_f.
  assert (St : stands (open_rb f) [] (header_data f ++ body f)).
  { split; reflexivity. }
  unfold fh_tell, past_header. cbn [position].
  rewrite (@fh_read_stands _ _ _ _ St). cbn [copy_inputs].
  assert (R : read_blocks (S (List.length (body f))) (sync_marker f)
                (past_header f)
              = Some blocks).
  { apply read_blocks_encoded with (before := header_data f); auto.
    - unfold stands, past_header, file_bytes. cbn [content position].
      rewrite Hb.
      split; reflexivity.
    - rewrite Hb. pose proof (encoded_length blocks). lia. }
  rewrite (@copy_follows_reader _ _ _ _ (sync_marker f) (header_data f) R).
  rewrite (with_sync_same Hi). unfold file_bytes. rewrite Hb. reflexivity.
Qed.

Lemma block_concat_single_is_copy_witness :
  block_concat [file_b] (FileURL "out/copy.avro") Nothing
  = Some (Ok (File (file_bytes file_b))).
Proof.
  apply (@block_concat_single_is_copy file_b
           [ {| block_count := 1; block_data := [3]; block_sync := sync_b |};
             {| block_count := 2; block_data := [4; 5];
                block_sync := sync_b |} ] "out/copy.avro" Nothing).
  - reflexivity.
  - reflexivity.
  - discriminate.
  - reflexivity.
  - cbn [flat_map file_b body]. rewrite app_nil_r. reflexivity.
  - repeat constructor; vm_compute; congruence.
Defined.

(** *** Counting before and after a block-level concatenation *)

Lemma copy_inputs_blocks (osm : bytes) (inputs : list ocf) :
  forall (blocks : list (list block)) out,
  Forall2 (fun f bs => file_blocks f = Some bs) inputs blocks ->
  copy_inputs inputs osm out
  = Some (Ok (out ++ flat_map encode_block
                       (map (with_sync osm) (List.concat blocks)))).
Proof.
  induction inputs as [| f inputs IH]; intros blocks out W;
    inversion W as [| ? bs ? rest Wf W']; subst;
    cbn [copy_inputs List.concat].
  - cbn. rewrite app_nil_r. reflexivity.
  - unfold file_blocks in Wf.
    rewrite (@copy_follows_reader _ _ _ _ osm out Wf), (IH rest _ W').
    rewrite map_app, flat_map_app, <- app_assoc. reflexivity.
Qed.

(** X17: What count reports for the inputs is what the fast counter reports for
    the output file block_concat writes from them under a FileURL whose
    path has a directory part and names no directory: the blocks of all
    inputs, with the counts they declare. *)
Theorem block_concat_keeps_count (first : ocf) (others : list ocf)
  (blocks : list (list block)) (fuel : nat) (path : string)
  (previous : holds bytes) :
  mentions "/" path = true -> ends_with_slash path = false ->
  previous <> Directory ->
  header_data first <> [] ->
  List.length (sync_marker first) = 16%nat ->
  Forall2 Count.walks (first :: others) blocks ->
  Forall (Forall long_block) blocks ->
  (List.length (List.concat blocks) < fuel)%nat ->
  exists out_body,
    block_concat (first :: others) (FileURL path) previous
    = Some (Ok (File (header_data first ++ out_body)))
    /\ Count.count fuel (first :: others)
       = Some (Ok (sum_counts (List.concat blocks)), [])
    /\ (Z.of_nat (List.length (header_data first ++ out_body)) < 2 ^ 63 ->
        Count.fast_count_records fuel (output_of first out_body)
        = Some (Ok (sum_counts (List.concat blocks)), [])).
Proof.
  intros P1 P2 P3 Hh Hs W L Hf.
  set (osm := sync_marker first).
  exists (flat_map encode_block (map (with_sync osm) (List.concat blocks))).
  split; [| split].
  - apply (@block_concat_on_file (first :: others) path previous _ P1 P2 P3).
    unfold block_concat_out_f.
    assert (St : stands (open_rb first) [] (header_data first ++ body first)).
    { split; reflexivity. }
    unfold fh_tell, past_header. cbn [position].
    rewrite (@fh_read_stands _ _ _ _ St).
    rewrite (@copy_inputs_blocks (sync_marker first) (first :: others) blocks
               (header_data first)); [reflexivity |].
    clear -W. induction W as [| f bs fs bss [Wf _] _ IH]; constructor; auto.
  - assert (F : Forall (fun bs => (List.length bs < fuel)%nat) blocks).
    { clear -Hf. apply Forall_forall. intros bs Hin.
      assert (List.length bs <= List.length (List.concat blocks))%nat; [| lia].
      clear Hf. induction blocks as [| x blocks IH]; [contradiction |].
      cbn [List.concat]. rewrite length_app.
      destruct Hin as [-> | Hin]; [lia | specialize (IH Hin); lia]. }
    unfold Count.count.
    rewrite (@Count.count_from_walks fuel (first :: others) blocks 0 W F).
    rewrite Z.add_0_l. reflexivity.
  - intros Sz.
    assert (Hl : Forall long_block (List.concat blocks)).
    { clear -L. induction L as [| x blocks Hx _ IH]; cbn [List.concat];
        [constructor | apply Forall_app; auto]. }
    pose proof (long_with_sync osm Hl) as Hi.
    assert (Sm : sum_counts (map (with_sync osm) (List.concat blocks))
                 = sum_counts (List.concat blocks)).
    { clear. induction (List.concat blocks) as [| b bs IH]; [reflexivity |].
      cbn [map]. rewrite !Count.sum_counts_cons, IH. reflexivity. }
    rewrite <- Sm.
    apply Count.fast_count_walks.
    + split; [| exact Sz].
      unfold file_blocks. cbn [output_of body sync_marker].
      apply read_blocks_encoded with (before := header_data first); auto.
      * split; reflexivity.
      * pose proof (encoded_length (map (with_sync osm) (List.concat blocks))).
        lia.
    + rewrite length_map. exact Hf.
Qed.

Lemma block_concat_keeps_count_witness :
  exists out_body,
    block_concat (file_a :: [file_b]) (FileURL "out/all.avro") Nothing
    = Some (Ok (File (header_data file_a ++ out_body)))
    /\ Count.count 4 (file_a :: [file_b])
       = Some (Ok (sum_counts
                     (List.concat
                        [[ {| block_count := 2; block_data := [1; 2];
                              block_sync := sync_a |} ];
                         [ {| block_count := 1; block_data := [3];
                              block_sync := sync_b |};
                           {| block_count := 2; block_data := [4; 5];
                              block_sync := sync_b |} ]])), [])
    /\ (Z.of_nat (List.length (header_data file_a ++ out_body)) < 2 ^ 63 ->
        Count.fast_count_records 4 (output_of file_a out_body)
        = Some (Ok (sum_counts
                      (List.concat
                         [[ {| block_count := 2; block_data := [1; 2];
                               block_sync := sync_a |} ];
                          [ {| block_count := 1; block_data := [3];
                               block_sync := sync_b |};
                            {| block_count := 2; block_data := [4; 5];
                               block_sync := sync_b |} ]])), [])).
Proof.
  apply (@block_concat_keeps_count file_a [file_b] _ 4%nat "out/all.avro"
           Nothing).
  - reflexivity.
  - reflexivity.
  - discriminate.
  - discriminate.
  - reflexivity.
  - repeat constructor; vm_compute; reflexivity.
  - repeat constructor; simpl; lia.
  - simpl. lia.
Defined.

End Concat.

(** ** tools/filesort.py: the external merge sort *)

Module Sorter.

Section FileSort.

(** The Python values held by record fields, None among them, with their
    [==] and [<].  A run in which [<] raises TypeError (None against an
    int, say) is not described by these two functions. *)
Variable value : Type.
Variable py_none : value.
Variable value_eqb : value -> value -> bool.
Variable value_ltb : value -> value -> bool.

(** A record of the file: a dict from field names to values.  A datum
    that is no dict makes sort_key raise ValueError; the type leaves it
    out. *)
Definition record : Type := list (string * value).

(** record.get(sort_field) *)
Fixpoint dict_get (k : string) (r : record) : value :=
  match r with
  | [] => py_none
  | (k', v) :: r' => if String.eqb k' k then v else dict_get k r'
  end.

(** sort_key(sort_fields)(record): the tuple of the fields' values. *)
Definition sort_key (sort_fields : list string) (r : record) : list value :=
  map (fun sort_field => dict_get sort_field r) sort_fields.

(** [a == b] and [a < b] on tuples. *)
Fixpoint tuple_eqb (a b : list value) : bool :=
  match a, b with
  | [], [] => true
  | x :: a', y :: b' => value_eqb x y && tuple_eqb a' b'
  | _, _ => false
  end.

Fixpoint tuple_ltb (a b : list value) : bool :=
  match a, b with
  | [], [] => false
  | [], _ :: _ => true
  | _ :: _, [] => false
  | x :: a', y :: b' => if value_eqb x y then tuple_ltb a' b' else value_ltb x y
  end.

Section WithKey.

Variable sort_fields : list string.

Definition key (r : record) : list value := sort_key sort_fields r.

(** sorted(records, key=sort_key, reverse=reverse): a stable sort, which
    leaves records of equal keys in their order also under reverse.  The
    result of a stable sort does not depend on the algorithm; this one
    inserts from the right. *)
Definition before (reverse : bool) (a b : record) : bool :=
  if reverse then tuple_ltb (key b) (key a) else tuple_ltb (key a) (key b).

Fixpoint insert (reverse : bool) (x : record) (l : list record)
  : list record :=
  match l with
  | [] => [x]
  | y :: l' =>
      if before reverse y x then y :: insert reverse x l' else x :: l
  end.

Definition sorted (records : list record) (reverse : bool) : list record :=
  fold_right (insert reverse) [] records.

(** The temporary directory: the spill files batch_0.avro, batch_1.avro,
    ... in the order they were written, each with its records. *)
Definition directory : Type := list (nat * list record).

(** sort_and_write_batch(schema, tmp, batch_id, batch, sort_key, reverse) *)
Definition sort_and_write_batch (tmp : directory) (batch_id : nat)
  (records : list record) (reverse : bool) : directory :=
  tmp ++ [(batch_id, sorted records reverse)].

(** The loop over the reader and the last, partial batch. *)
Fixpoint spill (batch_size : nat) (reverse : bool) (reader : list record)
  (batch : list record) (batch_id : nat) (tmp : directory) : directory :=
  match reader with
  | [] =>
      match batch with
      | [] => tmp
      | _ :: _ => sort_and_write_batch tmp batch_id batch reverse
      end
  | r :: reader' =>
      let batch := batch ++ [r] in
      if batch_size <=? List.length batch then
        spill batch_size reverse reader' [] (S batch_id)
          (sort_and_write_batch tmp batch_id batch reverse)
      else spill batch_size reverse reader' batch batch_id tmp
  end.

(** heapq.merge over the sorted iterators, key=sort_key.  Its heap holds, for
    every iterator not yet exhausted, the entry [key(value), order, value]
    of the iterator's next value, [order] being the iterator's position
    among the arguments; entries compare as lists, so by key and, for equal
    keys, by order.  Each round yields the value of the least entry and
    replaces it by the next value of the same iterator. *)
Definition entry : Type := nat * record.

Definition entry_ltb (a b : entry) : bool :=
  if tuple_eqb (key (snd a)) (key (snd b)) then fst a <? fst b
  else tuple_ltb (key (snd a)) (key (snd b)).

(** The least entry among the iterators' next values, and the iterators
    after it was taken. *)
Fixpoint pop_least (its : list (nat * list record))
  : option (entry * list (nat * list record)) :=
  match its with
  | [] => None
  | (order, values) :: rest =>
      match values with
      | [] =>
          match pop_least rest with
          | None => None
          | Some (e, rest') => Some (e, (order, []) :: rest')
          end
      | v :: values' =>
          match pop_least rest with
          | None => Some ((order, v), (order, values') :: rest)
          | Some (e, rest') =>
              if entry_ltb e (order, v) then
                Some (e, (order, values) :: rest')
              else Some ((order, v), (order, values') :: rest)
          end
      end
  end.

Definition entries (its : list (nat * list record)) : list entry :=
  flat_map (fun it => map (pair (fst it)) (snd it)) its.

Fixpoint merge_loop (fuel : nat) (its : list (nat * list record))
  : list entry :=
  match fuel with
  | O => []
  | S fuel' =>
      match pop_least its with
      | None => []
      | Some (e, its') => e :: merge_loop fuel' its'
      end
  end.

(** The values heapq.merge yields, each with the position of the iterator
    it came from; one round per value. *)
Definition heapq_merge (iterables : list (list record)) : list entry :=
  let its := combine (seq 0 (List.length iterables)) iterables in
  merge_loop (List.length (entries its)) its.

(** *** The order of keys and of heap entries

    From here on [<] is a strict total order on the values compared and
    [==] is equality, as on the ints or the strings of one field. *)
#[local] Unset Implicit Arguments.

Hypothesis value_eqb_eq : forall x y, value_eqb x y = true <-> x = y.
Hypothesis value_ltb_irrefl : forall x, value_ltb x x = false.
Hypothesis value_ltb_trans : forall x y z,
  value_ltb x y = true -> value_ltb y z = true -> value_ltb x z = true.
Hypothesis value_ltb_total : forall x y,
  value_ltb x y = false -> value_ltb y x = false -> x = y.

Lemma value_eqb_refl (x : value) : value_eqb x x = true.
Proof. apply value_eqb_eq. reflexivity. Qed.

Lemma value_eqb_neq (x y : value) : value_eqb x y = false -> x <> y.
Proof. intros H E. apply value_eqb_eq in E. congruence. Qed.

Lemma tuple_eqb_eq (a : list value) : forall b,
  tuple_eqb a b = true <-> a = b.
Proof.
  induction a as [| x a IH]; intros [| y b]; simpl; split; intros H;
    try discriminate; try reflexivity.
  - apply andb_true_iff in H. destruct H as [H1 H2].
    apply value_eqb_eq in H1. apply IH in H2. congruence.
  - injection H as -> ->. rewrite value_eqb_refl. apply IH. reflexivity.
Qed.

Lemma tuple_ltb_irrefl (a : list value) : tuple_ltb a a = false.
Proof.
  induction a as [| x a IH]; simpl; [reflexivity |].
  rewrite value_eqb_refl. exact IH.
Qed.

Lemma tuple_ltb_trans (a : list value) : forall b c,
  tuple_ltb a b = true -> tuple_ltb b c = true -> tuple_ltb a c = true.
Proof.
  induction a as [| x a IH]; intros [| y b] [| z c] H1 H2; simpl in *;
    try discriminate; try reflexivity.
  destruct (value_eqb x y) eqn:Exy; destruct (value_eqb y z) eqn:Eyz.
  - apply value_eqb_eq in Exy, Eyz. subst. rewrite value_eqb_refl.
    exact (IH _ _ H1 H2).
  - apply value_eqb_eq in Exy. subst. rewrite Eyz. exact H2.
  - apply value_eqb_eq in Eyz. subst. rewrite Exy. exact H1.
  - destruct (value_eqb x z) eqn:Exz.
    + apply value_eqb_eq in Exz. subst.
      pose proof (value_ltb_trans _ _ _ H1 H2) as T.
      rewrite value_ltb_irrefl in T. discriminate T.
    + exact (value_ltb_trans _ _ _ H1 H2).
Qed.

Lemma tuple_ltb_total (a : list value) : forall b,
  tuple_ltb a b = false -> tuple_ltb b a = false -> a = b.
Proof.
  induction a as [| x a IH]; intros [| y b] H1 H2; simpl in *;
    try discriminate; try reflexivity.
  destruct (value_eqb x y) eqn:Exy.
  - apply value_eqb_eq in Exy. subst. rewrite value_eqb_refl in H2.
    f_equal. exact (IH _ H1 H2).
  - destruct (value_eqb y x) eqn:Eyx.
    + apply value_eqb_eq in Eyx. subst. rewrite value_eqb_refl in Exy.
      discriminate Exy.
    + pose proof (value_ltb_total _ _ H1 H2). subst.
      rewrite value_eqb_refl in Exy. discriminate Exy.
Qed.

(** [a <= b] on keys: not [b < a]. *)
Definition key_le (a b : record) : Prop := tuple_ltb (key b) (key a) = false.

Lemma tuple_le_trans (a b c : list value) :
  tuple_ltb b a = false -> tuple_ltb c b = false -> tuple_ltb c a = false.
Proof.
  intros H1 H2. destruct (tuple_ltb c a) eqn:H; [| reflexivity].
  destruct (tuple_ltb a b) eqn:Hab.
  - rewrite (tuple_ltb_trans _ _ _ H Hab) in H2. discriminate H2.
  - pose proof (tuple_ltb_total _ _ Hab H1). subst. congruence.
Qed.

Lemma tuple_lt_le (a b : list value) :
  tuple_ltb a b = true -> tuple_ltb b a = false.
Proof.
  intros H. destruct (tuple_ltb b a) eqn:H'; [| reflexivity].
  pose proof (tuple_ltb_trans _ _ _ H H') as T.
  rewrite tuple_ltb_irrefl in T. discriminate T.
Qed.

Lemma key_le_trans (a b c : record) : key_le a b -> key_le b c -> key_le a c.
Proof. unfold key_le. intros H1 H2. exact (tuple_le_trans _ _ _ H1 H2). Qed.

(** [a <= b] on heap entries. *)
Definition entry_le (a b : entry) : Prop := entry_ltb b a = false.

Lemma entry_le_refl (a : entry) : entry_le a a.
Proof.
  unfold entry_le, entry_ltb.
  rewrite (proj2 (tuple_eqb_eq _ _) eq_refl). apply Nat.ltb_irrefl.
Qed.

Lemma entry_ltb_trans (a b c : entry) :
  entry_ltb a b = true -> entry_ltb b c = true -> entry_ltb a c = true.
Proof.
  unfold entry_ltb. intros H1 H2.
  destruct (tuple_eqb (key (snd a)) (key (snd b))) eqn:Eab;
    destruct (tuple_eqb (key (snd b)) (key (snd c))) eqn:Ebc.
  - apply tuple_eqb_eq in Eab, Ebc. rewrite Eab, Ebc.
    rewrite (proj2 (tuple_eqb_eq _ _) eq_refl).
    apply Nat.ltb_lt in H1, H2. apply Nat.ltb_lt. lia.
  - apply tuple_eqb_eq in Eab. rewrite Eab, Ebc. exact H2.
  - apply tuple_eqb_eq in Ebc. rewrite <- Ebc, Eab. exact H1.
  - pose proof (tuple_ltb_trans _ _ _ H1 H2) as T.
    destruct (tuple_eqb (key (snd a)) (key (snd c))) eqn:Eac; [| exact T].
    apply tuple_eqb_eq in Eac. rewrite Eac in H1.
    pose proof (tuple_ltb_trans _ _ _ H1 H2) as T'.
    rewrite tuple_ltb_irrefl in T'. discriminate T'.
Qed.

Lemma entry_ltb_irrefl (a : entry) : entry_ltb a a = false.
Proof. apply entry_le_refl. Qed.

Lemma entry_lt_le (a b : entry) : entry_ltb a b = true -> entry_le a b.
Proof.
  unfold entry_le. intros H. destruct (entry_ltb b a) eqn:H'; [| reflexivity].
  pose proof (entry_ltb_trans _ _ _ H H') as T.
  rewrite entry_ltb_irrefl in T. discriminate T.
Qed.

(** Two entries that are not comparable by [<] have the same key and the
    same order. *)
Lemma entry_ltb_total (a b : entry) :
  entry_ltb a b = false -> entry_ltb b a = false ->
  key (snd a) = key (snd b) /\ fst a = fst b.
Proof.
  unfold entry_ltb. intros H1 H2.
  destruct (tuple_eqb (key (snd a)) (key (snd b))) eqn:Eab.
  - apply tuple_eqb_eq in Eab. rewrite Eab in H2.
    rewrite (proj2 (tuple_eqb_eq _ _) eq_refl) in H2.
    apply Nat.ltb_ge in H1, H2. split; [exact Eab | lia].
  - destruct (tuple_eqb (key (snd b)) (key (snd a))) eqn:Eba.
    + apply tuple_eqb_eq in Eba. rewrite Eba in Eab.
      rewrite (proj2 (tuple_eqb_eq _ _) eq_refl) in Eab. discriminate Eab.
    + pose proof (tuple_ltb_total _ _ H1 H2) as E. rewrite E in Eab.
      rewrite (proj2 (tuple_eqb_eq _ _) eq_refl) in Eab. discriminate Eab.
Qed.

Lemma entry_le_trans (a b c : entry) :
  entry_le a b -> entry_le b c -> entry_le a c.
Proof.
  unfold entry_le. intros H1 H2.
  destruct (entry_ltb c a) eqn:H; [| reflexivity].
  destruct (entry_ltb a b) eqn:Hab.
  - rewrite (entry_ltb_trans _ _ _ H Hab) in H2. discriminate H2.
  - destruct (entry_ltb_total _ _ Hab H1) as [Ek Eo].
    unfold entry_ltb in H, H2. rewrite Ek, Eo in H. congruence.
Qed.

(** Within one iterator the order of entries is the order of keys. *)
Lemma entry_le_same_order (order : nat) (x y : record) :
  key_le x y -> entry_le (order, x) (order, y).
Proof.
  unfold key_le, entry_le, entry_ltb. cbn [fst snd]. intros H.
  destruct (tuple_eqb (key y) (key x)); [apply Nat.ltb_irrefl | exact H].
Qed.

(** *** sorted and the spill files *)

Lemma insert_perm (reverse : bool) (x : record) (l : list record) :
  Permutation (insert reverse x l) (x :: l).
Proof.
  induction l as [| y l IH]; simpl; [apply Permutation_refl |].
  destruct (before reverse y x); [| apply Permutation_refl].
  apply perm_trans with (y :: x :: l); [| apply perm_swap].
  apply perm_skip. exact IH.
Qed.

Lemma sorted_perm (records : list record) (reverse : bool) :
  Permutation (sorted records reverse) records.
Proof.
  induction records as [| x records IH]; simpl; [apply perm_nil |].
  apply perm_trans with (x :: sorted records reverse).
  - apply insert_perm.
  - apply perm_skip. exact IH.
Qed.

Lemma insert_ascending (x : record) (l : list record) :
  StronglySorted key_le l -> StronglySorted key_le (insert false x l).
Proof.
  induction 1 as [| y l S IH F]; simpl.
  - constructor; constructor.
  - unfold before. destruct (tuple_ltb (key y) (key x)) eqn:E.
    + constructor; [exact IH |].
      apply (Permutation_Forall (Permutation_sym (insert_perm false x l))).
      constructor; [| exact F].
      unfold key_le. apply tuple_lt_le. exact E.
    + constructor; [constructor; assumption |].
      constructor; [exact E |].
      apply Forall_impl with (2 := F). intros z Hz.
      apply key_le_trans with y; [exact E | exact Hz].
Qed.

Lemma sorted_ascending (records : list record) :
  StronglySorted key_le (sorted records false).
Proof.
  induction records as [| x records IH]; simpl; [constructor |].
  apply insert_ascending. exact IH.
Qed.

(** The records of all spill files. *)
Definition contents (d : directory) : list record := flat_map snd d.

Lemma contents_written (tmp : directory) (batch_id : nat)
  (records : list record) (reverse : bool) :
  contents (sort_and_write_batch tmp batch_id records reverse)
  = contents tmp ++ sorted records reverse.
Proof.
  unfold contents, sort_and_write_batch. rewrite flat_map_app. simpl.
  rewrite app_nil_r. reflexivity.
Qed.

Lemma spill_perm (batch_size : nat) (reverse : bool) (reader : list record) :
  forall batch batch_id tmp,
  Permutation (contents (spill batch_size reverse reader batch batch_id tmp))
    (contents tmp ++ batch ++ reader).
Proof.
  induction reader as [| r reader IH]; intros batch batch_id tmp; simpl.
  - destruct batch as [| b batch].
    + rewrite app_nil_r. apply Permutation_refl.
    + rewrite contents_written, app_nil_r.
      apply Permutation_app_head. apply sorted_perm.
  - destruct (batch_size <=? List.length (batch ++ [r])).
    + eapply perm_trans; [apply IH |].
      rewrite contents_written. simpl. rewrite <- !app_assoc.
      apply Permutation_app_head.
      replace (batch ++ r :: reader) with ((batch ++ [r]) ++ reader)
        by (rewrite <- app_assoc; reflexivity).
      apply Permutation_app_tail. apply sorted_perm.
    + eapply perm_trans; [apply IH |].
      rewrite <- !app_assoc. apply Permutation_refl.
Qed.

(** Every iterator yields its records in ascending key order. *)
Definition ascending (its : list (nat * list record)) : Prop :=
  Forall (fun it => StronglySorted key_le (snd it)) its.

Lemma spill_ascending (batch_size : nat) (reader : list record) :
  forall batch batch_id tmp,
  ascending tmp ->
  ascending (spill batch_size false reader batch batch_id tmp).
Proof.
  assert (W : forall tmp batch_id records,
             ascending tmp ->
             ascending (sort_and_write_batch tmp batch_id records false)).
  { intros tmp batch_id records A. unfold sort_and_write_batch, ascending.
    apply Forall_app. split; [exact A |].
    constructor; [apply sorted_ascending | constructor]. }
  induction reader as [| r reader IH]; intros batch batch_id tmp A; simpl.
  - destruct batch; [exact A | apply W; exact A].
  - destruct (batch_size <=? List.length (batch ++ [r])); apply IH;
      [apply W |]; exact A.
Qed.

(** *** The merge *)

Lemma pop_least_none (its : list (nat * list record)) :
  pop_least its = None -> entries its = [].
Proof.
  induction its as [| [order values] its IH]; simpl; [reflexivity |].
  destruct values as [| v values].
  - destruct (pop_least its) as [[e rest'] |]; [discriminate |].
    intros _. apply IH. reflexivity.
  - destruct (pop_least its) as [[e rest'] |]; [| discriminate].
    destruct (entry_ltb e (order, v)); discriminate.
Qed.

Lemma pop_least_perm (its : list (nat * list record)) : forall e its',
  pop_least its = Some (e, its') ->
  Permutation (entries its) (e :: entries its').
Proof.
  induction its as [| [order values] its IH]; intros e its' H; simpl in H;
    [discriminate H |].
  destruct values as [| v values].
  - destruct (pop_least its) as [[e0 rest'] |] eqn:P; [| discriminate H].
    injection H as <- <-. unfold entries in *. simpl. apply (IH _ _ eq_refl).
  - destruct (pop_least its) as [[e0 rest'] |] eqn:P.
    + destruct (entry_ltb e0 (order, v)).
      * injection H as <- <-. unfold entries in *. cbn [flat_map fst snd].
        apply perm_trans
          with (map (pair order) (v :: values) ++ e0 :: flat_map
                  (fun it => map (pair (fst it)) (snd it)) rest').
        -- apply Permutation_app_head. apply (IH _ _ eq_refl).
        -- apply Permutation_sym. apply Permutation_middle.
      * injection H as <- <-. apply Permutation_refl.
    + injection H as <- <-. apply Permutation_refl.
Qed.

Lemma merge_loop_perm (n : nat) : forall its,
  List.length (entries its) = n ->
  Permutation (merge_loop n its) (entries its).
Proof.
  induction n as [| n IH]; intros its L; simpl.
  - apply length_zero_iff_nil in L. rewrite L. apply perm_nil.
  - destruct (pop_least its) as [[e its'] |] eqn:P.
    + pose proof (pop_least_perm _ _ _ P) as Q.
      apply perm_trans with (e :: entries its');
        [| apply Permutation_sym; exact Q].
      apply perm_skip. apply IH.
      apply Permutation_length in Q. simpl in Q. lia.
    + rewrite (pop_least_none _ P). apply perm_nil.
Qed.

Lemma first_of_ascending (order : nat) (v : record) (values : list record) :
  StronglySorted key_le (v :: values) ->
  Forall (entry_le (order, v)) (map (pair order) (v :: values)).
Proof.
  intros S. inversion S as [| ? ? _ F]; subst.
  cbn [map]. constructor; [apply entry_le_refl |].
  apply Forall_map. apply Forall_impl with (2 := F).
  intros z Hz. apply entry_le_same_order. exact Hz.
Qed.

(** The entry taken is least among all that is left to merge. *)
Lemma pop_least_least (its : list (nat * list record)) : forall e its',
  ascending its ->
  pop_least its = Some (e, its') ->
  Forall (entry_le e) (entries its) /\ ascending its'.
Proof.
  induction its as [| [order values] its IH]; intros e its' A H;
    simpl in H; [discriminate H |].
  inversion A as [| ? ? S A']; subst. cbn [snd] in S.
  destruct values as [| v values].
  - destruct (pop_least its) as [[e0 rest'] |] eqn:P; [| discriminate H].
    injection H as <- <-. destruct (IH _ _ A' eq_refl) as [F R].
    split; [exact F |]. constructor; [constructor | exact R].
  - pose proof (first_of_ascending order v values S) as Fv.
    assert (Tail : StronglySorted key_le values)
      by (inversion S; assumption).
    destruct (pop_least its) as [[e0 rest'] |] eqn:P.
    + destruct (IH _ _ A' eq_refl) as [F R].
      destruct (entry_ltb e0 (order, v)) eqn:E.
      * injection H as <- <-. split.
        -- unfold entries in *. cbn [flat_map fst snd].
           apply Forall_app. split; [| exact F].
           apply Forall_impl with (2 := Fv). intros z Hz.
           apply entry_le_trans with (order, v);
             [apply entry_lt_le; exact E | exact Hz].
        -- constructor; [exact S | exact R].
      * injection H as <- <-. split.
        -- unfold entries in *. cbn [flat_map fst snd].
           apply Forall_app. split; [exact Fv |].
           apply Forall_impl with (2 := F). intros z Hz.
           apply entry_le_trans with e0; [exact E | exact Hz].
        -- constructor; [exact Tail | exact A'].
    + injection H as <- <-. split.
      * pose proof (pop_least_none _ P) as N.
        unfold entries in *. cbn [flat_map fst snd].
        rewrite N, app_nil_r. exact Fv.
      * constructor; [exact Tail | exact A'].
Qed.

Lemma merge_loop_sorted (n : nat) : forall its,
  ascending its ->
  List.length (entries its) = n ->
  StronglySorted entry_le (merge_loop n its).
Proof.
  induction n as [| n IH]; intros its A L; simpl; [constructor |].
  destruct (pop_least its) as [[e its'] |] eqn:P; [| constructor].
  destruct (pop_least_least _ _ _ A P) as [F A'].
  pose proof (pop_least_perm _ _ _ P) as Q.
  assert (L' : List.length (entries its') = n).
  { apply Permutation_length in Q. simpl in Q. lia. }
  constructor; [apply IH; assumption |].
  apply (Permutation_Forall (Permutation_sym (merge_loop_perm n its' L'))).
  pose proof (Permutation_Forall Q F) as F'.
  inversion F'; assumption.
Qed.

Lemma entries_enumerate (iterables : list (list record)) : forall k,
  map snd (entries (combine (seq k (List.length iterables)) iterables))
  = List.concat iterables.
Proof.
  induction iterables as [| l iterables IH]; intros k; [reflexivity |].
  cbn [List.length seq combine List.concat]. unfold entries in *.
  cbn [flat_map fst snd]. rewrite map_app, IH, map_map. cbn [snd].
  rewrite map_id. reflexivity.
Qed.

Lemma ascending_enumerate (iterables : list (list record)) : forall k,
  Forall (StronglySorted key_le) iterables ->
  ascending (combine (seq k (List.length iterables)) iterables).
Proof.
  induction iterables as [| l iterables IH]; intros k F;
    cbn [List.length seq combine]; [constructor |].
  inversion F; subst. constructor; [assumption | apply IH; assumption].
Qed.

Lemma heapq_merge_perm (iterables : list (list record)) :
  Permutation (map snd (heapq_merge iterables)) (List.concat iterables).
Proof.
  unfold heapq_merge. rewrite <- (entries_enumerate iterables 0).
  apply Permutation_map. apply merge_loop_perm. reflexivity.
Qed.

Lemma heapq_merge_sorted (iterables : list (list record)) :
  Forall (StronglySorted key_le) iterables ->
  StronglySorted entry_le (heapq_merge iterables).
Proof.
  intros F. unfold heapq_merge. apply merge_loop_sorted; [| reflexivity].
  apply ascending_enumerate. exact F.
Qed.

Section WithListing.

(** os.listdir(tmp): the spill files in the order the file system lists
    them, which Python leaves arbitrary. *)
Variable listdir : directory -> directory.

(** filesort(input_url, output_url, sort_fields, reverse, batch_size): the
    records written, each with the listing position of the spill file it
    was read from. *)
Definition filesort_merge (reverse : bool) (batch_size : nat)
  (input : list record) : list entry :=
  let tmp := spill batch_size reverse input [] 0 [] in
  let sorted_iterators := map snd (listdir tmp) in
  heapq_merge sorted_iterators.

Definition filesort (reverse : bool) (batch_size : nat)
  (input : list record) : list record :=
  map snd (filesort_merge reverse batch_size input).

(** *** filesort *)

(** The listing holds every spill file once. *)
Hypothesis listdir_perm : forall d : directory, Permutation (listdir d) d.

(** The output holds the records of the input, whatever the flag, the
    batch size and the listing order. *)
Lemma filesort_perm (reverse : bool) (batch_size : nat)
  (input : list record) :
  Permutation (filesort reverse batch_size input) input.
Proof.
  unfold filesort, filesort_merge.
  eapply perm_trans; [apply heapq_merge_perm |].
  rewrite <- flat_map_concat_map.
  eapply perm_trans; [apply Permutation_flat_map; apply listdir_perm |].
  apply (spill_perm batch_size reverse input [] 0 []).
Qed.

Lemma filesort_merge_sorted (batch_size : nat) (input : list record) :
  StronglySorted entry_le (filesort_merge false batch_size input).
Proof.
  unfold filesort_merge. apply heapq_merge_sorted.
  apply Forall_map.
  apply (Permutation_Forall (Permutation_sym (listdir_perm _))).
  apply (spill_ascending batch_size input [] 0 []). constructor.
Qed.

Lemma entry_le_key (a b : entry) : entry_le a b -> key_le (snd a) (snd b).
Proof.
  unfold entry_le, entry_ltb, key_le. intros H.
  destruct (tuple_eqb (key (snd b)) (key (snd a))) eqn:E; [| exact H].
  apply tuple_eqb_eq in E. rewrite E. apply tuple_ltb_irrefl.
Qed.

(** Without the reverse flag the output is in ascending key order. *)
Lemma filesort_ascending (batch_size : nat) (input : list record) :
  StronglySorted key_le (filesort false batch_size input).
Proof.
  unfold filesort.
  induction (filesort_merge_sorted batch_size input) as [| e l _ IH F];
    cbn [map]; constructor; [exact IH |].
  apply Forall_map. apply Forall_impl with (2 := F).
  intros z. apply entry_le_key.
Qed.

Lemma sorted_apart (A : Type) (R : A -> A -> Prop) (l1 : list A) :
  forall a l2 b l3,
  StronglySorted R (l1 ++ a :: l2 ++ b :: l3) -> R a b.
Proof.
  induction l1 as [| x l1 IH]; intros a l2 b l3 S; cbn [app] in S;
    inversion S as [| ? ? S' F]; subst.
  - apply Forall_app in F. destruct F as [_ F]. inversion F; assumption.
  - exact (IH _ _ _ _ S').
Qed.

(** C8, as the code has it: without the reverse flag, of two records with
    equal keys the one written first comes from the spill file listed
    first (or from the same file); the position is the one in the listing
    os.listdir returns, whatever the batch numbers. *)
Theorem merge_ties_by_listing_order (batch_size : nat)
  (input : list record) (l1 l2 l3 : list entry) (a b : entry) :
  filesort_merge false batch_size input = l1 ++ a :: l2 ++ b :: l3 ->
  key (snd a) = key (snd b) ->
  fst a <= fst b.
Proof.
  intros E K.
  pose proof (filesort_merge_sorted batch_size input) as S.
  rewrite E in S. apply sorted_apart in S.
  unfold entry_le, entry_ltb in S. rewrite K in S.
  rewrite (proj2 (tuple_eqb_eq _ _) eq_refl) in S.
  apply Nat.ltb_ge in S. exact S.
Qed.

(** *** The whole sort *)

(** X18: filesort writes the records of the input, each as often as the input
    holds it, whatever the flag, the batch size and the order in which the
    spill files are listed. *)
Theorem filesort_keeps_every_record (reverse : bool) (batch_size : nat)
  (input : list record) :
  Permutation (filesort reverse batch_size input) input.
Proof.
  unfold filesort, filesort_merge.
  apply perm_trans with (List.concat (map snd (listdir
    (spill batch_size reverse input [] 0 [])))); [apply heapq_merge_perm |].
  rewrite <- flat_map_concat_map.
  apply perm_trans with (contents (spill batch_size reverse input [] 0 [])).
  - apply Permutation_flat_map. apply listdir_perm.
  - apply (spill_perm batch_size reverse input [] 0 []).
Qed.

(** X19: Without the reverse flag the output is in ascending key order, for
    every batch size and every listing order of the spill files. *)
Theorem filesort_sorts_ascending (batch_size : nat) (input : list record) :
  StronglySorted key_le (filesort false batch_size input).
Proof.
  assert (S : StronglySorted entry_le (filesort_merge false batch_size input)).
  { unfold filesort_merge. apply heapq_merge_sorted. apply Forall_map.
    apply (Permutation_Forall (Permutation_sym (listdir_perm _))).
    apply (spill_ascending batch_size input [] 0 []). constructor. }
  unfold filesort.
  induction S as [| e l _ IH F]; cbn [map]; constructor; [exact IH |].
  apply Forall_map. apply Forall_impl with (2 := F).
  intros z. apply entry_le_key.
Qed.

(** *** One batch: the flag is honoured *)

(** [a] may stand before [b] in a list sorted with the flag. *)
Definition in_flag_order (reverse : bool) (a b : record) : Prop :=
  before reverse b a = false.

Lemma before_asym (reverse : bool) (a b : record) :
  before reverse a b = true -> before reverse b a = false.
Proof. unfold before. destruct reverse; apply tuple_lt_le. Qed.

Lemma in_flag_order_trans (reverse : bool) (a b c : record) :
  in_flag_order reverse a b -> in_flag_order reverse b c ->
  in_flag_order reverse a c.
Proof.
  unfold in_flag_order, before. destruct reverse; intros H1 H2.
  - exact (tuple_le_trans _ _ _ H2 H1).
  - exact (tuple_le_trans _ _ _ H1 H2).
Qed.

Lemma insert_in_flag_order (reverse : bool) (x : record) (l : list record) :
  StronglySorted (in_flag_order reverse) l ->
  StronglySorted (in_flag_order reverse) (insert reverse x l).
Proof.
  induction 1 as [| y l S IH F]; cbn [insert].
  - constructor; constructor.
  - destruct (before reverse y x) eqn:E.
    + constructor; [exact IH |].
      apply (Permutation_Forall (Permutation_sym (insert_perm reverse x l))).
      constructor; [| exact F].
      apply before_asym. exact E.
    + constructor; [constructor; assumption |].
      constructor; [exact E |].
      apply Forall_impl with (2 := F). intros z Hz.
      apply in_flag_order_trans with y; [exact E | exact Hz].
Qed.

Lemma sorted_in_flag_order (records : list record) (reverse : bool) :
  StronglySorted (in_flag_order reverse) (sorted records reverse).
Proof.
  induction records as [| x records IH]; cbn [sorted fold_right];
    [constructor |].
  apply insert_in_flag_order. exact IH.
Qed.

(** An input that fits one batch is written to one spill file. *)
Lemma spill_one_batch (batch_size : nat) (reverse : bool)
  (reader : list record) : forall batch batch_id tmp,
  List.length batch + List.length reader <= batch_size ->
  spill batch_size reverse reader batch batch_id tmp
  = match batch ++ reader with
    | [] => tmp
    | _ :: _ => tmp ++ [(batch_id, sorted (batch ++ reader) reverse)]
    end.
Proof.
  induction reader as [| r reader IH]; intros batch batch_id tmp L;
    cbn [spill].
  - rewrite app_nil_r. destruct batch; reflexivity.
  - cbn [List.length] in L.
    assert (E : (batch ++ [r]) ++ reader = batch ++ r :: reader)
      by (rewrite <- app_assoc; reflexivity).
    destruct (Nat.leb_spec batch_size (List.length (batch ++ [r]))) as [B | B].
    + rewrite length_app in B. cbn [List.length] in B.
      destruct reader as [| r' reader]; [| cbn [List.length] in L; lia].
      cbn [spill]. unfold sort_and_write_batch.
      destruct batch; reflexivity.
    + rewrite IH by (rewrite length_app; cbn [List.length]; lia).
      rewrite E. reflexivity.
Qed.

Lemma merge_loop_one (order : nat) (values : list record) :
  merge_loop (List.length values) [(order, values)]
  = map (pair order) values.
Proof.
  induction values as [| v values IH]; [reflexivity |].
  cbn [List.length merge_loop pop_least map]. rewrite IH. reflexivity.
Qed.

(** X20: With the whole input in one batch (at most batch_size records),
    filesort writes what sorted(records, key=sort_key, reverse=reverse)
    returns: the records in ascending key order, or in descending key order
    under the reverse flag. *)
Theorem filesort_single_batch (reverse : bool) (batch_size : nat)
  (input : list record) :
  List.length input <= batch_size ->
  filesort reverse batch_size input = sorted input reverse
  /\ StronglySorted (in_flag_order reverse)
       (filesort reverse batch_size input).
Proof.
  intros L.
  assert (E : filesort reverse batch_size input = sorted input reverse).
  { unfold filesort, filesort_merge.
    rewrite (spill_one_batch batch_size reverse input [] 0 [])
      by (cbn [List.length]; lia).
    cbn [app]. destruct input as [| r input].
    - pose proof (listdir_perm []) as P.
      apply Permutation_sym, Permutation_nil in P. rewrite P. reflexivity.
    - set (s := sorted (r :: input) reverse).
      pose proof (listdir_perm [(0, s)]) as P.
      apply Permutation_sym, Permutation_length_1_inv in P. rewrite P.
      unfold heapq_merge. cbn [map snd List.length seq combine].
      unfold entries. cbn [flat_map fst snd]. rewrite app_nil_r, length_map.
      rewrite merge_loop_one, map_map. cbn [snd]. apply map_id. }
  split; [exact E |]. rewrite E. apply sorted_in_flag_order.
Qed.

(** *** Stability *)

(** The records of key [k], in the order of [l]. *)
Definition of_key (k : list value) (l : list record) : list record :=
  filter (fun r => tuple_eqb (key r) k) l.

Lemma of_key_app (k : list value) (a b : list record) :
  of_key k (a ++ b) = of_key k a ++ of_key k b.
Proof. apply filter_app. Qed.

Lemma insert_of_key (reverse : bool) (k : list value) (x : record)
  (l : list record) :
  of_key k (insert reverse x l) = of_key k (x :: l).
Proof.
  induction l as [| y l IH]; [reflexivity |].
  cbn [insert]. destruct (before reverse y x) eqn:E; [| reflexivity].
  unfold of_key in *. cbn [filter] in *. rewrite IH.
  destruct (tuple_eqb (key y) k) eqn:Ey; [| reflexivity].
  destruct (tuple_eqb (key x) k) eqn:Ex; [| reflexivity].
  apply tuple_eqb_eq in Ey, Ex. unfold before in E. rewrite Ey, Ex in E.
  destruct reverse; rewrite tuple_ltb_irrefl in E; discriminate E.
Qed.

Lemma sorted_of_key (k : list value) (records : list record)
  (reverse : bool) :
  of_key k (sorted records reverse) = of_key k records.
Proof.
  induction records as [| x records IH]; [reflexivity |].
  cbn [sorted fold_right]. rewrite insert_of_key.
  unfold of_key in *. cbn [filter]. unfold sorted in IH. rewrite IH.
  reflexivity.
Qed.

Lemma spill_of_key (k : list value) (batch_size : nat) (reverse : bool)
  (reader : list record) : forall batch batch_id tmp,
  of_key k (contents (spill batch_size reverse reader batch batch_id tmp))
  = of_key k (contents tmp) ++ of_key k batch ++ of_key k reader.
Proof.
  induction reader as [| r reader IH]; intros batch batch_id tmp;
    cbn [spill].
  - destruct batch as [| b batch].
    + rewrite app_nil_r. reflexivity.
    + rewrite contents_written, of_key_app, sorted_of_key, app_nil_r.
      reflexivity.
  - replace (of_key k (r :: reader)) with (of_key k [r] ++ of_key k reader)
      by (rewrite <- of_key_app; reflexivity).
    destruct (batch_size <=? List.length (batch ++ [r])).
    + rewrite IH, contents_written, of_key_app, sorted_of_key, of_key_app.
      change (of_key k []) with (@nil record). cbn [app].
      rewrite <- !app_assoc. reflexivity.
    + rewrite IH, of_key_app, <- !app_assoc. reflexivity.
Qed.

Lemma of_key_none (k : list value) (l : list record) :
  Forall (fun r => tuple_eqb (key r) k = false) l -> of_key k l = [].
Proof.
  induction 1 as [| r l Hr _ IH]; [reflexivity |].
  unfold of_key in *. cbn [filter]. rewrite Hr. exact IH.
Qed.

(** The entry taken is the head of one iterator, which keeps its place. *)
Lemma pop_least_shape (its : list (nat * list record)) : forall e its',
  pop_least its = Some (e, its') ->
  exists pre values post,
    its = pre ++ (fst e, snd e :: values) :: post
    /\ its' = pre ++ (fst e, values) :: post.
Proof.
  induction its as [| [order values] its IH]; intros e its' H;
    cbn [pop_least] in H; [discriminate H |].
  destruct values as [| v values].
  - destruct (pop_least its) as [[e0 rest'] |] eqn:P; [| discriminate H].
    injection H as <- <-.
    destruct (IH _ _ eq_refl) as (pre & vs & post & -> & ->).
    exists ((order, []) :: pre), vs, post. split; reflexivity.
  - destruct (pop_least its) as [[e0 rest'] |] eqn:P.
    + destruct (entry_ltb e0 (order, v)).
      * injection H as <- <-.
        destruct (IH _ _ eq_refl) as (pre & vs & post & -> & ->).
        exists ((order, v :: values) :: pre), vs, post. split; reflexivity.
      * injection H as <- <-. exists [], values, its. split; reflexivity.
    + injection H as <- <-. exists [], values, its. split; reflexivity.
Qed.

Definition all_of_key (k : list value) (its : list (nat * list record))
  : list record :=
  flat_map (fun it => of_key k (snd it)) its.

Lemma all_of_key_none (k : list value) (its : list (nat * list record)) :
  entries its = [] -> all_of_key k its = [].
Proof.
  induction its as [| [order values] its IH]; [reflexivity |].
  unfold entries, all_of_key in *. cbn [flat_map fst snd].
  intros H. apply app_eq_nil in H. destruct H as [H1 H2].
  destruct values; [| discriminate H1]. exact (IH H2).
Qed.

(** The merge keeps the records of one key in the order of the iterators,
    and within an iterator in its order, when the iterators are numbered
    upwards. *)
Lemma merge_loop_of_key (k : list value) (n : nat) : forall its,
  ascending its ->
  StronglySorted lt (map fst its) ->
  List.length (entries its) = n ->
  of_key k (map snd (merge_loop n its)) = all_of_key k its.
Proof.
  induction n as [| n IH]; intros its A O L; cbn [merge_loop].
  - apply length_zero_iff_nil in L. rewrite (all_of_key_none k its L).
    reflexivity.
  - destruct (pop_least its) as [[e its'] |] eqn:P.
    2:{ rewrite (pop_least_none _ P) in L. discriminate L. }
    destruct (pop_least_least _ _ _ A P) as [F A'].
    pose proof (pop_least_perm _ _ _ P) as Q.
    destruct (pop_least_shape _ _ _ P) as (pre & vs & post & Ei & Ei').
    destruct e as [o v]. cbn [fst snd] in Ei, Ei'.
    assert (O' : StronglySorted lt (map fst its')).
    { rewrite Ei'. rewrite Ei in O. rewrite map_app. rewrite map_app in O.
      exact O. }
    assert (L' : List.length (entries its') = n).
    { apply Permutation_length in Q. cbn [List.length] in Q. lia. }
    cbn [map snd]. unfold of_key at 1. cbn [filter].
    fold (of_key k (map snd (merge_loop n its'))).
    rewrite (IH its' A' O' L').
    rewrite Ei'. rewrite Ei at 1. unfold all_of_key. rewrite !flat_map_app.
    cbn [flat_map snd].
    replace (of_key k (v :: vs))
      with (if tuple_eqb (key v) k then v :: of_key k vs else of_key k vs)
      by reflexivity.
    destruct (tuple_eqb (key v) k) eqn:Ev; [| reflexivity].
    assert (N : flat_map (fun it => of_key k (snd it)) pre = []).
    { apply tuple_eqb_eq in Ev. subst k.
      rewrite Ei in O, F. rewrite map_app in O. cbn [map fst] in O.
      unfold entries in F. rewrite flat_map_app in F.
      apply Forall_app in F. destruct F as [F _].
      clear -O F value_eqb_eq.
      induction pre as [| [o' ws] pre IHp]; [reflexivity |].
      cbn [flat_map fst snd map app] in *.
      inversion O as [| ? ? O1 O2]; subst.
      apply Forall_app in F. destruct F as [Fw Fp].
      rewrite (IHp O1 Fp), app_nil_r.
      apply Forall_app in O2. destruct O2 as [_ O2].
      inversion O2 as [| ? ? Lt _]; subst.
      apply of_key_none. rewrite Forall_map in Fw.
      apply Forall_impl with (2 := Fw). intros w Hw.
      unfold entry_le, entry_ltb in Hw. cbn [fst snd] in Hw.
      destruct (tuple_eqb (key w) (key v)) eqn:Ew; [| reflexivity].
      apply Nat.ltb_ge in Hw. lia. }
    rewrite N. reflexivity.
Qed.

Lemma seq_increasing (n : nat) : forall k, StronglySorted lt (seq k n).
Proof.
  induction n as [| n IH]; intros k; cbn [seq]; constructor; [apply IH |].
  apply Forall_forall. intros x Hx. apply in_seq in Hx. lia.
Qed.

Lemma orders_enumerate (iterables : list (list record)) : forall k,
  map fst (combine (seq k (List.length iterables)) iterables)
  = seq k (List.length iterables).
Proof.
  induction iterables as [| l iterables IH]; intros k; [reflexivity |].
  cbn [List.length seq combine map fst]. rewrite IH. reflexivity.
Qed.

Lemma all_of_key_enumerate (k : list value) (iterables : list (list record)) :
  forall j,
  all_of_key k (combine (seq j (List.length iterables)) iterables)
  = of_key k (List.concat iterables).
Proof.
  induction iterables as [| l iterables IH]; intros j; [reflexivity |].
  cbn [List.length seq combine List.concat]. unfold all_of_key in *.
  cbn [flat_map snd]. rewrite IH, of_key_app. reflexivity.
Qed.

(** X21: filesort is a stable sort when the spill files are listed in the order
    they were written and the reverse flag is unset: the records of one
    key come out in the order the input has them. *)
Theorem filesort_stable_in_listing_order (batch_size : nat)
  (input : list record) (k : list value) :
  (forall d : directory, listdir d = d) ->
  of_key k (filesort false batch_size input) = of_key k input.
Proof.
  intros Id. unfold filesort, filesort_merge, heapq_merge. rewrite Id.
  set (tmp := spill batch_size false input [] 0 []).
  rewrite merge_loop_of_key.
  - rewrite all_of_key_enumerate, <- flat_map_concat_map.
    fold (contents tmp). unfold tmp. rewrite spill_of_key. reflexivity.
  - apply ascending_enumerate. apply Forall_map.
    apply (spill_ascending batch_size input [] 0 []). constructor.
  - rewrite orders_enumerate. apply seq_increasing.
  - reflexivity.
Qed.

(** *** The spill files *)

Lemma sorted_length (records : list record) (reverse : bool) :
  List.length (sorted records reverse) = List.length records.
Proof. apply Permutation_length. apply sorted_perm. Qed.

(** The spill files hold between one and batch_size records each. *)
Definition within (batch_size : nat) (tmp : directory) : Prop :=
  Forall (fun file => 1 <= List.length (snd file) <= batch_size) tmp.

Lemma spill_within (batch_size : nat) (reverse : bool) (reader : list record) :
  forall batch batch_id tmp,
  List.length batch < batch_size ->
  within batch_size tmp ->
  map fst tmp = seq 0 batch_id ->
  let out := spill batch_size reverse reader batch batch_id tmp in
  within batch_size out /\ map fst out = seq 0 (List.length out).
Proof.
  assert (W : forall batch batch_id tmp,
             1 <= List.length batch <= batch_size ->
             within batch_size tmp ->
             map fst tmp = seq 0 batch_id ->
             within batch_size (sort_and_write_batch tmp batch_id batch reverse)
             /\ map fst (sort_and_write_batch tmp batch_id batch reverse)
                = seq 0 (S batch_id)).
  { intros batch batch_id tmp L F I. unfold sort_and_write_batch, within.
    split.
    - apply Forall_app. split; [exact F |].
      constructor; [| constructor]. cbn [snd]. rewrite sorted_length. exact L.
    - rewrite map_app, I. cbn [map fst]. rewrite seq_S. reflexivity. }
  assert (Len : forall (tmp : directory) batch_id,
             map fst tmp = seq 0 batch_id -> List.length tmp = batch_id).
  { intros tmp batch_id I. apply (f_equal (@List.length nat)) in I.
    rewrite length_map, length_seq in I. exact I. }
  induction reader as [| r reader IH]; intros batch batch_id tmp L F I;
    cbn [spill].
  - destruct batch as [| b batch].
    + split; [exact F |]. rewrite (Len _ _ I). exact I.
    + destruct (W (b :: batch) batch_id tmp) as [F' I']; auto.
      * cbn [List.length] in *. lia.
      * split; [exact F' |]. rewrite (Len _ _ I'). exact I'.
  - destruct (Nat.leb_spec batch_size (List.length (batch ++ [r]))) as [B | B].
    + destruct (W (batch ++ [r]) batch_id tmp) as [F' I']; auto.
      * rewrite length_app in *. cbn [List.length] in *. lia.
      * apply IH; auto. cbn [List.length]. lia.
    + apply IH; auto.
Qed.

(** X22: The spill phase never holds or writes more than batch_size records at
    a time: for a batch size of at least one, every spill file holds between
    one and batch_size records, sorted from a batch of consecutive input
    records, and the files are numbered 0, 1, 2, ... in the order written. *)
Theorem spill_files_bounded (batch_size : nat) (reverse : bool)
  (input : list record) :
  1 <= batch_size ->
  let tmp := spill batch_size reverse input [] 0 [] in
  within batch_size tmp
  /\ map fst tmp = seq 0 (List.length tmp)
  /\ Permutation (contents tmp) input.
Proof.
  intros B tmp.
  destruct (spill_within batch_size reverse input [] 0 []) as [F I].
  - cbn [List.length]. lia.
  - constructor.
  - reflexivity.
  - split; [exact F |]. split; [exact I |].
    apply (spill_perm batch_size reverse input [] 0 []).
Qed.

End WithListing.

End WithKey.

End FileSort.

(** *** Records with int fields

    The values are [Some i]; [None] stands for Python's None and is put
    before every int only to make the order total: no record below holds
    it. *)
Definition int_eqb (a b : option Z) : bool :=
  match a, b with
  | Some x, Some y => Z.eqb x y
  | None, None => true
  | _, _ => false
  end.

Definition int_ltb (a b : option Z) : bool :=
  match a, b with
  | Some x, Some y => Z.ltb x y
  | None, Some _ => true
  | _, _ => false
  end.

Lemma int_eqb_eq (x y : option Z) : int_eqb x y = true <-> x = y.
Proof.
  destruct x as [x |], y as [y |]; simpl; split; intros H;
    try discriminate; try reflexivity.
  - apply Z.eqb_eq in H. now subst.
  - injection H as ->. apply Z.eqb_refl.
Qed.

Lemma int_ltb_irrefl (x : option Z) : int_ltb x x = false.
Proof. destruct x; simpl; [apply Z.ltb_irrefl | reflexivity]. Qed.

Lemma int_ltb_trans (x y z : option Z) :
  int_ltb x y = true -> int_ltb y z = true -> int_ltb x z = true.
Proof.
  destruct x, y, z; simpl; intros H1 H2; try discriminate; try reflexivity.
  apply Z.ltb_lt in H1, H2. apply Z.ltb_lt. lia.
Qed.

Lemma int_ltb_total (x y : option Z) :
  int_ltb x y = false -> int_ltb y x = false -> x = y.
Proof.
  destruct x, y; simpl; intros H1 H2; try discriminate; try reflexivity.
  apply Z.ltb_ge in H1, H2. f_equal. lia.
Qed.

Definition int_record (id name : Z) : record (option Z) :=
  [("id"%string, Some id); ("name"%string, Some name)].

(** filesort on such records, sorted by "id". *)
Definition filesort_by_id
  (listdir : directory (option Z) -> directory (option Z))
  : bool -> nat -> list (record (option Z)) -> list (record (option Z)) :=
  @filesort (option Z) None int_eqb int_ltb ["id"%string] listdir.

Definition in_order (d : directory (option Z)) : directory (option Z) := d.

Definition backwards (d : directory (option Z)) : directory (option Z) :=
  rev d.

(** C1 on the code: with reverse set and one record per batch, the records
    of ids 1 and 2 come out as 1, 2, in whichever order the two spill files
    are listed: the batches are sorted with the flag, the merge runs
    without it.  In a single batch the same records come out as 2, 1. *)
Theorem reverse_merge_ascending :
  filesort_by_id in_order true 1 [int_record 1 10; int_record 2 20]
  = [int_record 1 10; int_record 2 20]
  /\ filesort_by_id backwards true 1 [int_record 1 10; int_record 2 20]
     = [int_record 1 10; int_record 2 20]
  /\ filesort_by_id in_order true 2 [int_record 1 10; int_record 2 20]
     = [int_record 2 20; int_record 1 10].
Proof. repeat split; reflexivity. Qed.

(** C8 as stated fails: the records of spill files 0 and 1 have the same
    key, the listing gives file 1 first, and the record of file 1 is
    written first. *)
Lemma merge_ties_not_by_batch_number :
  @spill (option Z) None int_eqb int_ltb ["id"%string] 1 false
    [int_record 1 10; int_record 1 20] [] 0 []
  = [(0, [int_record 1 10]); (1, [int_record 1 20])]
  /\ filesort_by_id backwards false 1 [int_record 1 10; int_record 1 20]
     = [int_record 1 20; int_record 1 10].
Proof. split; reflexivity. Qed.

Lemma merge_ties_by_listing_order_witness :
  @filesort_merge (option Z) None int_eqb int_ltb ["id"%string] backwards
    false 1
    [int_record 1 10; int_record 1 20]
  = [] ++ (0, int_record 1 20) :: [] ++ (1, int_record 1 10) :: []
  /\ 0 <= 1.
Proof.
  split; [reflexivity |].
  apply (@merge_ties_by_listing_order (option Z) None int_eqb int_ltb
           ["id"%string] int_eqb_eq int_ltb_irrefl int_ltb_trans
           int_ltb_total backwards (fun d => Permutation_sym (Permutation_rev d))
           1 [int_record 1 10; int_record 1 20]
           [] [] [] (0, int_record 1 20) (1, int_record 1 10)).
  - reflexivity.
  - reflexivity.
Defined.

(** Three records, two of them with the same id, sorted by "id". *)
Definition three_records : list (record (option Z)) :=
  [int_record 2 20; int_record 1 10; int_record 2 30].

Lemma filesort_keeps_every_record_witness :
  Permutation (filesort_by_id backwards true 1 three_records) three_records.
Proof.
  apply (@filesort_keeps_every_record (option Z) None int_eqb int_ltb
           ["id"%string] backwards
           (fun d => Permutation_sym (Permutation_rev d))).
Defined.

Lemma filesort_sorts_ascending_witness :
  StronglySorted (@key_le (option Z) None int_eqb int_ltb ["id"%string])
    (filesort_by_id backwards false 2 three_records).
Proof.
  apply (@filesort_sorts_ascending (option Z) None int_eqb int_ltb
           ["id"%string] int_eqb_eq int_ltb_irrefl int_ltb_trans
           int_ltb_total backwards
           (fun d => Permutation_sym (Permutation_rev d))).
Defined.

Lemma filesort_single_batch_witness :
  filesort_by_id backwards true 3 three_records
  = @sorted (option Z) None int_eqb int_ltb ["id"%string] three_records true
  /\ StronglySorted
       (@in_flag_order (option Z) None int_eqb int_ltb ["id"%string] true)
       (filesort_by_id backwards true 3 three_records).
Proof.
  apply (@filesort_single_batch (option Z) None int_eqb int_ltb
           ["id"%string] int_eqb_eq int_ltb_irrefl int_ltb_trans
           int_ltb_total backwards
           (fun d => Permutation_sym (Permutation_rev d))).
  simpl. lia.
Defined.

Lemma filesort_stable_in_listing_order_witness :
  @of_key (option Z) None int_eqb ["id"%string] [Some 2%Z]
    (filesort_by_id in_order false 1 three_records)
  = @of_key (option Z) None int_eqb ["id"%string] [Some 2%Z] three_records.
Proof.
  apply (@filesort_stable_in_listing_order (option Z) None int_eqb int_ltb
           ["id"%string] int_eqb_eq int_ltb_irrefl int_ltb_trans
           int_ltb_total in_order).
  intros d. reflexivity.
Defined.

(** The same runs, evaluated: one batch under the flag gives the ids 2, 2,
    1 with the two records of id 2 in input order; one record per batch
    without the flag and the files listed as written gives 1, 2, 2. *)
Example filesort_three_records :
  filesort_by_id backwards true 3 three_records
  = [int_record 2 20; int_record 2 30; int_record 1 10]
  /\ filesort_by_id in_order false 1 three_records
     = [int_record 1 10; int_record 2 20; int_record 2 30].
Proof. split; reflexivity. Qed.

Lemma spill_files_bounded_witness :
  let tmp :=
    @spill (option Z) None int_eqb int_ltb ["id"%string] 2 true
      three_records [] 0 [] in
  @within (option Z) 2 tmp
  /\ map fst tmp = seq 0 (List.length tmp)
  /\ Permutation (@contents (option Z) tmp) three_records.
Proof.
  apply (@spill_files_bounded (option Z) None int_eqb int_ltb ["id"%string]
           2 true three_records).
  lia.
Defined.

End Sorter.

(** ** url/utils.py: the list of input URLs *)

Module Urls.

Section FlattenUrls.

(** A URL object and its [url] attribute; [expand] asks the file system
    for the concrete resources behind the URL. *)
Variable URL : Type.
Variable url : URL -> string.
Variable expand : URL -> list URL.

(** The argument: None, one URL, or a sequence of URLs and Nones. *)
Inductive urls_arg : Type :=
| ArgNone
| ArgURL (u : URL)
| ArgSeq (urls : list (option URL)).

(** s in seen *)
Definition seen_mem (s : string) (seen : list string) : bool :=
  existsb (String.eqb s) seen.

(** One round of the deduplication loop, on the set [seen] and the list
    [acc_deduped]. *)
Definition dedup_step (st : list string * list URL) (u : URL)
  : list string * list URL :=
  let (seen, acc_deduped) := st in
  if negb (seen_mem (url u) seen)
  then (url u :: seen, acc_deduped ++ [u])
  else (seen, acc_deduped).

(** The URLs of the argument that are URL objects. *)
Definition given (urls : urls_arg) : list URL :=
  match urls with
  | ArgNone => []
  | ArgURL u => [u]
  | ArgSeq l =>
      flat_map (fun x => match x with Some u => [u] | None => [] end) l
  end.

(** The list before deduplication. *)
Definition expanded (urls : urls_arg) (expand_flag : bool) : list URL :=
  if expand_flag then flat_map expand (given urls) else given urls.

Definition flatten_urls (urls : urls_arg) (expand_flag : bool) : list URL :=
  snd (fold_left dedup_step (expanded urls expand_flag) ([], [])).

(** *** The deduplication loop *)

Lemma seen_mem_in (s : string) (seen : list string) :
  seen_mem s seen = true <-> In s seen.
Proof.
  unfold seen_mem. rewrite existsb_exists. split.
  - intros (x & I & E). apply String.eqb_eq in E. now subst.
  - intros I. exists s. split; [exact I | apply String.eqb_refl].
Qed.

(** The set holds the urls of the list, and the list holds each once. *)
Definition tracks (st : list string * list URL) : Prop :=
  (forall s, In s (fst st) <-> In s (map url (snd st)))
  /\ NoDup (map url (snd st)).

Lemma dedup_step_tracks (st : list string * list URL) (u : URL) :
  tracks st ->
  tracks (dedup_step st u)
  /\ (forall s, In s (map url (snd (dedup_step st u)))
        <-> In s (map url (snd st)) \/ s = url u)
  /\ exists more, snd (dedup_step st u) = snd st ++ more.
Proof.
  destruct st as [seen out]. intros [T N]. cbn [fst snd] in *.
  unfold dedup_step. destruct (seen_mem (url u) seen) eqn:M; cbn [negb fst snd].
  - apply seen_mem_in in M. split; [split; assumption |]. split.
    + intros s. split; [tauto |]. intros [H | ->]; [exact H |].
      apply T. exact M.
    + exists []. rewrite app_nil_r. reflexivity.
  - assert (F : ~ In (url u) (map url out)).
    { intros I. apply T in I. apply seen_mem_in in I. congruence. }
    assert (E : forall s, In s (map url (out ++ [u]))
                  <-> In s (map url out) \/ s = url u).
    { intros s. rewrite map_app, in_app_iff. cbn [map In].
      split; intros H; [destruct H as [H | [H | []]] | destruct H]; auto. }
    split; [split |].
    + intros s. split; intros H.
      * apply E. destruct H as [<- | H]; [right; reflexivity |].
        left. apply T. exact H.
      * apply E in H. destruct H as [H | ->]; [| left; reflexivity].
        right. apply T. exact H.
    + cbn [fst snd]. rewrite map_app. cbn [map].
      apply NoDup_app; [exact N | |].
      * repeat constructor. intros [].
      * intros x Hx [<- | []]. exact (F Hx).
    + split; [exact E |]. exists [u]. reflexivity.
Qed.

Lemma dedup_tracks (acc : list URL) : forall st,
  tracks st ->
  tracks (fold_left dedup_step acc st)
  /\ (forall s, In s (map url (snd (fold_left dedup_step acc st)))
        <-> In s (map url (snd st)) \/ In s (map url acc))
  /\ exists more, snd (fold_left dedup_step acc st) = snd st ++ more.
Proof.
  induction acc as [| u acc IH]; intros st T; cbn [fold_left map In].
  - split; [exact T |]. split; [intros s; tauto |].
    exists []. rewrite app_nil_r. reflexivity.
  - destruct (dedup_step_tracks u T) as (T1 & M1 & more1 & E1).
    destruct (IH _ T1) as (T2 & M2 & more2 & E2).
    split; [exact T2 |]. split.
    + intros s. rewrite (M2 s), (M1 s). split; intros H.
      * destruct H as [[H | ->] | H]; auto.
      * destruct H as [H | [<- | H]]; auto.
    + exists (more1 ++ more2). rewrite E2, E1, app_assoc. reflexivity.
Qed.

Lemma tracks_start : tracks ([], []).
Proof. split; [intros s; cbn; tauto | constructor]. Qed.

Lemma dedup_distinct (acc : list URL) : forall st,
  tracks st ->
  NoDup (map url acc) ->
  (forall u, In u acc -> ~ In (url u) (fst st)) ->
  snd (fold_left dedup_step acc st) = snd st ++ acc.
Proof.
  induction acc as [| u acc IH]; intros [seen out] T N F;
    cbn [fold_left map] in *.
  - rewrite app_nil_r. reflexivity.
  - inversion N as [| ? ? Nu N']; subst.
    assert (M : seen_mem (url u) seen = false).
    { destruct (seen_mem (url u) seen) eqn:M; [| reflexivity].
      apply seen_mem_in in M. exfalso. apply (F u); [left; reflexivity |].
      exact M. }
    pose proof (dedup_step_tracks u T) as (T1 & _ & _).
    unfold dedup_step in *. rewrite M in *. cbn [negb] in *.
    rewrite (IH _ T1 N').
    + cbn [snd]. rewrite <- app_assoc. reflexivity.
    + intros v Hv [E | I]; cbn [fst] in *.
      * apply Nu. rewrite E. apply in_map. exact Hv.
      * apply (F v); [right; exact Hv | exact I].
Qed.

(** X23: flatten_urls returns every url of the expanded list exactly once: no
    two URLs of the result have the same url, the result holds the urls of
    the list before deduplication and no other, and a list that has no
    duplicate comes back as it is. *)
Theorem flatten_urls_deduplicates (urls : urls_arg) (expand_flag : bool) :
  NoDup (map url (flatten_urls urls expand_flag))
  /\ (forall s, In s (map url (flatten_urls urls expand_flag))
        <-> In s (map url (expanded urls expand_flag)))
  /\ (NoDup (map url (expanded urls expand_flag)) ->
      flatten_urls urls expand_flag = expanded urls expand_flag).
Proof.
  unfold flatten_urls.
  destruct (dedup_tracks (expanded urls expand_flag) tracks_start)
    as ((_ & N) & M & _).
  split; [exact N |]. split.
  - intros s. rewrite (M s). cbn [snd map In]. tauto.
  - intros D. rewrite (dedup_distinct _ tracks_start D); [reflexivity |].
    intros u _ [].
Qed.

(** X24: The result is in first-seen order: the URLs flattened from the first
    part of a sequence stay at the front, in their order, when the
    sequence goes on. *)
Theorem flatten_urls_first_seen (l1 l2 : list (option URL))
  (expand_flag : bool) :
  exists more,
    flatten_urls (ArgSeq (l1 ++ l2)) expand_flag
    = flatten_urls (ArgSeq l1) expand_flag ++ more.
Proof.
  unfold flatten_urls.
  assert (E : expanded (ArgSeq (l1 ++ l2)) expand_flag
              = expanded (ArgSeq l1) expand_flag
                ++ expanded (ArgSeq l2) expand_flag).
  { unfold expanded, given. rewrite flat_map_app.
    destruct expand_flag; [apply flat_map_app | reflexivity]. }
  rewrite E, fold_left_app.
  destruct (dedup_tracks (expanded (ArgSeq l1) expand_flag) tracks_start)
    as (T & _ & _).
  destruct (dedup_tracks (expanded (ArgSeq l2) expand_flag) T)
    as (_ & _ & more & H).
  exists more. exact H.
Qed.

End FlattenUrls.

(** Paths as URLs, a directory standing for its two files. *)
Definition listing (u : string) : list string :=
  if String.eqb u "dir" then ["dir/a"%string; "dir/b"%string] else [u].

Example flatten_urls_sample :
  flatten_urls (fun s => s) listing
    (ArgSeq [Some "dir/b"%string; None; Some "dir"%string; Some "x"%string;
             Some "dir/a"%string]) true
  = ["dir/b"%string; "dir/a"%string; "x"%string]
  /\ flatten_urls (fun s => s) listing (ArgURL "dir"%string) false
     = ["dir"%string]
  /\ flatten_urls (fun s => s) listing (ArgNone string) true = [].
Proof. repeat split; reflexivity. Qed.

End Urls.
